(** * asammdf: the [MDF] facade of [asammdf/mdf.py]

  A shallow embedding of the structural operations of the [MDF] class
  ([cut], [convert], [filter], [concatenate], [stack], [resample],
  [cleanup_timestamps], [whereis] and the summary bookkeeping of
  [_extract_can_logging]) together with the properties the specification
  states about them.

  Conventions of the embedding.
  - Timestamps and sample values are float64 in the program; they are
    embedded as exact rationals ([Q]), so rounding is not modelled.
  - A Python call either returns a value, returns [None], or raises; this
    is the type [result].
  - Methods that assign attributes of [self] take the instance and give it
    back (explicit state passing).
  - [MDF._terminate] is a process-wide flag that another thread may set at
    any moment; the embedding reads it through an oracle indexed by the
    number of virtual-group iterations finished so far.
  - The progress callback is not modelled (instances without callback). *)

From Stdlib Require Import QArith Lqa ZArith Lia.
From stdpp Require Import gmap strings list fin_maps sorting pretty.

Local Open Scope string_scope.
Local Open Scope list_scope.

(** ** Python values and call results *)

Module Py.

Inductive exn : Type :=
| MdfException (msg : string)
| KeyError
| TypeError
| AttributeError
| IndexError
| AssertionError
| UnboundLocalError.

Inductive result (A : Type) : Type :=
| Return (a : A)
| ReturnNone
| Raise (e : exn).

Arguments Return {A} a.
Arguments ReturnNone {A}.
Arguments Raise {A} e.

(** [d[k]] on a plain [dict]: a missing key raises [KeyError] and the
    dictionary is left as it was (unlike a [defaultdict]). *)
Definition dict_getitem {V : Type} (d : gmap string V) (k : string)
  : (exn + V) * gmap string V :=
  match d !! k with
  | Some v => (inr v, d)
  | None => (inl KeyError, d)
  end.

(** [k in d] *)
Definition dict_contains {V : Type} (d : gmap string V) (k : string) : bool :=
  bool_decide (is_Some (d !! k)).

End Py.

Import Py.

(** ** Comparisons on timestamps *)

Definition Qleb (x y : Q) : bool := Qle_bool x y.
Definition Qltb (x y : Q) : bool := negb (Qle_bool y x).

(** Python's [min(a, b)] and [max(a, b)]: the first argument wins a tie. *)
Definition py_min (a b : Q) : Q := if Qltb b a then b else a.
Definition py_max (a b : Q) : Q := if Qltb a b then b else a.

(** ** Data model *)

(** Kind of a channel's samples; it selects the interpolation mode. *)
Inductive Kind : Type := KInt | KFloat.

(** [Signal]: the in-memory result type. *)
Record Signal : Type := mkSignal {
  name : string;
  kind : Kind;
  samples : list Q;
  timestamps : list Q;
  invalidation_bits : option (list bool)
}.

(** One column of a fragment: [(samples, invalidation_bits)]. *)
Definition Column : Type := (list Q * option (list bool))%type.

(** One item produced by [_yield_selected_signals]: the master array of the
  fragment and one column per requested channel, in channel order. The
  first item of a group carries the same data wrapped in [Signal] objects
  (see [first_yield]). *)
Record Fragment : Type := mkFragment {
  master : list Q;
  cols : list Column
}.

Record Channel : Type := mkChannel {
  ch_name : string;
  ch_kind : Kind
}.

(** Source information of one channel occurrence, used by [whereis]. *)
Record Source : Type := mkSource {
  source_name : string;
  source_path : string
}.

(** A virtual group: its included (non-master) channels, the fragments its
  data is read in, and the channel-group attributes that are carried over
  by [_transfer_channel_group_data]. *)
Record Group : Type := mkGroup {
  channels : list Channel;
  fragments : list Fragment;
  comment : string;
  acq_name : string
}.

(** The engine instance. [groups] lists the virtual groups in the order of
  [self.virtual_groups]; the key of a virtual group is its position. *)
Record MDF : Type := mkMDF {
  version : string;
  groups : list Group;
  start_time : Q;
  copy_on_get : bool;
  integer_interpolation : nat;
  float_interpolation : nat;
  channels_db : gmap string (list (nat * nat));
  sources : gmap (nat * nat) Source
}.

Definition set_copy_on_get (b : bool) (m : MDF) : MDF :=
  mkMDF (version m) (groups m) (start_time m) b (integer_interpolation m)
        (float_interpolation m) (channels_db m) (sources m).

Definition set_groups (gs : list Group) (m : MDF) : MDF :=
  mkMDF (version m) gs (start_time m) (copy_on_get m) (integer_interpolation m)
        (float_interpolation m) (channels_db m) (sources m).

Definition set_start_time (t : Q) (m : MDF) : MDF :=
  mkMDF (version m) (groups m) t (copy_on_get m) (integer_interpolation m)
        (float_interpolation m) (channels_db m) (sources m).

(** ** [whereis] and [__contains__] *)

Module WhereIs.

(** Modelled from the spec: [_filter_occurrences] is defined in the
    version-specific engines, which are not part of the sources at hand.
    Following the docstring of [whereis], an occurrence passes when each
    filter that is given matches: the source name, the source path, and the
    acquisition name of the occurrence's channel group. *)
Definition passes (m : MDF) (source_name' source_path' acq_name' : option string)
    (occ : nat * nat) : bool :=
  let src := sources m !! occ in
  match source_name' with
  | None => true
  | Some n => bool_decide (source_name <$> src = Some n)
  end
  && match source_path' with
     | None => true
     | Some p => bool_decide (source_path <$> src = Some p)
     end
  && match acq_name' with
     | None => true
     | Some a => bool_decide (acq_name <$> (groups m !! occ.1) = Some a)
     end.

Definition _filter_occurrences (m : MDF) (occurrences : list (nat * nat))
    (source_name' source_path' acq_name' : option string) : list (nat * nat) :=
  List.filter (passes m source_name' source_path' acq_name') occurrences.

(** [MDF.__contains__] *)
Definition contains (self : MDF) (channel : string) : bool :=
  dict_contains (channels_db self) channel.

(** [MDF.whereis]: the occurrences (a tuple, here a list) and the instance
    after the call. *)
Definition whereis (self : MDF) (channel : string)
    (source_name' source_path' acq_name' : option string)
  : list (nat * nat) * MDF :=
  let '(r, db) := dict_getitem (channels_db self) channel in
  let self' := mkMDF (version self) (groups self) (start_time self)
                     (copy_on_get self) (integer_interpolation self)
                     (float_interpolation self) db (sources self) in
  match r with
  | inl _ => ([], self')
  | inr occurrences =>
      (_filter_occurrences self' occurrences source_name' source_path' acq_name',
       self')
  end.

End WhereIs.


(** ** Array helpers (numpy) *)

(** [a[0]] and [a[-1]] of a non-empty array. *)
Definition first_of (a : list Q) : Q := List.hd 0%Q a.
Definition last_of (a : list Q) : Q := List.last a 0%Q.

(** [np.searchsorted(a, v, side="left")] on a sorted array: the first index
    whose element is not below [v]. *)
Fixpoint searchsorted_left (a : list Q) (v : Q) : nat :=
  match a with
  | [] => 0
  | x :: a' => if Qltb x v then S (searchsorted_left a' v) else 0
  end.

(** [np.searchsorted(a, v, side="right")] on a sorted array: the first
    index whose element is above [v]. *)
Fixpoint searchsorted_right (a : list Q) (v : Q) : nat :=
  match a with
  | [] => 0
  | x :: a' => if Qleb x v then S (searchsorted_right a' v) else 0
  end.

(** [a[mask]], boolean-mask indexing. *)
Fixpoint mask_select {A : Type} (mask : list bool) (a : list A) : list A :=
  match mask, a with
  | b :: mask', x :: a' =>
      if b then x :: mask_select mask' a' else mask_select mask' a'
  | _, _ => []
  end.

(** [np.amin] of a non-empty list. *)
Definition amin (a : list Q) : Q :=
  match a with
  | [] => 0%Q
  | x :: a' => foldl py_min x a'
  end.

(** ** [Signal] methods *)

Module Sig.

(** [len(signal)] *)
Definition len (sig : Signal) : nat := length (samples sig).

(** The interpolation mode that applies to a signal: the integer mode for
    integer samples, the float mode for float samples ([0] repeats the
    previous sample, any other value interpolates linearly). *)
Definition mode_of (integer_interpolation_mode float_interpolation_mode : nat)
    (k : Kind) : nat :=
  match k with
  | KInt => integer_interpolation_mode
  | KFloat => float_interpolation_mode
  end.

(** Value of the samples [vs], taken at times [ts], at time [t]. Outside of
    the sampled range the nearest sample is used. *)
Fixpoint interp_at (mode : nat) (ts vs : list Q) (t : Q) : Q :=
  match ts, vs with
  | t0 :: ts', v0 :: vs' =>
      match ts', vs' with
      | t1 :: _, v1 :: _ =>
          if Qltb t t1 then
            if Qleb t t0 then v0
            else match mode with
                 | O => v0
                 | S _ => (v0 + (v1 - v0) * (t - t0) / (t1 - t0))%Q
                 end
          else interp_at mode ts' vs' t
      | _, _ => v0
      end
  | _, _ => 0%Q
  end.

(** The invalidation bit that goes with time [t]: the one of the last
    sample at or before [t]. *)
Definition bit_at (ts : list Q) (bits : list bool) (t : Q) : bool :=
  nth (pred (searchsorted_right ts t)) bits false.

(** Modelled from the spec: [Signal.interp] lives in [signal.py], which is
    not part of the sources at hand. "Every channel is re-interpolated onto
    the raster using configured per-kind interpolation (integer:
    repeat-previous or linear per config; float: linear)": the result
    carries the raster as its timestamps and one interpolated sample per
    raster point. *)
Definition interp (sig : Signal) (new_timestamps : list Q)
    (integer_interpolation_mode float_interpolation_mode : nat) : Signal :=
  let mode := mode_of integer_interpolation_mode float_interpolation_mode (kind sig) in
  mkSignal (name sig) (kind sig)
           (map (interp_at mode (timestamps sig) (samples sig)) new_timestamps)
           new_timestamps
           ((fun bits => map (bit_at (timestamps sig) bits) new_timestamps)
              <$> invalidation_bits sig).

(** [start <= t <= stop], a missing bound being unbounded on its side. *)
Definition in_range (start stop : option Q) (t : Q) : bool :=
  match start with None => true | Some s => Qleb s t end
  && match stop with None => true | Some e => Qleb t e end.

(** [b] falls strictly inside a sampling interval of [ts]: two consecutive
    timestamps have [b] strictly between them. *)
Fixpoint inside_interval (ts : list Q) (b : Q) : bool :=
  match ts with
  | [] => false
  | t0 :: ts' =>
      match ts' with
      | [] => false
      | t1 :: _ => (Qltb t0 b && Qltb b t1) || inside_interval ts' b
      end
  end.

(** The boundary samples [cut] synthesizes: the start bound, then the stop
    bound (once when both bounds are the same point), each only when it
    falls strictly inside a sampling interval and [include_ends] is set. *)
Definition lead_bound (ts : list Q) (start stop : option Q) (include_ends : bool)
  : list Q :=
  match start with
  | Some s => if include_ends && inside_interval ts s then [s] else []
  | None => []
  end.

Definition trail_bound (ts : list Q) (start stop : option Q) (include_ends : bool)
  : list Q :=
  match stop with
  | Some e =>
      if include_ends && inside_interval ts e
         && negb (existsb (Qeq_bool e) (lead_bound ts start stop include_ends))
      then [e] else []
  | None => []
  end.

(** Modelled from the spec: [Signal.cut] lives in [signal.py], which is not
    part of the sources at hand. "Output contains only samples with
    [start <= t <= stop]; if [include_ends] and bounds fall strictly inside
    a sampling interval, interpolated boundary samples are synthesized." *)
Definition cut (sig : Signal) (start stop : option Q) (include_ends : bool)
    (integer_interpolation_mode float_interpolation_mode : nat) : Signal :=
  let ts := timestamps sig in
  let mode := mode_of integer_interpolation_mode float_interpolation_mode (kind sig) in
  let mask := map (in_range start stop) ts in
  let lead := lead_bound ts start stop include_ends in
  let trail := trail_bound ts start stop include_ends in
  let value := interp_at mode ts (samples sig) in
  mkSignal (name sig) (kind sig)
           (map value lead ++ mask_select mask (samples sig) ++ map value trail)
           (lead ++ mask_select mask ts ++ trail)
           ((fun bits => map (bit_at ts bits) lead ++ mask_select mask bits
                         ++ map (bit_at ts bits) trail)
              <$> invalidation_bits sig).

(** [sig.samples = sig.samples[:0]] and so on: the signal without cycles. *)
Definition truncate (sig : Signal) : Signal :=
  mkSignal (name sig) (kind sig) [] [] ((fun _ => []) <$> invalidation_bits sig).

Definition set_timestamps (ts : list Q) (sig : Signal) : Signal :=
  mkSignal (name sig) (kind sig) (samples sig) ts (invalidation_bits sig).

(** [signal.samples = samples; signal.timestamps = master;
    signal.invalidation_bits = invalidation] *)
Definition update (master' : list Q) (sig : Signal) (c : Column) : Signal :=
  mkSignal (name sig) (kind sig) c.1 master' c.2.

Definition column (sig : Signal) : Column := (samples sig, invalidation_bits sig).

End Sig.

(** ** The engine underneath the facade *)

Module Engine.

(** Modelled from the spec: [validate_version_argument] is defined in
    [utils.py], which is not part of the sources at hand. The docstrings
    list the supported versions; any other value falls back to the default
    version ['4.10']. *)
Definition SUPPORTED_VERSIONS : list string :=
  ["2.00"; "2.10"; "2.14"; "3.00"; "3.10"; "3.20"; "3.30";
   "4.00"; "4.10"; "4.11"; "4.20"].

Definition validate_version_argument (v : string) : string :=
  if bool_decide (v ∈ SUPPORTED_VERSIONS) then v else "4.10".

(** [MDF(version=version, **self._kwargs)] followed by
    [out.configure(from_other=self)]: an empty instance that takes over the
    configuration of [other]. *)
Definition new_from (version' : string) (other : MDF) : MDF :=
  mkMDF version' [] 0%Q (copy_on_get other) (integer_interpolation other)
        (float_interpolation other) ∅ ∅.

(** The first item of [_yield_selected_signals]: one [Signal] per requested
    channel, all on the master of the fragment. *)
Definition first_yield (g : Group) (f : Fragment) : list Signal :=
  zip_with (fun ch c => mkSignal (ch_name ch) (ch_kind ch) c.1 (master f) c.2)
           (channels g) (cols f).

(** A later item of [_yield_selected_signals]:
    [[(master, None), (samples, invalidation), ...]]. *)
Definition next_yield (f : Fragment) : list Column :=
  (master f, None) :: cols f.

(** Modelled from the spec: [append(signals) -> group_index] is defined in
    the version-specific engines. With [common_timebase=True] the new group
    takes the timestamps of the first signal as its master; its index is the
    number of groups before the call. *)
Definition append (signals : list Signal) (comment' acq_name' : string)
    (out : MDF) : MDF * nat :=
  let g := mkGroup (map (fun s => mkChannel (name s) (kind s)) signals)
                   [mkFragment (match signals with
                                | s :: _ => timestamps s
                                | [] => []
                                end)
                               (map Sig.column signals)]
                   comment' acq_name' in
  (set_groups (groups out ++ [g]) out, length (groups out)).

(** Modelled from the spec: [extend(group_index, raw_columns)] "grows the
    logical record count and writes a new physical fragment". The first
    column is the master. An index without group leaves the file as it
    is. *)
Definition extend (cg_nr : nat) (sigs : list Column) (out : MDF) : MDF :=
  match sigs with
  | [] => out
  | m :: cs =>
      set_groups
        (alter (fun g => mkGroup (channels g)
                                 (fragments g ++ [mkFragment m.1 cs])
                                 (comment g) (acq_name g))
               cg_nr (groups out))
        out
  end.

(** [version >= "4.00"], the test the facade tells the two engines apart
    with. *)
Definition is_v4 (version' : string) : bool := String.leb "4.00" version'.

(** Modelled from the spec: the channel-group blocks are defined in the
    version-specific engines. Those of a 4.x file have the attribute
    [acq_name], those of a 3.x file do not; [has_acq_name m] is
    [hasattr(group.channel_group, "acq_name")] for the groups of [m]. *)
Definition has_acq_name (m : MDF) : bool := is_v4 (version m).

(** [MDF._transfer_channel_group_data(out.groups[cg_nr].channel_group, cg)]:
    when one of the two groups has no [acq_name] only the comment is
    carried over. [sgroup_has] and [ogroup_has] are the two [hasattr]
    tests. *)
Definition transfer_channel_group_data (sgroup_has ogroup_has : bool)
    (cg_nr : nat) (cg : Group) (out : MDF) : MDF :=
  set_groups
    (alter (fun g =>
              if negb sgroup_has || negb ogroup_has
              then mkGroup (channels g) (fragments g) (comment cg) (acq_name g)
              else mkGroup (channels g) (fragments g) (comment cg) (acq_name cg))
           cg_nr (groups out))
    out.

(** All timestamps of a group, fragment after fragment. *)
Definition group_timestamps (g : Group) : list Q :=
  concat (map master (fragments g)).

(** All samples of the channel at position [k] of a group. *)
Definition channel_samples (g : Group) (k : nat) : list Q :=
  concat (map (fun f => (nth k (cols f) ([], None)).1) (fragments g)).

(** [self.get_master(group, record_offset=0, record_count=1)] *)
Definition get_master_first (g : Group) : list Q :=
  take 1 (group_timestamps g).

End Engine.

(** ** Loop control shared by the structural operations *)

(** What the body of a [for] loop over fragments asks for. *)
Inductive Ctl : Type := Next | Break.

(** How a loop over virtual groups (or files) ends: it runs to its end, or
    the terminate flag is seen and the method returns [None]. Both carry the
    state of the local variables at that point. *)
Inductive Exit (S : Type) : Type :=
| Done (s : S)
| Aborted (s : S).

Arguments Done {S} s.
Arguments Aborted {S} s.

(** ** [MDF.cut] *)

Module Cut.
Import Engine.

(** The arguments of a call, after [whence] has been applied, and what the
    loop reads of [self]: the interpolation modes and whether its channel
    groups have the attribute [acq_name]. *)
Record Config : Type := mkConfig {
  c_start : option Q;
  c_stop : option Q;
  c_include_ends : bool;
  c_time_from_zero : bool;
  c_delta : Q;
  c_integer_mode : nat;
  c_float_mode : nat;
  c_acq_name : bool
}.

(** The decision taken for one fragment: leave the loop, skip the fragment,
    or keep it between [fragment_start] and [fragment_stop]. *)
Inductive Plan : Type :=
| PBreak
| PContinue
| PKeep (fragment_start fragment_stop : option Q) (needs_cutting : bool).

Definition plan (start stop : option Q) (master : list Q) : Plan :=
  match start, stop with
  | None, None => PKeep None None false
  | None, Some stop =>
      if Qltb stop (first_of master) then PBreak
      else
        let fragment_stop := py_min stop (last_of master) in
        let stop_index := searchsorted_right master fragment_stop in
        PKeep None (Some fragment_stop) (negb (stop_index =? length master)%nat)
  | Some start, None =>
      if Qltb (last_of master) start then PContinue
      else
        let fragment_start := py_max start (first_of master) in
        let start_index := searchsorted_left master fragment_start in
        PKeep (Some fragment_start) None (negb (start_index =? 0)%nat)
  | Some start, Some stop =>
      if Qltb stop (first_of master) then PBreak
      else if Qltb (last_of master) start then PContinue
      else
        let fragment_start := py_max start (first_of master) in
        let start_index := searchsorted_left master fragment_start in
        let fragment_stop := py_min stop (last_of master) in
        let stop_index := searchsorted_right master fragment_stop in
        PKeep (Some fragment_start) (Some fragment_stop)
              (negb ((start_index =? 0)%nat && (stop_index =? length master)%nat))
  end.

(** The local variables of [cut] that live across fragments and groups.
    [named] tells whether [start_] and [stop_] have been bound. *)
Record Loop : Type := mkLoop {
  idx : nat;
  signals : list Signal;
  out : MDF;
  cg_nr : nat;
  named : bool
}.

Definition with_signals (sigs : list Signal) (st : Loop) : Loop :=
  mkLoop (idx st) sigs (out st) (cg_nr st) (named st).

(** [for signal, (samples, invalidation) in zip(signals, sigs[1:])]: the
    signals that have a column are overwritten in place, the others stay. *)
Fixpoint update_all (master' : list Q) (sigs : list Signal) (columns : list Column)
  : list Signal :=
  match sigs, columns with
  | s :: sigs', c :: columns' =>
      Sig.update master' s c :: update_all master' sigs' columns'
  | _, _ => sigs
  end.

(** [out.append(signals, ...)] followed by [_transfer_channel_group_data]. *)
Definition append_group (ogroup_has : bool) (sigs : list Signal)
    (comment' : string) (cg : Group) (st : Loop) : MDF * nat :=
  let '(o, nr) := append sigs comment' "" (out st) in
  (transfer_channel_group_data (has_acq_name o) ogroup_has nr cg o, nr).

(** What the body of the loop over the fragments computes before it writes
    to [out]: it leaves the loop, goes on with the next fragment, or has a
    master and signals to write. Each case carries the value of [signals]
    after the step. *)
Inductive Step : Type :=
| SBreak (signals' : list Signal)
| SSkip (signals' : list Signal)
| SEmit (master' : list Q) (signals' : list Signal).

(** The step once [signals] and [master] are set: [signals0] is the value
    of [signals] at that point. *)
Definition step_body (c : Config) (j : nat) (f : Fragment)
    (signals0 : list Signal) : Step :=
  let master0 := master f in
  match master0 with
  | [] => SSkip signals0
  | _ :: _ =>
      match plan (c_start c) (c_stop c) master0 with
      | PBreak => SBreak signals0
      | PContinue => SSkip signals0
      | PKeep fragment_start fragment_stop needs_cutting =>
          let signals1 :=
            match j with
            | O => signals0
            | S _ => update_all master0 signals0 (cols f)
            end in
          let master1 :=
            if needs_cutting then
              timestamps
                (Sig.cut (mkSignal "_" KFloat master0 master0 None)
                         fragment_start fragment_stop (c_include_ends c)
                         (c_integer_mode c) (c_float_mode c))
            else master0 in
          match master1 with
          | [] => SSkip signals1
          | _ :: _ =>
              let signals2 :=
                if needs_cutting then
                  map (fun sig =>
                         Sig.cut sig (Some (first_of master1))
                                 (Some (last_of master1)) (c_include_ends c)
                                 (c_integer_mode c) (c_float_mode c))
                      signals1
                else signals1 in
              let master2 :=
                if c_time_from_zero c
                then map (fun t => (t - c_delta c)%Q) master1
                else master1 in
              let signals3 :=
                if c_time_from_zero c
                then map (Sig.set_timestamps master2) signals2
                else signals2 in
              SEmit master2 signals3
          end
      end
  end.

(** The step on item [j] of [_yield_selected_signals]: an empty first item
    ends the loop; the first item sets [signals]. *)
Definition fragment_step (c : Config) (g : Group) (j : nat) (f : Fragment)
    (signals_ : list Signal) : Step :=
  match j, first_yield g f with
  | O, [] => SBreak signals_
  | O, sigs => step_body c j f sigs
  | S _, _ => step_body c j f signals_
  end.

(** The body of the loop over the fragments of one group: the step, then
    the first kept fragment is appended as a new group and the later ones
    extend that group. *)
Definition cut_fragment (c : Config) (g : Group) (j : nat) (f : Fragment)
    (st : Loop) : Ctl * Loop :=
  match fragment_step c g j f (signals st) with
  | SBreak signals' => (Break, with_signals signals' st)
  | SSkip signals' => (Next, with_signals signals' st)
  | SEmit master' signals' =>
      match idx st with
      | O =>
          let '(o, nr) := append_group (c_acq_name c) signals' (comment g) g st in
          (Next, mkLoop 1 signals' o nr true)
      | S _ =>
          let sigs' := (master', None) :: map Sig.column signals' in
          (Next, mkLoop (S (idx st)) signals'
                        (extend (cg_nr st) sigs' (out st))
                        (cg_nr st) (named st))
      end
  end.

(** The loop over the fragments of a group; [j] counts them. *)
Fixpoint cut_fragments (c : Config) (g : Group) (j : nat) (fs : list Fragment)
    (st : Loop) : Loop :=
  match fs with
  | [] => st
  | f :: fs' =>
      match cut_fragment c g j f st with
      | (Break, st') => st'
      | (Next, st') => cut_fragments c g (S j) fs' st'
      end
  end.

(** One virtual group: its fragments, then the group without cycles when
    nothing of it was kept. *)
Definition cut_group (c : Config) (g : Group) (st : Loop) : Loop :=
  let st1 := cut_fragments c g 0 (fragments g)
                           (mkLoop 0 [] (out st) (cg_nr st) (named st)) in
  match idx st1, signals st1 with
  | O, _ :: _ =>
      let sigs := map Sig.truncate (signals st1) in
      let '(o, nr) := append_group (c_acq_name c) sigs "" g st1 in
      mkLoop 0 sigs o nr true
  | _, _ => st1
  end.

(** The loop over the virtual groups; [terminate k] is the value of the
    flag when [k] iterations are over.

    Modelled from the spec: [included_channels] is defined in the
    version-specific engines. [self.included_channels(index)[index]] is a
    dictionary from the groups of the virtual group to the positions of
    their included channels; it has the key of the group also when no
    channel of it is included, so [if not included_channels: continue] is
    not taken and a group without included channels ends its loop over the
    fragments at the first, empty, item. *)
Fixpoint cut_groups (c : Config) (terminate : nat -> bool) (i : nat)
    (gs : list Group) (st : Loop) : Exit Loop :=
  match gs with
  | [] => Done st
  | g :: gs' =>
      let st' := cut_group c g st in
      if terminate (S i) then Aborted st'
      else cut_groups c terminate (S i) gs' st'
  end.

(** [start] and [stop] after [whence]: with [whence == 1] they are relative
    to the smallest first timestamp of the groups (0 without data). *)
Definition apply_whence (self : MDF) (whence : Z) (bound : option Q) : option Q :=
  if (whence =? 1)%Z then
    let timestamps := flat_map get_master_first (groups self) in
    let first_timestamp :=
      match timestamps with [] => 0%Q | _ :: _ => amin timestamps end in
    (fun b => (b + first_timestamp)%Q) <$> bound
  else bound.

(** [MDF.cut]: the result of the call and the instance after it. *)
Definition cut (self : MDF) (start stop : option Q) (whence : Z)
    (version' : option string) (include_ends time_from_zero : bool)
    (terminate : nat -> bool) : result MDF * MDF :=
  let version := match version' with
                 | None => version self
                 | Some v => validate_version_argument v
                 end in
  let out0 := new_from version self in
  let self1 := set_copy_on_get false self in
  let start := apply_whence self1 whence start in
  let stop := apply_whence self1 whence stop in
  let header :=
    if time_from_zero then
      match start with
      | None => None
      | Some delta => Some (delta, set_start_time (start_time self1 + delta)%Q out0)
      end
    else Some (0%Q, set_start_time (start_time self1) out0) in
  match header with
  | None => (Raise TypeError, self1)
  | Some (delta, out1) =>
      let c := mkConfig start stop include_ends time_from_zero delta
                        (integer_interpolation self1) (float_interpolation self1)
                        (has_acq_name self1) in
      match cut_groups c terminate 0 (groups self1) (mkLoop 0 [] out1 0 false) with
      | Aborted _ => (ReturnNone, self1)
      | Done st =>
          let self2 := set_copy_on_get true self1 in
          if named st then (Return (out st), self2)
          else (Raise UnboundLocalError, self2)
      end
  end.

End Cut.

(** ** [MDF.convert] *)

Module Convert.
Import Engine.

(** The local variables that live across fragments and groups. *)
Record Loop : Type := mkLoop {
  out : MDF;
  cg_nr : nat
}.

(** The body of the loop over the items of [_yield_selected_signals]. *)
Definition convert_fragment (ogroup_has : bool) (g : Group) (idx : nat)
    (f : Fragment) (st : Loop) : Ctl * Loop :=
  match idx with
  | O =>
      match first_yield g f with
      | [] => (Break, st)
      | sigs =>
          let '(o, nr) := append sigs (comment g) "" (out st) in
          (Next, mkLoop (transfer_channel_group_data (has_acq_name o) ogroup_has
                                                     nr g o) nr)
      end
  | S _ => (Next, mkLoop (extend (cg_nr st) (next_yield f) (out st)) (cg_nr st))
  end.

Fixpoint convert_fragments (ogroup_has : bool) (g : Group) (idx : nat)
    (fs : list Fragment) (st : Loop) : Loop :=
  match fs with
  | [] => st
  | f :: fs' =>
      match convert_fragment ogroup_has g idx f st with
      | (Break, st') => st'
      | (Next, st') => convert_fragments ogroup_has g (S idx) fs' st'
      end
  end.

(** The loop over the virtual groups; the terminate flag is looked at after
    every group. *)
Fixpoint convert_groups (ogroup_has : bool) (terminate : nat -> bool) (i : nat)
    (gs : list Group) (st : Loop) : Exit Loop :=
  match gs with
  | [] => Done st
  | g :: gs' =>
      let st' := convert_fragments ogroup_has g 0 (fragments g) st in
      if terminate (S i) then Aborted st'
      else convert_groups ogroup_has terminate (S i) gs' st'
  end.

(** [MDF.convert]: the result of the call and the instance after it. *)
Definition convert (self : MDF) (version' : string) (terminate : nat -> bool)
  : result MDF * MDF :=
  let version := validate_version_argument version' in
  let out0 := set_start_time (start_time self) (new_from version self) in
  let self1 := set_copy_on_get false self in
  match convert_groups (has_acq_name self1) terminate 0 (groups self1)
                       (mkLoop out0 0) with
  | Aborted _ => (ReturnNone, self1)
  | Done st => (Return (out st), set_copy_on_get true self1)
  end.

End Convert.

(** ** [MDF.filter] *)

Module Filter.
Import Engine.

(** [a[i] for i in positions], leaving out positions without element. *)
Definition pick {A : Type} (positions : list nat) (a : list A) : list A :=
  omap (fun k => a !! k) positions.

(** The data [_yield_selected_signals(group_index, groups=groups)] reads:
    the group restricted to the selected channel positions. *)
Definition restrict (positions : list nat) (g : Group) : Group :=
  mkGroup (pick positions (channels g))
          (map (fun f => mkFragment (master f) (pick positions (cols f)))
               (fragments g))
          (comment g) (acq_name g).

Record Loop : Type := mkLoop {
  out : MDF;
  cg_nr : nat
}.

Definition filter_fragment (ogroup_has : bool) (g : Group) (idx : nat)
    (f : Fragment) (st : Loop) : Ctl * Loop :=
  match idx with
  | O =>
      match first_yield g f with
      | [] => (Break, st)
      | sigs =>
          let '(o, nr) := append sigs (comment g) "" (out st) in
          (Next, mkLoop (transfer_channel_group_data (has_acq_name o) ogroup_has
                                                     nr g o) nr)
      end
  | S _ => (Next, mkLoop (extend (cg_nr st) (next_yield f) (out st)) (cg_nr st))
  end.

Fixpoint filter_fragments (ogroup_has : bool) (g : Group) (idx : nat)
    (fs : list Fragment) (st : Loop) : Loop :=
  match fs with
  | [] => st
  | f :: fs' =>
      match filter_fragment ogroup_has g idx f st with
      | (Break, st') => st'
      | (Next, st') => filter_fragments ogroup_has g (S idx) fs' st'
      end
  end.

(** The loop over [gps.items()]: the selected groups, each with the
    positions of its selected channels. A key without group has no data. *)
Fixpoint filter_groups (self : MDF) (terminate : nat -> bool) (i : nat)
    (gps : list (nat * list nat)) (st : Loop) : Exit Loop :=
  match gps with
  | [] => Done st
  | (group_index, positions) :: gps' =>
      let st' :=
        match groups self !! group_index with
        | Some g =>
            let g' := restrict positions g in
            filter_fragments (has_acq_name self) g' 0 (fragments g') st
        | None => st
        end in
      if terminate (S i) then Aborted st'
      else filter_groups self terminate (S i) gps' st'
  end.

(** [MDF.filter]. The selection [gps] is what [included_channels] (defined
    in the version-specific engines) makes of the [channels] argument. *)
Definition filter (self : MDF) (gps : list (nat * list nat))
    (version' : option string) (terminate : nat -> bool) : result MDF * MDF :=
  let version := match version' with
                 | None => version self
                 | Some v => validate_version_argument v
                 end in
  let mdf := set_start_time (start_time self) (new_from version self) in
  let self1 := set_copy_on_get false self in
  match filter_groups self1 terminate 0 gps (mkLoop mdf 0) with
  | Aborted _ => (ReturnNone, self1)
  | Done st => (Return (out st), set_copy_on_get true self1)
  end.

End Filter.

(** ** [MDF.cleanup_timestamps] *)

Module Cleanup.
Import Engine.

Record Loop : Type := mkLoop {
  out : MDF;
  cg_nr : nat
}.

(** [plausible t] stands for [plausible_timestamps(t, minimum, maximum,
    exp_min, exp_max)] of [utils.py], which is not part of the sources at
    hand: it gives [(all_ok, idx)], [idx] being the mask of the plausible
    entries. *)
Definition clean_signal (mask : list bool) (t : list Q) (sig : Signal) : Signal :=
  mkSignal (name sig) (kind sig) (mask_select mask (samples sig)) t
           (mask_select mask <$> invalidation_bits sig).

Definition clean_column (mask : list bool) (c : Column) : Column :=
  (mask_select mask c.1, mask_select mask <$> c.2).

Definition cleanup_fragment (plausible : list Q -> bool * list bool)
    (version_from version_to : string) (g : Group) (idx : nat) (f : Fragment)
    (st : Loop) : Ctl * Loop :=
  match idx with
  | O =>
      match first_yield g f with
      | [] => (Break, st)
      | (s0 :: _) as sigs =>
          let t := timestamps s0 in
          let sigs' :=
            match t with
            | [] => sigs
            | _ :: _ =>
                let '(all_ok, mask) := plausible t in
                if all_ok then sigs
                else match mask_select mask t with
                     | [] => sigs
                     | (_ :: _) as t' => map (clean_signal mask t') sigs
                     end
            end in
          let '(o, nr) :=
            append sigs'
                   ("Timestamps cleaned up and converted from " ++ version_from
                    ++ " to " ++ version_to)%string
                   (acq_name g) (out st) in
          (Next, mkLoop o nr)
      end
  | S _ =>
      let sigs := next_yield f in
      let t := master f in
      let sigs' :=
        match t with
        | [] => sigs
        | _ :: _ =>
            let '(all_ok, mask) := plausible t in
            if all_ok then sigs
            else match mask_select mask t with
                 | [] => sigs
                 | _ :: _ => map (clean_column mask) sigs
                 end
        end in
      (Next, mkLoop (extend (cg_nr st) sigs' (out st)) (cg_nr st))
  end.

Fixpoint cleanup_fragments (plausible : list Q -> bool * list bool)
    (version_from version_to : string) (g : Group) (idx : nat)
    (fs : list Fragment) (st : Loop) : Loop :=
  match fs with
  | [] => st
  | f :: fs' =>
      match cleanup_fragment plausible version_from version_to g idx f st with
      | (Break, st') => st'
      | (Next, st') =>
          cleanup_fragments plausible version_from version_to g (S idx) fs' st'
      end
  end.

Fixpoint cleanup_groups (plausible : list Q -> bool * list bool)
    (version_from version_to : string) (terminate : nat -> bool) (i : nat)
    (gs : list Group) (st : Loop) : Exit Loop :=
  match gs with
  | [] => Done st
  | g :: gs' =>
      let st' := cleanup_fragments plausible version_from version_to g 0
                                   (fragments g) st in
      if terminate (S i) then Aborted st'
      else cleanup_groups plausible version_from version_to terminate (S i) gs' st'
  end.

(** [MDF.cleanup_timestamps]; the new file is made by [MDF(version=version)]
    and does not take over the configuration of [self]. *)
Definition cleanup_timestamps (self : MDF) (plausible : list Q -> bool * list bool)
    (version' : option string) (terminate : nat -> bool) : result MDF * MDF :=
  let version_to := match version' with
                    | None => version self
                    | Some v => validate_version_argument v
                    end in
  let out0 := mkMDF version_to [] (start_time self) true 0 1 ∅ ∅ in
  let self1 := set_copy_on_get false self in
  match cleanup_groups plausible (version self) version_to terminate 0
                       (groups self1) (mkLoop out0 0) with
  | Aborted _ => (ReturnNone, self1)
  | Done st => (Return (out st), set_copy_on_get true self1)
  end.

End Cleanup.

(** ** [MDF.concatenate] *)

Module Concatenate.
Import Engine.

(** The order of Python strings, and [sorted] on lists of names. *)
Definition str_le (a b : string) : Prop := String.leb a b = true.

#[global] Instance str_le_dec a b : Decision (str_le a b).
Proof. unfold str_le. apply _. Defined.

Definition py_sorted (l : list string) : list string := merge_sort str_le l.

(** [l.index(x)]; the length of [l] stands for "not found". *)
Fixpoint index_of (l : list string) (x : string) : nat :=
  match l with
  | [] => 0
  | y :: l' => if bool_decide (y = x) then 0 else S (index_of l' x)
  end.

(** The two errors that report files of different structure. *)
Definition different_groups_count : exn :=
  MdfException "internal structure of file is different; different channel groups count".

Definition different_channels (mdf_index : nat) : exn :=
  MdfException ("internal structure of file " ++ pretty mdf_index
                ++ " is different; different channels")%string.

Definition is_structural_mismatch (e : exn) : bool :=
  match e with
  | MdfException msg => String.prefix "internal structure of file" msg
  | _ => false
  end.

(** The keyword arguments of a call. *)
Record Params : Type := mkParams {
  p_sync : bool;
  p_add_samples_origin : bool;
  p_direct_timestamp_continuation : bool
}.

(** The local variables that live across files. [clock] counts the
    iterations over virtual groups that are over; it is the first argument
    the progress callback is given. *)
Record St : Type := mkSt {
  merged : MDF;
  last_timestamps : list (option Q);
  groups_nr : nat;
  included_channel_names : list (list string);
  cg_map : gmap nat nat;
  clock : nat
}.

(** The local variables that live across the fragments of a group. *)
Record Loop : Type := mkLoop {
  l_merged : MDF;
  l_last_timestamp : option Q;
  l_cg_map : gmap nat nat
}.

(** [new_signals[new_index] = sig] for the pairs of [zip(remap, signals)],
    starting from [[None for _ in signals]]. *)
Fixpoint place {A : Type} (shift : nat) (pairs : list (nat * A))
    (acc : list (option A)) : exn + list (option A) :=
  match pairs with
  | [] => inr acc
  | (new_index, x) :: pairs' =>
      if (new_index + shift <? length acc)%nat
      then place shift pairs' (<[new_index + shift := Some x]> acc)
      else inl IndexError
  end.

(** The list after the remap, or the error the first use of a [None] entry
    ends in. *)
Definition settled {A : Type} (e : exn) (l : exn + list (option A)) : exn + list A :=
  match l with
  | inl e' => inl e'
  | inr l' => match mapM id l' with
              | Some l'' => inr l''
              | None => inl e
              end
  end.

(** The signal that tells which file a sample comes from. *)
Definition origin_samples (n mdf_index : nat) : list Q :=
  replicate n (inject_Z (Z.of_nat mdf_index)).

(** [master] moved behind [last_timestamp] when it does not start after it
    (or always, with [direct_timestamp_continuation]). *)
Definition continue_master (direct : bool) (last_timestamp : Q) (master' : list Q)
  : list Q :=
  if Qleb (first_of master') last_timestamp || direct then
    let delta := match master' with
                 | m0 :: m1 :: _ => (m1 - m0)%Q
                 | _ => 0.001%Q
                 end in
    map (fun t => (t - first_of master' + (last_timestamp + delta))%Q) master'
  else master'.

(** The body of the loop over the fragments of group [group_index] of file
    [mdf_index]. [remap] is [None] unless the channel order differs;
    [ogroup_has] tells whether the channel groups of the file have the
    attribute [acq_name]. *)
Definition cat_fragment (p : Params) (ogroup_has : bool) (mdf_index : nat)
    (offset : Q)
    (remap : option (list nat)) (group_index : nat) (g : Group)
    (idx : nat) (f : Fragment) (st : Loop) : exn + Ctl * Loop :=
  match idx, first_yield g f with
  | O, [] => inr (Break, st)
  | _, sigs =>
      match mdf_index, idx, sigs with
      | O, O, first_signal :: _ =>
          let shifted := map (fun t => (t + offset)%Q) (timestamps first_signal) in
          let signals1 :=
            if (0 <? Sig.len first_signal)%nat && Qltb 0 offset
            then map (Sig.set_timestamps shifted) sigs else sigs in
          let first_timestamps :=
            if (0 <? Sig.len first_signal)%nat && Qltb 0 offset
            then shifted else timestamps first_signal in
          let last_timestamp :=
            if (0 <? Sig.len first_signal)%nat
            then Some (last_of first_timestamps) else l_last_timestamp st in
          let signals2 :=
            if p_add_samples_origin p
            then signals1
                 ++ [mkSignal "__samples_origin" KInt
                              (origin_samples (Sig.len first_signal) mdf_index)
                              first_timestamps None]
            else signals1 in
          let '(o, nr) := append signals2 "" "" (l_merged st) in
          inr (Next, mkLoop (transfer_channel_group_data (has_acq_name o)
                                                         ogroup_has nr g o)
                            last_timestamp
                            (<[group_index := nr]> (l_cg_map st)))
      | _, _, _ =>
          let columns : exn + list Column :=
            match idx with
            | O =>
                let signals1 : exn + list Signal :=
                  match remap with
                  | None => inr sigs
                  | Some r =>
                      settled AttributeError
                              (place 0 (zip r sigs) (replicate (length sigs) None))
                  end in
                match signals1 with
                | inl e => inl e
                | inr [] => inl IndexError
                | inr ((s0 :: _) as signals2) =>
                    inr ((timestamps s0, None) :: map Sig.column signals2)
                end
            | S _ =>
                match remap with
                | None => inr (next_yield f)
                | Some r =>
                    settled TypeError
                            (place 1 (zip r (cols f))
                                   (<[0 := Some (master f, None)]>
                                      (replicate (S (length (cols f))) None)))
                end
            end in
          match columns with
          | inl e => inl e
          | inr [] => inl IndexError
          | inr ((master0, _) :: columns') =>
              match master0 with
              | [] => inr (Next, st)
              | _ :: _ =>
                  let master1 :=
                    if Qltb 0 offset then map (fun t => (t + offset)%Q) master0
                    else master0 in
                  let master2 :=
                    match l_last_timestamp st with
                    | None => master1
                    | Some last_timestamp =>
                        continue_master (p_direct_timestamp_continuation p)
                                        last_timestamp master1
                    end in
                  let signals2 :=
                    if p_add_samples_origin p
                    then (master2, None) :: columns'
                         ++ [(origin_samples (length master2) mdf_index, None)]
                    else (master2, None) :: columns' in
                  match l_cg_map st !! group_index with
                  | None => inl KeyError
                  | Some nr =>
                      inr (Next, mkLoop (extend nr signals2 (l_merged st))
                                        (Some (last_of master2)) (l_cg_map st))
                  end
              end
          end
      end
  end.

Fixpoint cat_fragments (p : Params) (ogroup_has : bool) (mdf_index : nat)
    (offset : Q)
    (remap : option (list nat)) (group_index : nat) (g : Group)
    (idx : nat) (fs : list Fragment) (st : Loop) : exn + Loop :=
  match fs with
  | [] => inr st
  | f :: fs' =>
      match cat_fragment p ogroup_has mdf_index offset remap group_index g idx f
                         st with
      | inl e => inl e
      | inr (Break, st') => inr st'
      | inr (Next, st') =>
          cat_fragments p ogroup_has mdf_index offset remap group_index g (S idx)
                        fs' st'
      end
  end.

(** The comparison of the channel names of group [i] with those of the
    first file: [None] when they are the same list, a remap when they are
    the same names in another order, an error otherwise. *)
Definition check_names (mdf_index : nat) (names original_names : list string)
  : exn + option (list nat) :=
  if bool_decide (names = original_names) then inr None
  else if bool_decide (py_sorted names = py_sorted original_names)
       then inr (Some (map (index_of original_names) names))
       else inl (different_channels mdf_index).

(** The body of the loop over the virtual groups of file [mdf_index]. As in
    [cut], [included_channels] is not empty and a group without included
    channels ends its loop over the fragments at the first, empty, item. *)
Definition cat_group (p : Params) (ogroup_has : bool) (mdf_index : nat)
    (offset : Q) (i : nat) (g : Group) (st : St) : exn + St :=
  let names := map ch_name (channels g) in
  let checked : exn + (option (list nat) * list (list string)) :=
    match mdf_index with
    | O => inr (None, included_channel_names st ++ [names])
    | S _ =>
        match check_names mdf_index names
                          (default [] (included_channel_names st !! i)) with
        | inl e => inl e
        | inr remap => inr (remap, included_channel_names st)
        end
    end in
  match checked with
  | inl e => inl e
  | inr (remap, all_names) =>
      match cat_fragments p ogroup_has mdf_index offset remap i g 0
                          (fragments g)
                          (mkLoop (merged st)
                                  (default None (last_timestamps st !! i))
                                  (cg_map st)) with
      | inl e => inl e
      | inr l =>
          inr (mkSt (l_merged l)
                    (<[i := l_last_timestamp l]> (last_timestamps st))
                    (groups_nr st) all_names (l_cg_map l) (S (clock st)))
      end
  end.

Fixpoint cat_groups (p : Params) (ogroup_has : bool) (mdf_index : nat)
    (offset : Q) (i : nat) (gs : list Group) (st : St) : exn + St :=
  match gs with
  | [] => inr st
  | g :: gs' =>
      match cat_group p ogroup_has mdf_index offset i g st with
      | inl e => inl e
      | inr st' => cat_groups p ogroup_has mdf_index offset (S i) gs' st'
      end
  end.

(** One file: the outcome and the file after it. [copy_on_get] is switched
    off before the groups are compared and switched on again after the last
    group. *)
Definition cat_file (p : Params) (mdf_index : nat) (offset : Q) (mdf : MDF)
    (st : St) : (exn + St) * MDF :=
  let mdf1 := set_copy_on_get false mdf in
  let st1 : exn + St :=
    match mdf_index with
    | O => inr (mkSt (merged st) (replicate (length (groups mdf1)) None)
                     (length (groups mdf1)) (included_channel_names st)
                     (cg_map st) (clock st))
    | S _ =>
        if bool_decide (length (groups mdf1) = groups_nr st) then inr st
        else inl different_groups_count
    end in
  match st1 with
  | inl e => (inl e, mdf1)
  | inr st2 =>
      match cat_groups p (has_acq_name mdf1) mdf_index offset 0 (groups mdf1)
                       st2 with
      | inl e => (inl e, mdf1)
      | inr st3 => (inr st3, set_copy_on_get true mdf1)
      end
  end.

(** How the loop over the files ends. *)
Inductive Outcome : Type :=
| Finished (st : St)
| Terminated (st : St)
| Failed (e : exn).

(** The loop over [zip(offsets, files)]; the terminate flag is looked at
    after every file. The files are given back as the call leaves them. *)
Fixpoint cat_files (p : Params) (terminate : nat -> bool) (mdf_index : nat)
    (files : list (Q * MDF)) (st : St) : Outcome * list MDF :=
  match files with
  | [] => (Finished st, [])
  | (offset, mdf) :: files' =>
      match cat_file p mdf_index offset mdf st with
      | (inl e, mdf') => (Failed e, mdf' :: map snd files')
      | (inr st', mdf') =>
          if terminate (clock st') then (Terminated st', mdf' :: map snd files')
          else
            let '(r, rest) := cat_files p terminate (S mdf_index) files' st' in
            (r, mdf' :: rest)
      end
  end.

(** The time shift of every file: with [sync] the distance of its start
    time to the oldest one, else none. *)
Definition offsets (sync : bool) (files : list MDF) : list Q :=
  if sync then
    let oldest := amin (map start_time files) in
    map (fun m => let offset := (start_time m - oldest)%Q in
                  if Qltb 0 offset then offset else 0%Q) files
  else map (fun _ => 0%Q) files.

Definition oldest (sync : bool) (files : list MDF) : Q :=
  if sync then amin (map start_time files)
  else match files with
       | m :: _ => start_time m
       | [] => 0%Q
       end.

(** [MDF.concatenate] on a list of [MDF] instances: the result of the call
    and the files after it. *)
Definition concatenate (files : list MDF) (version' : string) (p : Params)
    (terminate : nat -> bool) : result MDF * list MDF :=
  match files with
  | [] => (Raise (MdfException "No files given for merge"), [])
  | mdf0 :: _ =>
      let merged0 :=
        set_start_time (oldest (p_sync p) files)
                       (new_from (validate_version_argument version') mdf0) in
      match cat_files p terminate 0 (zip (offsets (p_sync p) files) files)
                      (mkSt merged0 [] 0 [] ∅ 0) with
      | (Finished st, files') => (Return (merged st), files')
      | (Terminated _, files') => (ReturnNone, files')
      | (Failed e, files') => (Raise e, files')
      end
  end.

End Concatenate.

(** ** [MDF.stack] *)

Module Stack.
Import Engine.

(** The local variables that live across files; [clock] counts the
    iterations over virtual groups that are over. *)
Record St : Type := mkSt {
  stacked : MDF;
  clock : nat
}.

Record Loop : Type := mkLoop {
  l_stacked : MDF;
  dg_cntr : option nat
}.

(** The body of the loop over the fragments of a group; [ogroup_has] tells
    whether the channel groups of the file have the attribute
    [acq_name]. *)
Definition stack_fragment (sync : bool) (ogroup_has : bool) (offset : Q)
    (g : Group) (idx : nat) (f : Fragment) (st : Loop) : Ctl * Loop :=
  match idx with
  | O =>
      match first_yield g f with
      | [] => (Break, st)
      | (s0 :: _) as sigs =>
          let signals1 :=
            if sync
            then map (Sig.set_timestamps
                        (map (fun t => (t + offset)%Q) (timestamps s0))) sigs
            else sigs in
          let '(o, nr) := append signals1 "" "" (l_stacked st) in
          (Next, mkLoop (transfer_channel_group_data (has_acq_name o) ogroup_has
                                                     nr g o) (Some nr))
      end
  | S _ =>
      let master1 :=
        if sync then map (fun t => (t + offset)%Q) (master f) else master f in
      match dg_cntr st with
      | Some nr =>
          (Next, mkLoop (extend nr ((master1, None) :: cols f) (l_stacked st))
                        (dg_cntr st))
      | None => (Next, st)
      end
  end.

Fixpoint stack_fragments (sync : bool) (ogroup_has : bool) (offset : Q)
    (g : Group) (idx : nat) (fs : list Fragment) (st : Loop) : Loop :=
  match fs with
  | [] => st
  | f :: fs' =>
      match stack_fragment sync ogroup_has offset g idx f st with
      | (Break, st') => st'
      | (Next, st') => stack_fragments sync ogroup_has offset g (S idx) fs' st'
      end
  end.

(** The double quote character. *)
Definition dquote : string :=
  String (Ascii.Ascii false true false false false true false false) EmptyString.

(** [f'stacked from channel group {i} of "{mdf.name.parent}"'], [parent]
    being the text of [mdf.name.parent]. *)
Definition stacked_comment (i : nat) (parent : string) : string :=
  ("stacked from channel group " ++ pretty i ++ " of " ++ dquote ++ parent
   ++ dquote)%string.

(** [stacked.groups[index].channel_group.comment = ...] for the groups from
    [dg_cntr] on. *)
Definition set_comments (parent : string) (i from : nat) (out : MDF) : MDF :=
  set_groups
    (imap (fun index g =>
             if (from <=? index)%nat
             then mkGroup (channels g) (fragments g) (stacked_comment i parent)
                          (acq_name g)
             else g)
          (groups out))
    out.

(** The body of the loop over the virtual groups of a file; [parent] is
    the text of [mdf.name.parent]. As in [cut], [included_channels] is not
    empty and a group without included channels ends its loop over the
    fragments at the first, empty, item. *)
Definition stack_group (sync : bool) (ogroup_has : bool) (parent : string)
    (offset : Q) (i : nat) (g : Group) (st : St) : St :=
  let l := stack_fragments sync ogroup_has offset g 0 (fragments g)
                           (mkLoop (stacked st) None) in
  match dg_cntr l with
  | Some nr => mkSt (set_comments parent i nr (l_stacked l)) (S (clock st))
  | None => mkSt (l_stacked l) (S (clock st))
  end.

Fixpoint stack_groups (sync : bool) (ogroup_has : bool) (parent : string)
    (offset : Q) (i : nat) (gs : list Group) (st : St) : St :=
  match gs with
  | [] => st
  | g :: gs' =>
      stack_groups sync ogroup_has parent offset (S i) gs'
                   (stack_group sync ogroup_has parent offset i g st)
  end.

(** The loop over [zip(offsets, files)]; the terminate flag is looked at
    after every file, once [copy_on_get] is switched on again.
    [parent_of k] is the text of [mdf.name.parent] for the file at position
    [k] of the list. *)
Fixpoint stack_files (sync : bool) (parent_of : nat -> string)
    (terminate : nat -> bool) (mdf_index : nat)
    (files : list (Q * MDF)) (st : St) : Exit St * list MDF :=
  match files with
  | [] => (Done st, [])
  | (offset, mdf) :: files' =>
      let mdf1 := set_copy_on_get false mdf in
      let st' := stack_groups sync (has_acq_name mdf1) (parent_of mdf_index)
                              offset 0 (groups mdf1) st in
      let mdf2 := set_copy_on_get true mdf1 in
      if terminate (clock st') then (Aborted st', mdf2 :: map snd files')
      else
        let '(r, rest) := stack_files sync parent_of terminate (S mdf_index)
                                      files' st' in
        (r, mdf2 :: rest)
  end.

Definition offsets (sync : bool) (files : list MDF) : list Q :=
  if sync then
    let oldest := amin (map start_time files) in
    map (fun m => (start_time m - oldest)%Q) files
  else map (fun _ => 0%Q) files.

(** [MDF.stack] on a list of [MDF] instances. *)
Definition stack (parent_of : nat -> string) (files : list MDF)
    (version' : string) (sync : bool) (terminate : nat -> bool)
  : result MDF * list MDF :=
  match files with
  | [] => (Raise (MdfException "No files given for stack"), [])
  | mdf0 :: _ =>
      let stacked0 :=
        set_start_time (if sync then amin (map start_time files)
                        else start_time mdf0)
                       (new_from (validate_version_argument version') mdf0) in
      match stack_files sync parent_of terminate 0
                        (zip (offsets sync files) files) (mkSt stacked0 0) with
      | (Done st, files') => (Return (stacked st), files')
      | (Aborted _, files') => (ReturnNone, files')
      end
  end.

End Stack.

(** ** [MDF.select] and [MDF.resample] *)

Module Resample.
Import Engine.

(** The [raster] argument: a float step, the name of a channel, or an
    array ([np.ndarray]) of time stamps. *)
Inductive Raster : Type :=
| RasterStep (step : Q)
| RasterName (channel : string)
| RasterArray (array : list Q).

(** The invalidation bits of a channel over all fragments; they are there
    when the first fragment has them. *)
Definition channel_invalidation (g : Group) (k : nat) : option (list bool) :=
  match fragments g with
  | [] => None
  | f0 :: _ =>
      match (nth k (cols f0) ([], None)).2 with
      | None => None
      | Some _ =>
          Some (concat (map (fun f => default [] (nth k (cols f) ([], None)).2)
                            (fragments g)))
      end
  end.

(** The signal [select] assembles for the channel at position [k] of a
    group: the fragments are written one behind the other into arrays of
    [cycles_nr] entries. *)
Definition assemble (g : Group) (k : nat) (ch : Channel) : Signal :=
  mkSignal (ch_name ch) (ch_kind ch) (channel_samples g k) (group_timestamps g)
           (channel_invalidation g k).

(** [MDF.select(channels, raw=True)] for items of the form
    [(None, gp_index, ch_index)]; an item without channel raises. *)
Definition select (self : MDF) (items : list (nat * nat)) : exn + list Signal :=
  match mapM (fun '(gp_index, ch_index) =>
                g ← groups self !! gp_index;
                ch ← channels g !! ch_index;
                Some (assemble g ch_index ch)) items with
  | Some sigs => inr sigs
  | None => inl (MdfException "Channel not found")
  end.

(** Modelled from the spec: [get] is defined in the version-specific
    engines. [self.get(name).timestamps] are the time stamps of the group of
    the first occurrence of the name. *)
Definition get_timestamps (self : MDF) (channel : string) : exn + list Q :=
  match channels_db self !! channel with
  | Some ((gp_index, _) :: _) =>
      match groups self !! gp_index with
      | Some g => inr (group_timestamps g)
      | None => inl (MdfException "Channel not found")
      end
  | _ => inl (MdfException "Channel not found")
  end.

(** The raster the method works with. [float_of_str] stands for Python's
    [float] on strings ([None] when it raises [ValueError]) and
    [master_using_raster] for the function of that name in [utils.py].
    [float(raster)] is tried on every raster: on an array it gives the
    entry of an array of one entry and raises [TypeError] for any other
    size. *)
Definition resolve_raster (float_of_str : string -> option Q)
    (master_using_raster : MDF -> Q -> list Q) (self : MDF) (raster : Raster)
  : exn + list Q :=
  let as_float : option Q :=
    match raster with
    | RasterStep step => Some step
    | RasterName channel => float_of_str channel
    | RasterArray [x] => Some x
    | RasterArray _ => None
    end in
  match as_float with
  | Some step =>
      if Qltb 0 step then inr (master_using_raster self step)
      else inl AssertionError
  | None =>
      match raster with
      | RasterName channel => get_timestamps self channel
      | RasterArray array => inr array
      | RasterStep step => inr []
      end
  end.

Record Loop : Type := mkLoop {
  out : MDF
}.

(** The body of the loop over the virtual groups. *)
Definition resample_group (self : MDF) (raster : list Q) (new_raster : option (list Q))
    (group_index : nat) (g : Group) (st : Loop) : exn + Loop :=
  let items := imap (fun ch_index _ => (group_index, ch_index)) (channels g) in
  match select self items with
  | inl e => inl e
  | inr sigs =>
      let sigs1 :=
        map (fun sig => Sig.interp sig raster (integer_interpolation self)
                                   (float_interpolation self)) sigs in
      let sigs2 :=
        match new_raster with
        | Some r =>
            map (fun sig => if (0 <? Sig.len sig)%nat
                            then Sig.set_timestamps r sig else sig) sigs1
        | None => sigs1
        end in
      let '(o, nr) := append sigs2 (comment g) "" (out st) in
      inr (mkLoop (transfer_channel_group_data (has_acq_name o)
                                               (has_acq_name self) nr g o))
  end.

(** How the loop over the groups ends. *)
Inductive Outcome : Type :=
| Finished (st : Loop)
| Terminated (st : Loop)
| Failed (e : exn).

Fixpoint resample_groups (self : MDF) (raster : list Q)
    (new_raster : option (list Q)) (terminate : nat -> bool) (i : nat)
    (gs : list Group) (st : Loop) : Outcome :=
  match gs with
  | [] => Finished st
  | g :: gs' =>
      match resample_group self raster new_raster i g st with
      | inl e => Failed e
      | inr st' =>
          if terminate (S i) then Terminated st'
          else resample_groups self raster new_raster terminate (S i) gs' st'
      end
  end.

(** [MDF.resample]. The method does not assign [copy_on_get]. *)
Definition resample (float_of_str : string -> option Q)
    (master_using_raster : MDF -> Q -> list Q)
    (self : MDF) (raster : Raster) (version' : option string)
    (time_from_zero : bool) (terminate : nat -> bool) : result MDF :=
  let version := match version' with
                 | None => version self
                 | Some v => validate_version_argument v
                 end in
  let mdf0 := set_start_time (start_time self) (new_from version self) in
  match resolve_raster float_of_str master_using_raster self raster with
  | inl e => Raise e
  | inr raster' =>
      let '(new_raster, mdf1) :=
        match time_from_zero, raster' with
        | true, r0 :: _ =>
            (Some (map (fun t => (t - r0)%Q) raster'),
             set_start_time (start_time self + r0)%Q mdf0)
        | _, _ => (None, set_start_time (start_time self) mdf0)
        end in
      match resample_groups self raster' new_raster terminate 0 (groups self)
                            (mkLoop mdf1) with
      | Finished st => Return (out st)
      | Terminated _ => ReturnNone
      | Failed e => Raise e
      end
  end.

(** The time stamps of the channel at position [ch_index] of group
    [gp_index] of a file. *)
Definition channel_timestamps (m : MDF) (gp_index ch_index : nat) : option (list Q) :=
  g ← groups m !! gp_index;
  _ ← channels g !! ch_index;
  Some (group_timestamps g).

End Resample.

(** ** The summary of [_extract_can_logging] *)

Module BusLogging.

Local Open Scope Z_scope.

(** One raw bus-frame record: [CAN_DataFrame.BusChannel] and
    [CAN_DataFrame.ID]. *)
Record CanFrame : Type := mkCanFrame {
  bus_channel : Z;
  frame_id : Z
}.

(** A group of the file, as far as the extraction looks at it. *)
Record BusGroup : Type := mkBusGroup {
  bus_event : bool;        (* flags & FLAG_CG_BUS_EVENT *)
  bus_type_can : bool;     (* acq_source.bus_type == BUS_TYPE_CAN *)
  has_data_frame : bool;   (* "CAN_DataFrame" in the channel names *)
  bus_fragments : list (list CanFrame)
}.

(** A message of the catalog: [arbitration_id.id], [arbitration_id.pgn]
    and [name]. *)
Record Message : Type := mkMessage {
  arbitration_id : Z;
  pgn : Z;
  message_name : string
}.

(** The catalog interface: [contains_j1939] and the messages. *)
Record Dbc : Type := mkDbc {
  contains_j1939 : bool;
  dbc_messages : list Message
}.

(** The local variables of the extraction the summary is made of:
    [total_unique_ids] (a set), [found_ids] (a [defaultdict(set)]),
    [not_found_ids], [unknown_ids] (a [defaultdict(list)] of flags, before
    it is turned into a set) and [current_not_found_ids]. *)
Record State : Type := mkState {
  total_unique_ids : gset (Z * Z);
  found_ids : gmap string (gset (Z * string));
  not_found_ids : gmap string (gset (Z * string));
  unknown_flags : gmap Z (list bool);
  current_not_found_ids : gset (Z * string)
}.

Definition initial : State := mkState ∅ ∅ ∅ ∅ ∅.

(** [{message.arbitration_id.pgn: message for message in dbc}] (or [.id]):
    a later message replaces an earlier one with the same key. *)
Definition messages_of (dbc : Dbc) : gmap Z Message :=
  foldl (fun m msg =>
           <[(if contains_j1939 dbc then pgn msg else arbitration_id msg) := msg]> m)
        ∅ (dbc_messages dbc).

(** [.astype("<u4") & 0x1FFFFFFF] *)
Definition original_id (raw : Z) : Z := Z.land (raw mod 2 ^ 32) 0x1FFFFFFF.

(** The identifier a frame is looked up with: the identifier itself, or
    the PGN it folds to when the catalog is a J1939 one. *)
Definition msg_id_of (is_j1939 : bool) (raw : Z) : Z :=
  let id := original_id raw in
  if is_j1939 then
    let tmp_pgn := Z.shiftr id 8 in
    let ps := Z.land tmp_pgn 0xFF in
    let pf := Z.land (Z.shiftr id 16) 0xFF in
    let _pgn := Z.land tmp_pgn 0x3FF00 in
    if 240 <=? pf then _pgn + ps else _pgn
  else id.

Definition pair_le (a b : Z * Z) : Prop :=
  a.1 < b.1 \/ (a.1 = b.1 /\ a.2 <= b.2).

#[global] Instance pair_le_dec a b : Decision (pair_le a b).
Proof. unfold pair_le. apply _. Defined.

(** [np.unique]: the distinct entries, in increasing order. *)
Definition unique_Z (l : list Z) : list Z := merge_sort Z.le (remove_dups l).
Definition unique_pairs (l : list (Z * Z)) : list (Z * Z) :=
  merge_sort pair_le (remove_dups l).

(** [unknown_ids[msg_id].append(flag)] on the [defaultdict(list)]. *)
Definition note (msg_id : Z) (flag : bool) (m : gmap Z (list bool))
  : gmap Z (list bool) :=
  <[msg_id := default [] (m !! msg_id) ++ [flag]]> m.

(** The body of the loop over the records of [unique_ids]. *)
Definition visit (messages : gmap Z Message) (dbc_name : string)
    (record : Z * Z) (s : State) : State :=
  let msg_id := record.1 in
  match messages !! msg_id with
  | None =>
      mkState (total_unique_ids s) (found_ids s) (not_found_ids s)
              (note msg_id true (unknown_flags s)) (current_not_found_ids s)
  | Some message =>
      mkState (total_unique_ids s)
              (<[dbc_name := default ∅ (found_ids s !! dbc_name)
                             ∪ {[(msg_id, message_name message)]}]> (found_ids s))
              (not_found_ids s)
              (note msg_id false (unknown_flags s))
              (current_not_found_ids s ∖ {[(msg_id, message_name message)]})
  end.

(** The body of the loop over the buses seen in a fragment. *)
Definition visit_bus (messages : gmap Z Message) (is_j1939 consolidated_j1939 : bool)
    (dbc_name : string) (bus_filter : Z) (fragment : list CanFrame)
    (bus : Z) (s : State) : State :=
  if negb (bus_filter =? 0) && negb (bus =? bus_filter) then s
  else
    let on_bus := List.filter (fun fr => (bus_channel fr mod 256) =? bus) fragment in
    let records :=
      map (fun fr =>
             if is_j1939 && negb consolidated_j1939
             then (msg_id_of is_j1939 (frame_id fr), original_id (frame_id fr))
             else (msg_id_of is_j1939 (frame_id fr), msg_id_of is_j1939 (frame_id fr)))
          on_bus in
    let unique_ids := unique_pairs records in
    let s1 := mkState (total_unique_ids s ∪ list_to_set unique_ids)
                      (found_ids s) (not_found_ids s) (unknown_flags s)
                      (current_not_found_ids s) in
    foldl (fun acc record => visit messages dbc_name record acc) s1 unique_ids.

Definition visit_fragment (messages : gmap Z Message)
    (is_j1939 consolidated_j1939 : bool) (dbc_name : string) (bus_filter : Z)
    (s : State) (fragment : list CanFrame) : State :=
  let buses := unique_Z (map (fun fr => bus_channel fr mod 256) fragment) in
  foldl (fun acc bus =>
           visit_bus messages is_j1939 consolidated_j1939 dbc_name bus_filter
                     fragment bus acc)
        s buses.

Definition visit_group (messages : gmap Z Message)
    (is_j1939 consolidated_j1939 : bool) (dbc_name : string) (bus_filter : Z)
    (s : State) (g : BusGroup) : State :=
  if negb (bus_event g) || negb (bus_type_can g) || negb (has_data_frame g)
  then s
  else foldl (visit_fragment messages is_j1939 consolidated_j1939 dbc_name
                             bus_filter)
             s (bus_fragments g).

(** The body of the loop over the valid catalogs
    [(dbc, dbc_name, bus_channel)]. The messages that stay in
    [current_not_found_ids] are stored when there are any. *)
Definition visit_dbc (file : list BusGroup) (consolidated_j1939 : bool)
    (s : State) (entry : Dbc * string * Z) : State :=
  let '(dbc, dbc_name, bus_filter) := entry in
  let messages := messages_of dbc in
  let current : gset (Z * string) :=
    list_to_set (map (fun kv => (kv.1, message_name kv.2)) (map_to_list messages)) in
  let s0 := mkState (total_unique_ids s) (found_ids s) (not_found_ids s)
                    (unknown_flags s) current in
  let s1 := foldl (visit_group messages (contains_j1939 dbc) consolidated_j1939
                               dbc_name bus_filter) s0 file in
  if bool_decide (current_not_found_ids s1 = ∅) then s1
  else mkState (total_unique_ids s1) (found_ids s1)
               (<[dbc_name := current_not_found_ids s1]> (not_found_ids s1))
               (unknown_flags s1) (current_not_found_ids s1).

(** The bookkeeping of [_extract_can_logging] over all valid catalogs. *)
Definition extract_can_summary (file : list BusGroup)
    (valid_dbc_files : list (Dbc * string * Z)) (consolidated_j1939 : bool)
  : State :=
  foldl (visit_dbc file consolidated_j1939) initial valid_dbc_files.

(** [{msg_id for msg_id, not_found in unknown_ids.items() if all(not_found)}] *)
Definition unknown_ids (s : State) : gset Z :=
  dom (filter (fun kv => forallb id kv.2 = true) (unknown_flags s)).

(** [len(unknown_ids)], stored as ["unknown_id_count"]. *)
Definition unknown_id_count (s : State) : nat := size (unknown_ids s).

(** [sum(len(e) for e in found_ids.values())], the number of identifiers
    the summary reports as matched. *)
Definition found_id_count (s : State) : nat :=
  map_fold (fun _ e acc => (size e + acc)%nat) 0%nat (found_ids s).

End BusLogging.

(** ** Sample files *)

Module Samples.

(** A fragment with the given time stamps and one float channel whose
    samples are ten times the time stamps. *)
Definition fragment_at (ts : list Q) : Fragment :=
  mkFragment ts [(map (fun t => (t * 10)%Q) ts, None)].

Definition group_of_fragments (fs : list Fragment) : Group :=
  mkGroup [mkChannel "a" KFloat] fs "" "".

Definition file_of (gs : list Group) : MDF :=
  mkMDF "4.10" gs 0%Q true 0 1 ∅ ∅.

(** One group read in two fragments, with the gap between 2 and 5 at the
    fragment boundary. *)
Definition two_fragments : MDF :=
  file_of [group_of_fragments [fragment_at [0; 1; 2]; fragment_at [5; 6; 7]]%Q].

(** One group read in one fragment. *)
Definition one_fragment : MDF :=
  file_of [group_of_fragments [fragment_at [0; 1; 2]]%Q].








(** A file whose first timestamp is not zero. *)
Definition starts_at_ten : MDF :=
  file_of [group_of_fragments [fragment_at [10; 11; 12; 13; 14]]%Q].

(** A file with two groups and a file whose first group has no included
    channels. *)
Definition two_groups : MDF :=
  file_of [group_of_fragments [fragment_at [0; 1]%Q];
           group_of_fragments [fragment_at [0; 1]%Q]].

Definition masters_only : MDF :=
  file_of [mkGroup [] [mkFragment [0; 1]%Q []] "" "";
           group_of_fragments [fragment_at [0; 1]%Q]].

(** The terminate flag that is never set, and the flag that is set from
    the start. *)
Definition never : nat -> bool := fun _ => false.
Definition always : nat -> bool := fun _ => true.

End Samples.

(** ** [MDF.__lt__] *)

Module Order.
Import Engine.



End Order.

(** ** The selection list of the search dialog *)

Module AdvancedSearch.
Import Concatenate.

(** [set(self.selection.item(i).text() for i in range(count))] *)
Definition names_of (selection : list string) : gset string :=
  list_to_set selection.

(** [sorted(names)] on a set of names. *)
Definition sorted_names (names : gset string) : list string :=
  py_sorted (elements names).

(** [_match_double_clicked]: the items of the selection list after a
    double click on the match [new_name]. *)
Definition _match_double_clicked (selection : list string) (new_name : string)
  : list string :=
  let names := names_of selection in
  let names' :=
    if bool_decide (new_name ∈ names) then names else names ∪ {[new_name]} in
  sorted_names names'.

(** [_selection_double_clicked]: [names.remove(name)] raises [KeyError] for
    a name that is not in the set; the selection list is then left as it
    was. *)
Definition _selection_double_clicked (selection : list string) (name : string)
  : exn + list string :=
  let names := names_of selection in
  if bool_decide (name ∈ names) then inr (sorted_names (names ∖ {[name]}))
  else inl KeyError.

End AdvancedSearch.

(** * Properties *)

(** ** [whereis] *)

Module WhereIsFacts.
Import WhereIs.

Lemma whereis_frame self channel sn sp an :
  (whereis self channel sn sp an).2 = self.
Proof.
  unfold whereis, dict_getitem.
  destruct (channels_db self !! channel); destruct self; reflexivity.
Qed.

Lemma contains_spec self channel :
  contains self channel = true <-> is_Some (channels_db self !! channel).
Proof.
  unfold contains, dict_contains. apply bool_decide_eq_true.
Qed.

(** C10: a name that is not in [channels_db] gives the empty tuple (no
    [KeyError] escapes, [whereis] has a value for every input); a name that
    is present gives exactly its occurrences that pass the optional source
    and acquisition filters, in index order; and the instance, with its
    index, is the same after the call as before. *)
Theorem whereis_total_and_pure :
  forall (self : MDF) (channel : string) (sn sp an : option string),
    (contains self channel = false ->
       (whereis self channel sn sp an).1 = [])
    /\ (forall occurrences,
          channels_db self !! channel = Some occurrences ->
          (whereis self channel sn sp an).1
          = List.filter (passes self sn sp an) occurrences)
    /\ (whereis self channel sn sp an).2 = self
    /\ channels_db (whereis self channel sn sp an).2 = channels_db self.
Proof.
  intros self channel sn sp an.
  split; [|split; [|split]].
  - intros Hc. unfold contains, dict_contains in Hc.
    apply bool_decide_eq_false in Hc.
    unfold whereis, dict_getitem.
    destruct (channels_db self !! channel) eqn:E; [|reflexivity].
    exfalso. apply Hc. eauto.
  - intros occ Hocc. unfold whereis, dict_getitem. rewrite Hocc.
    destruct self; reflexivity.
  - apply whereis_frame.
  - now rewrite whereis_frame.
Qed.

End WhereIsFacts.

(** ** Comparisons and arrays *)

Module ArrayFacts.

Lemma Qleb_le x y : Qleb x y = true <-> (x <= y)%Q.
Proof. apply Qle_bool_iff. Qed.

Lemma Qleb_gt x y : Qleb x y = false <-> (y < x)%Q.
Proof.
  unfold Qleb. split; intros H.
  - apply Qnot_le_lt. intros Hle. apply Qle_bool_iff in Hle. congruence.
  - destruct (Qle_bool x y) eqn:E; [|reflexivity].
    apply Qle_bool_iff in E. lra.
Qed.

Lemma Qltb_lt x y : Qltb x y = true <-> (x < y)%Q.
Proof. unfold Qltb. rewrite negb_true_iff. apply Qleb_gt. Qed.

Lemma Qltb_ge x y : Qltb x y = false <-> (y <= x)%Q.
Proof. unfold Qltb. rewrite negb_false_iff. apply Qleb_le. Qed.

Lemma py_max_cases a b :
  (py_max a b = a /\ (b <= a)%Q) \/ (py_max a b = b /\ (a < b)%Q).
Proof.
  unfold py_max. destruct (Qltb a b) eqn:E.
  - right. split; [reflexivity|]. now apply Qltb_lt.
  - left. split; [reflexivity|]. now apply Qltb_ge.
Qed.

Lemma py_min_cases a b :
  (py_min a b = a /\ (a <= b)%Q) \/ (py_min a b = b /\ (b < a)%Q).
Proof.
  unfold py_min. destruct (Qltb b a) eqn:E.
  - right. split; [reflexivity|]. now apply Qltb_lt.
  - left. split; [reflexivity|]. now apply Qltb_ge.
Qed.

(** Monotonic non-decreasing arrays. *)
Definition sorted (a : list Q) : Prop := StronglySorted Qle a.

#[local] Instance Qle_transitive : Transitive Qle.
Proof. intros x y z. apply Qle_trans. Qed.

Lemma Sorted_sorted a : Sorted Qle a <-> sorted a.
Proof.
  split.
  - apply Sorted_StronglySorted. apply Qle_transitive.
  - apply StronglySorted_Sorted.
Qed.

Lemma sorted_cons x a :
  sorted (x :: a) <-> sorted a /\ Forall (Qle x) a.
Proof.
  unfold sorted. split.
  - intros H. inversion H; subst. auto.
  - intros [H1 H2]. now constructor.
Qed.

Lemma sorted_app a b :
  sorted (a ++ b) <->
  sorted a /\ sorted b /\ Forall (fun x => Forall (Qle x) b) a.
Proof.
  induction a as [|x a IH]; simpl.
  - split; [intros H; repeat split; [constructor | exact H | constructor]|tauto].
  - rewrite !sorted_cons, IH, Forall_app, Forall_cons. tauto.
Qed.

Lemma first_of_le a t : sorted a -> In t a -> (first_of a <= t)%Q.
Proof.
  intros Hs Hin. destruct a as [|x a]; [destruct Hin|].
  apply sorted_cons in Hs as [_ Hall]. simpl.
  destruct Hin as [->|Hin]; [lra|].
  rewrite Forall_forall in Hall. apply Hall. now apply list_elem_of_In.
Qed.

Lemma last_of_cons x y a : last_of (x :: y :: a) = last_of (y :: a).
Proof. reflexivity. Qed.

Lemma last_of_In a : a <> [] -> In (last_of a) a.
Proof.
  induction a as [|x [|y a] IH]; intros Hne; [congruence|now left|].
  rewrite last_of_cons. right. apply IH. discriminate.
Qed.

Lemma first_of_In a : a <> [] -> In (first_of a) a.
Proof. destruct a; [congruence|now left]. Qed.

Lemma last_of_ge a t : sorted a -> In t a -> (t <= last_of a)%Q.
Proof.
  induction a as [|x [|y a] IH]; intros Hs Hin; [destruct Hin| |].
  - destruct Hin as [->|[]]. unfold last_of. simpl. lra.
  - rewrite last_of_cons. apply sorted_cons in Hs as [Hs Hall].
    destruct Hin as [->|Hin].
    + rewrite Forall_forall in Hall.
      apply Hall, list_elem_of_In, last_of_In. discriminate.
    + now apply IH.
Qed.


(** [mask_select] with the mask of a predicate is [filter]. *)
Lemma mask_select_filter (p : Q -> bool) a :
  mask_select (map p a) a = List.filter p a.
Proof.
  induction a as [|x a IH]; simpl; [reflexivity|].
  destruct (p x); now rewrite IH.
Qed.

Lemma mask_select_length {A B : Type} (mask : list bool) (a : list A) (b : list B) :
  length a = length b ->
  length (mask_select mask a) = length (mask_select mask b).
Proof.
  revert a b. induction mask as [|m mask IH]; intros [|x a] [|y b] H;
    simpl in *; try reflexivity; try discriminate.
  destruct m; simpl; auto.
Qed.

Lemma mask_select_all {A : Type} (mask : list bool) (a : list A) :
  length mask = length a -> Forall (fun b => b = true) mask ->
  mask_select mask a = a.
Proof.
  revert a. induction mask as [|m mask IH]; intros [|x a] Hl Hall;
    simpl in *; try reflexivity; try discriminate.
  apply Forall_cons in Hall as [-> Hall]. f_equal. apply IH; [lia|assumption].
Qed.

Lemma mask_select_none {A : Type} (mask : list bool) (a : list A) :
  Forall (fun b => b = false) mask -> mask_select mask a = [].
Proof.
  revert a. induction mask as [|m mask IH]; intros [|x a] Hall;
    simpl in *; try reflexivity.
  apply Forall_cons in Hall as [-> Hall]. now apply IH.
Qed.

Lemma filter_sorted p a : sorted a -> sorted (List.filter p a).
Proof.
  induction a as [|x a IH]; simpl; intros Hs; [constructor|].
  apply sorted_cons in Hs as [Hs Hall].
  destruct (p x); [|now apply IH].
  apply sorted_cons. split; [now apply IH|].
  rewrite Forall_forall in *. intros y Hy.
  apply Hall. apply list_elem_of_In in Hy. apply filter_In in Hy as [Hy _].
  now apply list_elem_of_In.
Qed.

(** On a sorted array [searchsorted] reaches the end exactly when every
    entry is at most the value, and stays at the start exactly when the
    first entry is not below the value. *)
Lemma searchsorted_right_end a v :
  searchsorted_right a v = length a <-> Forall (fun t => (t <= v)%Q) a.
Proof.
  induction a as [|x a IH]; simpl.
  - split; [constructor|reflexivity].
  - destruct (Qleb x v) eqn:E.
    + apply Qleb_le in E. rewrite Forall_cons. split.
      * intros H. split; [assumption|]. apply IH. lia.
      * intros [_ H]. f_equal. now apply IH.
    + apply Qleb_gt in E. split; [discriminate|].
      intros H. apply Forall_cons in H as [H _]. lra.
Qed.

Lemma searchsorted_left_start x a v :
  searchsorted_left (x :: a) v = 0 <-> (v <= x)%Q.
Proof.
  simpl. destruct (Qltb x v) eqn:E.
  - apply Qltb_lt in E. split; [discriminate|lra].
  - apply Qltb_ge in E. tauto.
Qed.

End ArrayFacts.

(** ** [Signal.cut] *)

Module SigFacts.
Import ArrayFacts.

Lemma in_range_spec start stop t :
  Sig.in_range start stop t = true <->
  (forall s, start = Some s -> (s <= t)%Q) /\ (forall e, stop = Some e -> (t <= e)%Q).
Proof.
  unfold Sig.in_range. rewrite andb_true_iff.
  destruct start as [s|], stop as [e|]; rewrite ?Qleb_le; split.
  all: try (intros [H1 H2]; split; intros ? [= <-]; assumption).
  all: try (intros [H1 H2]; split; auto).
  all: try (intros [H1 H2]; split; [|intros ? [=]]; intros ? [= <-]; assumption).
  all: try (intros [H1 H2]; split; [intros ? [=]|]; intros ? [= <-]; assumption).
  all: try (intros _; split; intros ? [=]).
  all: try (intros _; split; reflexivity).
Qed.

Lemma in_range_weaken start stop start' stop' t :
  Sig.in_range start' stop' t = true ->
  (forall s, start = Some s -> exists s', start' = Some s' /\ (s <= s')%Q) ->
  (forall e, stop = Some e -> exists e', stop' = Some e' /\ (e' <= e)%Q) ->
  Sig.in_range start stop t = true.
Proof.
  rewrite !in_range_spec. intros [H1 H2] Hs He. split.
  - intros s Hs'. destruct (Hs s Hs') as (s' & E & Hle).
    specialize (H1 s' E). lra.
  - intros e He'. destruct (He e He') as (e' & E & Hle).
    specialize (H2 e' E). lra.
Qed.

Lemma cut_timestamps sig start stop ie im fm :
  timestamps (Sig.cut sig start stop ie im fm)
  = Sig.lead_bound (timestamps sig) start stop ie
    ++ List.filter (Sig.in_range start stop) (timestamps sig)
    ++ Sig.trail_bound (timestamps sig) start stop ie.
Proof. unfold Sig.cut. simpl. now rewrite mask_select_filter. Qed.

(** The bounds are ordered: [start <= stop] when both are given. *)
Definition bounds_ordered (start stop : option Q) : Prop :=
  forall s e, start = Some s -> stop = Some e -> (s <= e)%Q.

Lemma bounds_in_range start stop :
  bounds_ordered start stop ->
  (forall s, start = Some s -> Sig.in_range start stop s = true)
  /\ (forall e, stop = Some e -> Sig.in_range start stop e = true).
Proof.
  intros Ho. split.
  - intros s ->. apply in_range_spec. split.
    + intros s' [= <-]. lra.
    + intros e He. now apply Ho.
  - intros e ->. apply in_range_spec. split.
    + intros s Hs. now apply Ho.
    + intros e' [= <-]. lra.
Qed.

Lemma lead_bound_cases ts start stop ie :
  Sig.lead_bound ts start stop ie = []
  \/ exists s, start = Some s /\ Sig.lead_bound ts start stop ie = [s]
               /\ ie = true /\ Sig.inside_interval ts s = true.
Proof.
  unfold Sig.lead_bound. destruct start as [s|]; [|now left].
  destruct ie; simpl; [|now left].
  destruct (Sig.inside_interval ts s) eqn:E2; [|now left].
  right. exists s. auto.
Qed.

Lemma trail_bound_cases ts start stop ie :
  Sig.trail_bound ts start stop ie = []
  \/ exists e, stop = Some e /\ Sig.trail_bound ts start stop ie = [e]
               /\ ie = true /\ Sig.inside_interval ts e = true.
Proof.
  unfold Sig.trail_bound. destruct stop as [e|]; [|now left].
  destruct ie; simpl; [|now left].
  destruct (Sig.inside_interval ts e) eqn:E2; simpl; [|now left].
  destruct (existsb _ _); simpl; [now left|].
  right. exists e. auto.
Qed.

(** Every time stamp [cut] gives lies between ordered bounds. *)
Lemma cut_in_range sig start stop ie im fm :
  bounds_ordered start stop ->
  Forall (fun t => Sig.in_range start stop t = true)
         (timestamps (Sig.cut sig start stop ie im fm)).
Proof.
  intros Ho. destruct (bounds_in_range start stop Ho) as [Hlo Hhi].
  rewrite cut_timestamps, !Forall_app. split; [|split].
  - destruct (lead_bound_cases (timestamps sig) start stop ie)
      as [->|(s & Hs & -> & _)]; [constructor|].
    constructor; [now apply Hlo|constructor].
  - apply Forall_forall. intros t Ht. apply list_elem_of_In in Ht.
    now apply filter_In in Ht as [_ Ht].
  - destruct (trail_bound_cases (timestamps sig) start stop ie)
      as [->|(e & He & -> & _)]; [constructor|].
    constructor; [now apply Hhi|constructor].
Qed.

(** [cut] with ordered bounds keeps the time stamps monotonic. *)
Lemma cut_sorted sig start stop ie im fm :
  bounds_ordered start stop ->
  sorted (timestamps sig) ->
  sorted (timestamps (Sig.cut sig start stop ie im fm)).
Proof.
  intros Ho Hs. destruct (bounds_in_range start stop Ho) as [Hlo Hhi].
  rewrite cut_timestamps.
  set (ts := timestamps sig) in *.
  assert (Hkept : Forall (fun t => Sig.in_range start stop t = true)
                         (List.filter (Sig.in_range start stop) ts)).
  { apply Forall_forall. intros t Ht. apply list_elem_of_In in Ht.
    now apply filter_In in Ht as [_ Ht]. }
  apply sorted_app. split; [|split].
  - destruct (lead_bound_cases ts start stop ie) as [->|(s & _ & -> & _)];
      repeat constructor.
  - apply sorted_app. split; [now apply filter_sorted|split].
    + destruct (trail_bound_cases ts start stop ie) as [->|(e & _ & -> & _)];
        repeat constructor.
    + destruct (trail_bound_cases ts start stop ie)
        as [->|(e & He & -> & _ & _)].
      * apply Forall_forall. intros; constructor.
      * eapply Forall_impl; [exact Hkept|]. intros t Ht. simpl in Ht.
        constructor; [|constructor].
        apply in_range_spec in Ht as [_ Ht]. now apply Ht.
  - destruct (lead_bound_cases ts start stop ie)
      as [->|(s & Hst & -> & _ & _)]; [constructor|].
    pose proof (Hlo s Hst) as Hr.
    constructor; [|constructor]. rewrite Forall_app. split.
    + eapply Forall_impl; [exact Hkept|]. intros t Ht. simpl in Ht.
      apply in_range_spec in Ht as [Ht _]. now apply Ht.
    + destruct (trail_bound_cases ts start stop ie)
        as [->|(e & He & -> & _ & _)]; [constructor|].
      constructor; [|constructor].
      apply in_range_spec in Hr as [_ Hr]. now apply Hr.
Qed.

Lemma cut_length sig start stop ie im fm :
  length (samples sig) = length (timestamps sig) ->
  length (samples (Sig.cut sig start stop ie im fm))
  = length (timestamps (Sig.cut sig start stop ie im fm)).
Proof.
  intros H. unfold Sig.cut. simpl. rewrite !length_app, !length_map.
  f_equal. f_equal. now apply mask_select_length.
Qed.

Lemma cut_name sig start stop ie im fm :
  name (Sig.cut sig start stop ie im fm) = name sig.
Proof. reflexivity. Qed.

Lemma cut_kind sig start stop ie im fm :
  kind (Sig.cut sig start stop ie im fm) = kind sig.
Proof. reflexivity. Qed.

(** Without synthesized bounds and with every sample out of range, [cut]
    leaves nothing. *)
Lemma cut_nothing sig start stop ie im fm :
  Forall (fun t => Sig.in_range start stop t = false) (timestamps sig) ->
  Sig.lead_bound (timestamps sig) start stop ie = [] ->
  Sig.trail_bound (timestamps sig) start stop ie = [] ->
  timestamps (Sig.cut sig start stop ie im fm) = [].
Proof.
  intros Hall Hl Ht. rewrite cut_timestamps, Hl, Ht. simpl.
  rewrite app_nil_r. clear Hl Ht.
  induction Hall as [|t ts Hout _ IH]; simpl; [reflexivity|].
  now rewrite Hout.
Qed.


End SigFacts.

(** ** [MDF.cut]: what a call writes *)

Module CutWrites.
Import Engine Cut.

(** The fragments a group contributes, as [(master, signals)] pairs in the
    order they are written, and the value of [signals] after the loop. *)
Fixpoint emits (c : Config) (g : Group) (j : nat) (fs : list Fragment)
    (sigs : list Signal) : list (list Q * list Signal) * list Signal :=
  match fs with
  | [] => ([], sigs)
  | f :: fs' =>
      match fragment_step c g j f sigs with
      | SBreak s => ([], s)
      | SSkip s => emits c g (S j) fs' s
      | SEmit m s =>
          let '(es, s') := emits c g (S j) fs' s in ((m, s) :: es, s')
      end
  end.

Definition channel_of (s : Signal) : Channel := mkChannel (name s) (kind s).

(** The fragment [append] writes and the fragment [extend] writes. *)
Definition first_fragment (sigs : list Signal) : Fragment :=
  mkFragment (match sigs with s :: _ => timestamps s | [] => [] end)
             (map Sig.column sigs).

Definition later_fragment (e : list Q * list Signal) : Fragment :=
  mkFragment e.1 (map Sig.column e.2).

Definition group_of (g : Group) (sigs : list Signal) (frs : list Fragment) : Group :=
  mkGroup (map channel_of sigs) frs (comment g) (acq_name g).

(** The groups (none or one) a virtual group with included channels adds
    to the new file. *)
Definition produced (c : Config) (g : Group) : list Group :=
  match emits c g 0 (fragments g) [] with
  | ([], []) => []
  | ([], (_ :: _) as sigs) =>
      [group_of g (map Sig.truncate sigs) [first_fragment (map Sig.truncate sigs)]]
  | ((m, sigs) :: es, _) =>
      [group_of g sigs (first_fragment sigs :: map later_fragment es)]
  end.

Definition nonempty {A : Type} (l : list A) : bool :=
  match l with [] => false | _ :: _ => true end.

Definition extend_all (nr : nat) (es : list (list Q * list Signal)) (o : MDF) : MDF :=
  foldl (fun o e => extend nr ((e.1, None) :: map Sig.column e.2) o) o es.

Lemma set_groups_groups gs o : groups (set_groups gs o) = gs.
Proof. reflexivity. Qed.

Lemma set_groups_twice gs gs' o : set_groups gs (set_groups gs' o) = set_groups gs o.
Proof. reflexivity. Qed.

Lemma extend_last pre G m cs o :
  groups o = pre ++ [G] ->
  extend (length pre) (m :: cs) o
  = set_groups (pre ++ [mkGroup (channels G) (fragments G ++ [mkFragment m.1 cs])
                                (comment G) (acq_name G)]) o.
Proof.
  intros H. unfold extend. rewrite H. f_equal.
  rewrite alter_app_r_alt by lia. now rewrite Nat.sub_diag.
Qed.

Lemma extend_all_last es : forall pre G o,
  groups o = pre ++ [G] ->
  extend_all (length pre) es o
  = set_groups (pre ++ [mkGroup (channels G)
                                (fragments G ++ map later_fragment es)
                                (comment G) (acq_name G)]) o.
Proof.
  induction es as [|e es IH]; intros pre G o H.
  - simpl. rewrite app_nil_r. destruct o, G; simpl in *. now rewrite H.
  - change (extend_all (length pre) (e :: es) o)
      with (extend_all (length pre) es
              (extend (length pre) ((e.1, None) :: map Sig.column e.2) o)).
    erewrite extend_last by exact H.
    erewrite IH by apply set_groups_groups.
    rewrite set_groups_twice. simpl. now rewrite <- app_assoc.
Qed.

(** A group as it arrives in the new file: the acquisition name is carried
    over only when the channel groups of both files have the attribute. *)
Definition arrives (both : bool) (g : Group) : Group :=
  if both then g else mkGroup (channels g) (fragments g) (comment g) "".

(** Both [hasattr] tests of [_transfer_channel_group_data] succeed. *)
Definition both_have (c : Config) (o : MDF) : bool :=
  has_acq_name o && c_acq_name c.

Lemma arrives_channels b g : channels (arrives b g) = channels g.
Proof. now destruct b. Qed.

Lemma arrives_fragments b g : fragments (arrives b g) = fragments g.
Proof. now destruct b. Qed.

Lemma arrives_comment b g : comment (arrives b g) = comment g.
Proof. now destruct b. Qed.

Lemma arrives_acq_name g : acq_name (arrives true g) = acq_name g.
Proof. reflexivity. Qed.

Lemma arrives_timestamps b g :
  group_timestamps (arrives b g) = group_timestamps g.
Proof. now destruct b. Qed.

Lemma arrives_samples b g k : channel_samples (arrives b g) k = channel_samples g k.
Proof. now destruct b. Qed.

Lemma transfer_arrives s_has o_has pre sigs frs g o :
  groups o = pre ++ [mkGroup (map channel_of sigs) frs (comment g) ""] ->
  transfer_channel_group_data s_has o_has (length pre) g o
  = set_groups (pre ++ [arrives (s_has && o_has) (group_of g sigs frs)]) o.
Proof.
  intros H. unfold transfer_channel_group_data. rewrite H.
  rewrite alter_app_r_alt by lia. rewrite Nat.sub_diag.
  destruct s_has, o_has; reflexivity.
Qed.

Lemma append_group_spec oh sigs cmt g st :
  append_group oh sigs cmt g st
  = (set_groups (groups (out st)
                 ++ [arrives (has_acq_name (out st) && oh)
                             (group_of g sigs [first_fragment sigs])]) (out st),
     length (groups (out st))).
Proof.
  unfold append_group, append, transfer_channel_group_data.
  cbn [set_groups groups]. rewrite alter_app_r_alt by lia.
  rewrite Nat.sub_diag.
  change (has_acq_name (set_groups _ (out st))) with (has_acq_name (out st)).
  destruct (has_acq_name (out st)), oh; reflexivity.
Qed.

(** The loop over the fragments once a group has been appended: the later
    fragments extend the group [cg_nr]. *)
Lemma cut_fragments_extend c g fs : forall j st k,
  idx st = S k ->
  cut_fragments c g j fs st
  = let '(es, s') := emits c g j fs (signals st) in
    mkLoop (idx st + length es) s' (extend_all (cg_nr st) es (out st))
           (cg_nr st) (named st).
Proof.
  induction fs as [|f fs IH]; intros j st k Hidx; simpl.
  - rewrite Nat.add_0_r. now destruct st.
  - unfold cut_fragment. destruct (fragment_step c g j f (signals st)) as [s|s|m s].
    + simpl. rewrite Nat.add_0_r. now destruct st.
    + erewrite IH by (simpl; exact Hidx). simpl.
      now destruct (emits c g (S j) fs s).
    + rewrite Hidx. erewrite IH by (simpl; reflexivity). simpl.
      destruct (emits c g (S j) fs s) as [es s']. simpl.
      f_equal. lia.
Qed.

(** The loop over the fragments of a group, from its start. *)
Lemma cut_fragments_spec c g fs : forall j st,
  idx st = 0 ->
  cut_fragments c g j fs st
  = match emits c g j fs (signals st) with
    | ([], s') => with_signals s' st
    | ((m, sigs) :: es, s') =>
        mkLoop (S (length es)) s'
               (set_groups (groups (out st)
                            ++ [arrives (both_have c (out st))
                                  (group_of g sigs
                                     (first_fragment sigs :: map later_fragment es))])
                           (out st))
               (length (groups (out st))) true
    end.
Proof.
  induction fs as [|f fs IH]; intros j st Hidx; simpl.
  - now destruct st.
  - unfold cut_fragment. destruct (fragment_step c g j f (signals st)) as [s|s|m s].
    + reflexivity.
    + rewrite IH by (simpl; exact Hidx). simpl.
      destruct (emits c g (S j) fs s) as [[|[m' sigs] es] s']; reflexivity.
    + rewrite Hidx, append_group_spec.
      erewrite cut_fragments_extend by (simpl; reflexivity). simpl.
      destruct (emits c g (S j) fs s) as [es s']. simpl.
      erewrite extend_all_last by apply set_groups_groups.
      rewrite set_groups_twice. unfold both_have.
      now destruct (has_acq_name (out st) && c_acq_name c).
Qed.

(** A virtual group adds its [produced] groups behind the groups that are
    there, and [start_] and [stop_] are bound once a group is added. *)
Lemma cut_group_spec c g st :
  out (cut_group c g st)
  = set_groups (groups (out st) ++ map (arrives (both_have c (out st))) (produced c g))
               (out st)
  /\ named (cut_group c g st) = named st || nonempty (produced c g).
Proof.
  unfold cut_group, produced.
  rewrite cut_fragments_spec by reflexivity. cbn [signals].
  destruct (emits c g 0 (fragments g) []) as [[|[m sigs] es] s'].
  - destruct s' as [|s0 s']; cbn [with_signals idx signals out named].
    + simpl. rewrite app_nil_r, orb_false_r. split; [|reflexivity].
      now destruct (out st).
    + rewrite append_group_spec. cbn [out named map]. now rewrite orb_true_r.
  - cbn [idx out named map]. now rewrite orb_true_r.
Qed.

(** A group without included channels ends its loop at the first item and
    adds nothing. *)
Lemma emits_no_channels c g fs :
  channels g = [] -> emits c g 0 fs [] = ([], []).
Proof.
  intros Hch. destruct fs as [|f fs]; [reflexivity|].
  simpl. unfold fragment_step, first_yield. now rewrite Hch.
Qed.

Lemma produced_no_channels c g : channels g = [] -> produced c g = [].
Proof. intros Hch. unfold produced. now rewrite emits_no_channels. Qed.

(** What a virtual group contributes: nothing when it has no included
    channels. *)
Definition contribution (c : Config) (g : Group) : list Group :=
  match channels g with
  | [] => []
  | _ :: _ => produced c g
  end.

Lemma contribution_produced c g : contribution c g = produced c g.
Proof.
  unfold contribution. destruct (channels g) eqn:E; [|reflexivity].
  symmetry. now apply produced_no_channels.
Qed.

Lemma cut_groups_done c terminate gs : forall i st st',
  cut_groups c terminate i gs st = Done st' ->
  out st'
  = set_groups (groups (out st)
                ++ map (arrives (both_have c (out st)))
                       (flat_map (contribution c) gs)) (out st)
  /\ named st' = named st || nonempty (flat_map (contribution c) gs).
Proof.
  induction gs as [|g gs IH]; intros i st st' H.
  - simpl in *. injection H as <-. rewrite app_nil_r, orb_false_r.
    split; [now destruct (out st)|reflexivity].
  - cbn [cut_groups] in H. cbn [flat_map].
    rewrite contribution_produced.
    destruct (terminate (S i)); [discriminate|].
    apply IH in H as [H1 H2].
    destruct (cut_group_spec c g st) as [G1 G2].
    rewrite H1, H2, G1, G2. cbn [groups set_groups].
    change (both_have c (set_groups _ (out st))) with (both_have c (out st)).
    rewrite map_app, <- app_assoc. split; [reflexivity|].
    rewrite <- orb_assoc. f_equal.
    now destruct (produced c g).
Qed.

Lemma cut_groups_never c gs : forall i st,
  exists st', cut_groups c (fun _ => false) i gs st = Done st'.
Proof.
  induction gs as [|g gs IH]; intros i st; simpl; [eauto|].
  apply IH.
Qed.

End CutWrites.

(** ** [MDF.cut]: the step on one fragment *)

Module CutSteps.
Import Engine Cut ArrayFacts SigFacts CutWrites.

(** A fragment is well formed for its group when it has one column per
    included channel and every column has one sample per time stamp. *)
Definition wf_fragment (g : Group) (f : Fragment) : Prop :=
  length (cols f) = length (channels g)
  /\ Forall (fun col : Column => length col.1 = length (master f)) (cols f).

Definition wf_group (g : Group) : Prop := Forall (wf_fragment g) (fragments g).

(** The signals carry the channels of the group, in order. *)
Definition tracks (g : Group) (sigs : list Signal) : Prop :=
  map channel_of sigs = channels g.

Lemma zip_with_channel_of (m : list Q) : forall (chs : list Channel) (cs : list Column),
  length cs = length chs ->
  map channel_of
      (zip_with (fun ch (c : Column) => mkSignal (ch_name ch) (ch_kind ch) c.1 m c.2)
                chs cs) = chs.
Proof.
  induction chs as [|[n k] chs IH]; intros [|c cs] H; simpl in *;
    try reflexivity; try discriminate.
  f_equal. apply IH. lia.
Qed.

Lemma first_yield_tracks g f :
  length (cols f) = length (channels g) -> tracks g (first_yield g f).
Proof. intros H. now apply zip_with_channel_of. Qed.

Lemma update_all_zip m : forall sigs (cs : list Column),
  length cs = length sigs ->
  update_all m sigs cs
  = zip_with (fun ch (c : Column) => mkSignal (ch_name ch) (ch_kind ch) c.1 m c.2)
             (map channel_of sigs) cs.
Proof.
  induction sigs as [|s sigs IH]; intros [|c cs] H; simpl in *;
    try reflexivity; try discriminate.
  f_equal. apply IH. lia.
Qed.

Lemma update_all_first_yield g f sigs :
  tracks g sigs -> length (cols f) = length (channels g) ->
  update_all (master f) sigs (cols f) = first_yield g f.
Proof.
  intros Ht Hl. unfold first_yield. rewrite <- Ht. apply update_all_zip.
  rewrite Hl, <- Ht. now rewrite length_map.
Qed.

Lemma first_yield_nonempty g f :
  channels g <> [] -> length (cols f) = length (channels g) ->
  first_yield g f <> [].
Proof.
  unfold first_yield. destruct (channels g), (cols f); simpl; congruence.
Qed.

Lemma first_yield_timestamps g f :
  Forall (fun s => timestamps s = master f) (first_yield g f).
Proof.
  unfold first_yield. generalize (cols f). induction (channels g) as [|ch chs IH];
    intros [|c cs]; simpl; constructor; auto.
Qed.

Lemma first_yield_columns g f :
  length (cols f) = length (channels g) ->
  map Sig.column (first_yield g f) = cols f.
Proof.
  unfold first_yield. generalize (cols f). induction (channels g) as [|ch chs IH];
    intros [|c cs] H; simpl in *; try reflexivity; try discriminate.
  f_equal; [now destruct c|]. apply IH. lia.
Qed.

Lemma zip_with_samples (m : list Q) : forall (chs : list Channel) (cs : list Column),
  Forall (fun col : Column => length col.1 = length m) cs ->
  Forall (fun s => length (samples s) = length (timestamps s))
         (zip_with (fun ch (c : Column) => mkSignal (ch_name ch) (ch_kind ch) c.1 m c.2)
                   chs cs).
Proof.
  induction chs as [|ch chs IH]; intros [|c cs] H; simpl; constructor.
  - apply Forall_cons in H as [H _]. exact H.
  - apply IH. now apply Forall_cons in H as [_ H].
Qed.

Lemma first_yield_samples g f :
  wf_fragment g f ->
  Forall (fun s => length (samples s) = length (timestamps s)) (first_yield g f).
Proof. intros [_ Hal]. now apply zip_with_samples. Qed.

(** The signals the step works with. *)
Definition current (g : Group) (j : nat) (f : Fragment) (sigs : list Signal)
  : list Signal :=
  match j with O => first_yield g f | S _ => sigs end.

(** The signals cut to the extent of the cut master. *)
Definition cut_signals (c : Config) (master1 : list Q) (sigs : list Signal)
  : list Signal :=
  map (fun sig => Sig.cut sig (Some (first_of master1)) (Some (last_of master1))
                          (c_include_ends c) (c_integer_mode c) (c_float_mode c))
      sigs.

Definition cut_master (c : Config) (fs fe : option Q) (master0 : list Q) : list Q :=
  timestamps (Sig.cut (mkSignal "_" KFloat master0 master0 None) fs fe
                      (c_include_ends c) (c_integer_mode c) (c_float_mode c)).

(** The cases of a step on a well-formed fragment, without
    [time_from_zero]. *)
Inductive step_case (c : Config) (g : Group) (j : nat) (f : Fragment)
    (sigs : list Signal) : Step -> Prop :=
| case_empty :
    master f = [] ->
    step_case c g j f sigs (SSkip (current g j f sigs))
| case_break :
    master f <> [] -> plan (c_start c) (c_stop c) (master f) = PBreak ->
    step_case c g j f sigs (SBreak (current g j f sigs))
| case_continue :
    master f <> [] -> plan (c_start c) (c_stop c) (master f) = PContinue ->
    step_case c g j f sigs (SSkip (current g j f sigs))
| case_whole fs fe :
    master f <> [] -> plan (c_start c) (c_stop c) (master f) = PKeep fs fe false ->
    step_case c g j f sigs (SEmit (master f) (first_yield g f))
| case_cut_nothing fs fe :
    master f <> [] -> plan (c_start c) (c_stop c) (master f) = PKeep fs fe true ->
    cut_master c fs fe (master f) = [] ->
    step_case c g j f sigs (SSkip (first_yield g f))
| case_cut fs fe :
    master f <> [] -> plan (c_start c) (c_stop c) (master f) = PKeep fs fe true ->
    cut_master c fs fe (master f) <> [] ->
    step_case c g j f sigs
      (SEmit (cut_master c fs fe (master f))
             (cut_signals c (cut_master c fs fe (master f)) (first_yield g f))).

Lemma fragment_step_cases c g j f sigs :
  c_time_from_zero c = false ->
  channels g <> [] -> length (cols f) = length (channels g) ->
  (j = 0 \/ tracks g sigs) ->
  step_case c g j f sigs (fragment_step c g j f sigs).
Proof.
  intros Htz Hch Hl Hj.
  assert (Hne := first_yield_nonempty g f Hch Hl).
  assert (Hsig1 : match j with
                  | O => current g j f sigs
                  | S _ => update_all (master f) (current g j f sigs) (cols f)
                  end = first_yield g f).
  { destruct j; [reflexivity|]. simpl.
    destruct Hj as [Hj|Hj]; [discriminate|].
    now apply update_all_first_yield. }
  assert (Hstep : fragment_step c g j f sigs
                  = step_body c j f (current g j f sigs)).
  { unfold fragment_step, current. destruct j; [|reflexivity].
    destruct (first_yield g f); [congruence|reflexivity]. }
  rewrite Hstep. unfold step_body.
  destruct (master f) as [|t0 ts] eqn:Em.
  - apply case_empty. exact Em.
  - rewrite <- Em in *.
    assert (Hm : master f <> []) by (rewrite Em; discriminate).
    destruct (plan (c_start c) (c_stop c) (master f)) as [| |fs fe nc] eqn:Ep.
    + now apply case_break.
    + now apply case_continue.
    + rewrite Hsig1, Htz. destruct nc.
      * fold (cut_master c fs fe (master f)).
        destruct (cut_master c fs fe (master f)) as [|m1 ms] eqn:Ec.
        -- now apply (case_cut_nothing c g j f sigs fs fe).
        -- rewrite <- Ec.
           apply (case_cut c g j f sigs fs fe); [assumption..|].
           rewrite Ec. discriminate.
      * rewrite Em. rewrite <- Em. now apply (case_whole c g j f sigs fs fe).
Qed.

End CutSteps.

(** ** [MDF.cut]: the decision on one fragment *)

Module PlanFacts.
Import Engine Cut ArrayFacts SigFacts.

(** The bounds of a kept fragment lie between the bounds of the call. *)
Lemma plan_keep_bounds start stop m fs fe nc :
  plan start stop m = PKeep fs fe nc ->
  (forall s, start = Some s -> exists s', fs = Some s' /\ (s <= s')%Q)
  /\ (forall e, stop = Some e -> exists e', fe = Some e' /\ (e' <= e)%Q).
Proof.
  unfold plan. intros H.
  destruct start as [s|], stop as [e|].
  - destruct (Qltb e (first_of m)); [discriminate|].
    destruct (Qltb (last_of m) s); [discriminate|].
    injection H as <- <- _. split; intros ? [= <-]; eexists; split; eauto.
    + destruct (py_max_cases s (first_of m)) as [[-> ?]|[-> ?]]; lra.
    + destruct (py_min_cases e (last_of m)) as [[-> ?]|[-> ?]]; lra.
  - destruct (Qltb (last_of m) s); [discriminate|].
    injection H as <- <- _. split; [|intros ? [=]].
    intros ? [= <-]. eexists; split; eauto.
    destruct (py_max_cases s (first_of m)) as [[-> ?]|[-> ?]]; lra.
  - destruct (Qltb e (first_of m)); [discriminate|].
    injection H as <- <- _. split; [intros ? [=]|].
    intros ? [= <-]. eexists; split; eauto.
    destruct (py_min_cases e (last_of m)) as [[-> ?]|[-> ?]]; lra.
  - injection H as <- <- _. split; intros ? [=].
Qed.

(** The bounds of a kept fragment are ordered when those of the call
    are. *)
Lemma plan_keep_ordered start stop m fs fe nc :
  plan start stop m = PKeep fs fe nc ->
  bounds_ordered start stop -> sorted m -> m <> [] ->
  bounds_ordered fs fe.
Proof.
  unfold plan, bounds_ordered. intros H Ho Hs Hne s' e' Hs' He'.
  assert (Hfl : (first_of m <= last_of m)%Q).
  { apply first_of_le; [exact Hs|]. now apply last_of_In. }
  destruct start as [s|], stop as [e|].
  - destruct (Qltb e (first_of m)) eqn:E1; [discriminate|].
    destruct (Qltb (last_of m) s) eqn:E2; [discriminate|].
    apply Qltb_ge in E1, E2. specialize (Ho s e eq_refl eq_refl).
    injection H as <- <- _. injection Hs' as <-. injection He' as <-.
    destruct (py_max_cases s (first_of m)) as [[-> ?]|[-> ?]];
      destruct (py_min_cases e (last_of m)) as [[-> ?]|[-> ?]]; lra.
  - destruct (Qltb (last_of m) s); [discriminate|].
    injection H as <- <- _. discriminate.
  - destruct (Qltb e (first_of m)); [discriminate|].
    injection H as <- <- _. discriminate.
  - injection H as <- <- _. discriminate.
Qed.

Lemma plan_keep_in_range start stop m fs fe nc t :
  plan start stop m = PKeep fs fe nc ->
  Sig.in_range fs fe t = true -> Sig.in_range start stop t = true.
Proof.
  intros Hp Hr. destruct (plan_keep_bounds _ _ _ _ _ _ Hp) as [H1 H2].
  eapply in_range_weaken; eauto.
Qed.

Lemma lower_all s m :
  sorted m -> m <> [] -> (s <= first_of m)%Q -> Forall (fun t => (s <= t)%Q) m.
Proof.
  intros Hs Hne Hle. apply Forall_forall. intros t Ht.
  apply list_elem_of_In in Ht. pose proof (first_of_le m t Hs Ht). lra.
Qed.

Lemma start_index_zero s m :
  m <> [] -> searchsorted_left m (py_max s (first_of m)) = 0 ->
  (s <= first_of m)%Q.
Proof.
  intros Hne H. destruct m as [|x m]; [congruence|].
  apply searchsorted_left_start in H. simpl in *.
  destruct (py_max_cases s x) as [[E ?]|[E ?]]; rewrite E in H; lra.
Qed.

Lemma stop_index_end e m :
  sorted m -> m <> [] ->
  searchsorted_right m (py_min e (last_of m)) = length m ->
  Forall (fun t => (t <= e)%Q) m.
Proof.
  intros Hs Hne H. apply searchsorted_right_end in H.
  eapply Forall_impl; [exact H|]. intros t Ht. simpl in Ht.
  destruct (py_min_cases e (last_of m)) as [[E ?]|[E ?]]; rewrite E in Ht; lra.
Qed.

(** A fragment that is kept whole lies between the bounds. *)
Lemma plan_keep_whole start stop m fs fe :
  plan start stop m = PKeep fs fe false -> sorted m -> m <> [] ->
  Forall (fun t => Sig.in_range start stop t = true) m.
Proof.
  unfold plan. intros H Hs Hne.
  destruct start as [s|], stop as [e|].
  - destruct (Qltb e (first_of m)); [discriminate|].
    destruct (Qltb (last_of m) s); [discriminate|].
    injection H as _ _ H. apply negb_false_iff, andb_true_iff in H as [H1 H2].
    apply Nat.eqb_eq in H1, H2.
    pose proof (lower_all s m Hs Hne (start_index_zero s m Hne H1)) as L.
    pose proof (stop_index_end e m Hs Hne H2) as U.
    apply Forall_forall. intros t Ht.
    rewrite Forall_forall in L, U. apply in_range_spec.
    split; intros ? [= <-]; auto.
  - destruct (Qltb (last_of m) s); [discriminate|].
    injection H as _ _ H. apply negb_false_iff, Nat.eqb_eq in H.
    pose proof (lower_all s m Hs Hne (start_index_zero s m Hne H)) as L.
    eapply Forall_impl; [exact L|]. intros t Ht. simpl in Ht.
    apply in_range_spec. split; [intros ? [= <-]; auto|intros ? [=]].
  - destruct (Qltb e (first_of m)); [discriminate|].
    injection H as _ _ H. apply negb_false_iff, Nat.eqb_eq in H.
    pose proof (stop_index_end e m Hs Hne H) as U.
    eapply Forall_impl; [exact U|]. intros t Ht. simpl in Ht.
    apply in_range_spec. split; [intros ? [=]|intros ? [= <-]; auto].
  - apply Forall_forall. intros t _. reflexivity.
Qed.

(** A sorted fragment between the bounds is kept whole. *)
Lemma plan_inside start stop m :
  sorted m -> m <> [] ->
  Forall (fun t => Sig.in_range start stop t = true) m ->
  exists fs fe, plan start stop m = PKeep fs fe false.
Proof.
  intros Hs Hne Hall.
  assert (Hf : Sig.in_range start stop (first_of m) = true).
  { rewrite Forall_forall in Hall. apply Hall, list_elem_of_In.
    now apply first_of_In. }
  assert (Hl : Sig.in_range start stop (last_of m) = true).
  { rewrite Forall_forall in Hall. apply Hall, list_elem_of_In.
    now apply last_of_In. }
  apply in_range_spec in Hf as [Hf1 Hf2], Hl as [Hl1 Hl2].
  assert (Hstart : forall s, start = Some s ->
            searchsorted_left m (py_max s (first_of m)) = 0).
  { intros s E. destruct m as [|x m]; [congruence|].
    apply searchsorted_left_start. specialize (Hf1 s E). simpl in *.
    destruct (py_max_cases s x) as [[-> ?]|[-> ?]]; lra. }
  assert (Hstop : forall e, stop = Some e ->
            searchsorted_right m (py_min e (last_of m)) = length m).
  { intros e E. apply searchsorted_right_end. apply Forall_forall.
    intros t Ht. apply list_elem_of_In in Ht.
    pose proof (last_of_ge m t Hs Ht). specialize (Hl2 e E).
    destruct (py_min_cases e (last_of m)) as [[-> ?]|[-> ?]]; lra. }
  unfold plan. destruct start as [s|], stop as [e|].
  - specialize (Hf2 e eq_refl). specialize (Hl1 s eq_refl).
    assert (E1 : Qltb e (first_of m) = false) by now apply Qltb_ge.
    assert (E2 : Qltb (last_of m) s = false) by now apply Qltb_ge.
    rewrite E1, E2, (Hstart s eq_refl), (Hstop e eq_refl), !Nat.eqb_refl.
    simpl. eauto.
  - specialize (Hl1 s eq_refl).
    assert (E2 : Qltb (last_of m) s = false) by now apply Qltb_ge.
    rewrite E2, (Hstart s eq_refl). simpl. eauto.
  - specialize (Hf2 e eq_refl).
    assert (E1 : Qltb e (first_of m) = false) by now apply Qltb_ge.
    rewrite E1, (Hstop e eq_refl), !Nat.eqb_refl. simpl. eauto.
  - eauto.
Qed.

(** When no time stamp of the fragment lies between the bounds, a kept
    fragment is cut at the bounds of the call themselves. *)
Lemma plan_nothing_in_range start stop m fs fe nc :
  m <> [] ->
  Forall (fun t => Sig.in_range start stop t = false) m ->
  plan start stop m = PKeep fs fe nc ->
  fs = start /\ fe = stop /\ nc = true /\ start <> None /\ stop <> None.
Proof.
  intros Hne Hall Hp.
  assert (Hf : Sig.in_range start stop (first_of m) = false).
  { rewrite Forall_forall in Hall. apply Hall, list_elem_of_In.
    now apply first_of_In. }
  assert (Hl : Sig.in_range start stop (last_of m) = false).
  { rewrite Forall_forall in Hall. apply Hall, list_elem_of_In.
    now apply last_of_In. }
  unfold plan in Hp. unfold Sig.in_range in Hf, Hl.
  destruct start as [s|], stop as [e|].
  - destruct (Qltb e (first_of m)) eqn:E1; [discriminate|].
    destruct (Qltb (last_of m) s) eqn:E2; [discriminate|].
    apply Qltb_ge in E1, E2.
    apply andb_false_iff in Hf as [Hf|Hf]; apply Qleb_gt in Hf; [|lra].
    apply andb_false_iff in Hl as [Hl|Hl]; apply Qleb_gt in Hl; [lra|].
    injection Hp as <- <- <-.
    destruct (py_max_cases s (first_of m)) as [[E ?]|[E ?]]; [|lra].
    destruct (py_min_cases e (last_of m)) as [[E' ?]|[E' ?]]; [|lra].
    rewrite E, E'. repeat split; try discriminate.
    destruct m as [|x m]; [congruence|].
    simpl in *.
    assert (Hx : Qltb x s = true) by now apply Qltb_lt.
    now rewrite Hx.
  - destruct (Qltb (last_of m) s) eqn:E2; [discriminate|].
    apply Qltb_ge in E2. rewrite andb_true_r in Hl. apply Qleb_gt in Hl. lra.
  - destruct (Qltb e (first_of m)) eqn:E1; [discriminate|].
    apply Qltb_ge in E1. simpl in Hf. apply Qleb_gt in Hf. lra.
  - discriminate.
Qed.

End PlanFacts.

(** ** [MDF.cut]: the group a virtual group turns into *)

Module CutGroups.
Import Engine Cut ArrayFacts SigFacts CutWrites CutSteps PlanFacts.

Definition all_in_range (start stop : option Q) (ts : list Q) : Prop :=
  Forall (fun t => Sig.in_range start stop t = true) ts.

(** A group as [cut] writes it: it has channels and at least one fragment;
    every fragment has one column per channel and a sorted master between
    the bounds; a fragment without time stamps has no samples. *)
Definition tidy_fragment (start stop : option Q) (g : Group) (f : Fragment) : Prop :=
  length (cols f) = length (channels g)
  /\ sorted (master f)
  /\ all_in_range start stop (master f)
  /\ (master f = [] -> Forall (fun col : Column => col.1 = []) (cols f)).

Definition tidy (start stop : option Q) (g : Group) : Prop :=
  channels g <> [] /\ fragments g <> []
  /\ Forall (tidy_fragment start stop g) (fragments g).

(** What is known of a master and signals that are written. *)
Definition good_emit (c : Config) (g : Group) (e : list Q * list Signal) : Prop :=
  tracks g e.2 /\ e.1 <> [] /\ sorted e.1
  /\ all_in_range (c_start c) (c_stop c) e.1
  /\ exists ts, sorted ts /\ all_in_range (c_start c) (c_stop c) ts
                /\ Forall (fun s => timestamps s = ts
                                    /\ length (samples s) = length ts) e.2.

Definition step_good (c : Config) (g : Group) (s : Step) : Prop :=
  match s with
  | SBreak sigs | SSkip sigs => tracks g sigs
  | SEmit m sigs => good_emit c g (m, sigs)
  end.

Lemma current_tracks g j f sigs :
  length (cols f) = length (channels g) -> (j = 0 \/ tracks g sigs) ->
  tracks g (current g j f sigs).
Proof.
  intros Hl [->|Ht]; [now apply first_yield_tracks|].
  destruct j; [now apply first_yield_tracks|exact Ht].
Qed.

Lemma cut_signals_tracks c g m sigs :
  tracks g sigs -> tracks g (cut_signals c m sigs).
Proof.
  unfold tracks, cut_signals. intros <-. rewrite map_map. reflexivity.
Qed.

Lemma in_range_between start stop a b t :
  Sig.in_range start stop a = true -> Sig.in_range start stop b = true ->
  Sig.in_range (Some a) (Some b) t = true ->
  Sig.in_range start stop t = true.
Proof.
  rewrite !in_range_spec. intros [A1 A2] [B1 B2] [T1 T2].
  specialize (T1 a eq_refl). specialize (T2 b eq_refl). split.
  - intros s E. specialize (A1 s E). lra.
  - intros e E. specialize (B2 e E). lra.
Qed.

Lemma fragment_step_good c g j f sigs :
  c_time_from_zero c = false -> bounds_ordered (c_start c) (c_stop c) ->
  channels g <> [] ->
  wf_fragment g f -> sorted (master f) -> (j = 0 \/ tracks g sigs) ->
  step_good c g (fragment_step c g j f sigs).
Proof.
  intros Htz Ho Hch Hwf Hs Hj. pose proof Hwf as [Hl Hal].
  destruct (fragment_step_cases c g j f sigs Htz Hch Hl Hj)
    as [Hm|Hm Hp|Hm Hp|fs fe Hm Hp|fs fe Hm Hp Hc|fs fe Hm Hp Hc]; simpl.
  - now apply current_tracks.
  - now apply current_tracks.
  - now apply current_tracks.
  - pose proof (plan_keep_whole _ _ _ _ _ Hp Hs Hm) as Hr.
    repeat split; simpl; try assumption.
    + now apply first_yield_tracks.
    + exists (master f). repeat split; try assumption.
      pose proof (first_yield_timestamps g f) as H1.
      pose proof (first_yield_samples g f Hwf) as H2.
      rewrite Forall_forall in *. intros s Hin.
      specialize (H1 s Hin). specialize (H2 s Hin). split; congruence.
  - now apply first_yield_tracks.
  - set (m := cut_master c fs fe (master f)) in *.
    pose proof (plan_keep_ordered _ _ _ _ _ _ Hp Ho Hs Hm) as Hof.
    assert (Hms : sorted m) by (apply cut_sorted; [exact Hof|exact Hs]).
    assert (Hmr : all_in_range (c_start c) (c_stop c) m).
    { eapply Forall_impl; [apply cut_in_range; exact Hof|].
      intros t Ht. simpl in Ht.
      eapply plan_keep_in_range; eauto. }
    assert (Hom : bounds_ordered (Some (first_of m)) (Some (last_of m))).
    { intros s e [= <-] [= <-]. apply first_of_le; [exact Hms|].
      now apply last_of_In. }
    assert (Ha : Sig.in_range (c_start c) (c_stop c) (first_of m) = true).
    { unfold all_in_range in Hmr. rewrite Forall_forall in Hmr.
      apply Hmr, list_elem_of_In. now apply first_of_In. }
    assert (Hb : Sig.in_range (c_start c) (c_stop c) (last_of m) = true).
    { unfold all_in_range in Hmr. rewrite Forall_forall in Hmr.
      apply Hmr, list_elem_of_In. now apply last_of_In. }
    repeat split; simpl; try assumption.
    + apply cut_signals_tracks. now apply first_yield_tracks.
    + set (probe := mkSignal "_" KFloat (master f) (master f) None).
      exists (timestamps (Sig.cut probe (Some (first_of m)) (Some (last_of m))
                                  (c_include_ends c) (c_integer_mode c)
                                  (c_float_mode c))).
      split; [apply cut_sorted; [exact Hom|exact Hs]|]. split.
      * eapply Forall_impl; [apply cut_in_range; exact Hom|].
        intros t Ht. simpl in Ht.
        exact (in_range_between _ _ _ _ _ Ha Hb Ht).
      * unfold cut_signals. apply Forall_map.
        pose proof (first_yield_timestamps g f) as H1.
        pose proof (first_yield_samples g f Hwf) as H2.
        rewrite Forall_forall in *. intros s Hin.
        specialize (H1 s Hin). specialize (H2 s Hin).
        rewrite cut_length by assumption.
        rewrite !cut_timestamps. simpl. now rewrite H1.
Qed.

(** Every master and every list of signals the loop writes is good, and
    [signals] carries the channels of the group once a fragment has been
    seen. *)
Lemma emits_good c g : forall fs j sigs,
  c_time_from_zero c = false -> bounds_ordered (c_start c) (c_stop c) ->
  channels g <> [] ->
  Forall (wf_fragment g) fs -> Forall (fun f => sorted (master f)) fs ->
  (j = 0 \/ tracks g sigs) ->
  Forall (good_emit c g) (emits c g j fs sigs).1
  /\ (fs <> [] \/ tracks g sigs -> tracks g (emits c g j fs sigs).2).
Proof.
  induction fs as [|f fs IH]; intros j sigs Htz Ho Hch Hwf Hs Hj; simpl.
  - split; [constructor|]. intros [H|H]; [congruence|exact H].
  - apply Forall_cons in Hwf as [Hwf1 Hwf], Hs as [Hs1 Hs].
    pose proof (fragment_step_good c g j f sigs Htz Ho Hch Hwf1 Hs1 Hj) as Hg.
    destruct (fragment_step c g j f sigs) as [s|s|m s]; simpl in Hg.
    + simpl. split; [constructor|auto].
    + destruct (IH (S j) s Htz Ho Hch Hwf Hs (or_intror Hg)) as [I1 I2].
      split; [exact I1|]. intros _. apply I2. now right.
    + destruct Hg as (Ht & Hg).
      destruct (IH (S j) s Htz Ho Hch Hwf Hs (or_intror Ht)) as [I1 I2].
      destruct (emits c g (S j) fs s) as [es s']. simpl in *.
      split; [constructor; [split; assumption|exact I1]|].
      intros _. apply I2. now right.
Qed.

Lemma tracks_length g sigs : tracks g sigs -> length sigs = length (channels g).
Proof. unfold tracks. intros <-. now rewrite length_map. Qed.

Lemma tracks_truncate g sigs : tracks g sigs -> tracks g (map Sig.truncate sigs).
Proof. unfold tracks. intros <-. rewrite map_map. reflexivity. Qed.

Lemma good_emit_fragment c g e :
  good_emit c g e ->
  tidy_fragment (c_start c) (c_stop c) g (later_fragment e).
Proof.
  intros (Ht & Hne & Hs & Hr & _). unfold tidy_fragment, later_fragment. simpl.
  rewrite length_map. repeat split; try assumption.
  - now apply tracks_length.
  - intros E. congruence.
Qed.

Lemma good_emit_first c g m sigs :
  good_emit c g (m, sigs) ->
  tidy_fragment (c_start c) (c_stop c) g (first_fragment sigs).
Proof.
  intros (Ht & Hne & Hs & Hr & ts & Hts & Htr & Hall). simpl in *.
  unfold tidy_fragment, first_fragment. simpl.
  rewrite length_map. split; [now apply tracks_length|].
  destruct sigs as [|s0 sigs].
  - repeat split; constructor.
  - pose proof Hall as Hall'. apply Forall_cons in Hall' as [[E0 _] _].
    rewrite E0. repeat split; try assumption.
    intros ->. apply Forall_map. eapply Forall_impl; [exact Hall|].
    intros s [_ Hlen]. simpl in *. now destruct (samples s).
Qed.

(** The group [cut] writes for a well-formed virtual group with sorted
    fragments is tidy. *)
Lemma produced_tidy c g :
  c_time_from_zero c = false -> bounds_ordered (c_start c) (c_stop c) ->
  channels g <> [] ->
  wf_group g -> Forall (fun f => sorted (master f)) (fragments g) ->
  Forall (tidy (c_start c) (c_stop c)) (produced c g).
Proof.
  intros Htz Ho Hch Hwf Hs.
  destruct (emits_good c g (fragments g) 0 [] Htz Ho Hch Hwf Hs (or_introl eq_refl))
    as [H1 H2].
  unfold produced.
  destruct (emits c g 0 (fragments g) []) as [[|[m sigs] es] s'] eqn:E;
    cbn [fst snd] in *.
  - destruct s' as [|s0 s']; [constructor|].
    assert (Hf : fragments g <> []).
    { intros Hf. rewrite Hf in E. simpl in E. congruence. }
    specialize (H2 (or_introl Hf)).
    remember (s0 :: s') as sg eqn:Esg. clear Esg.
    constructor; [|constructor].
    pose proof (tracks_truncate g _ H2) as Ht.
    pose proof (tracks_length g _ Ht) as Hlen. unfold tracks in Ht.
    unfold tidy, group_of. cbn [channels fragments].
    rewrite Ht. split; [exact Hch|]. split; [discriminate|].
    constructor; [|constructor].
    unfold tidy_fragment, first_fragment. cbn [channels cols master].
    rewrite length_map. split; [exact Hlen|].
    assert (Hm : match map Sig.truncate sg with
                 | [] => []
                 | s :: _ => timestamps s
                 end = []) by now destruct sg.
    rewrite Hm. split; [constructor|]. split; [constructor|].
    intros _. rewrite map_map. apply Forall_map.
    apply Forall_forall. intros; reflexivity.
  - apply Forall_cons in H1 as [Hg H1].
    constructor; [|constructor].
    pose proof Hg as (Ht & _). simpl in Ht. unfold tracks in Ht.
    unfold tidy, group_of. cbn [channels fragments].
    rewrite Ht. split; [exact Hch|]. split; [discriminate|].
    constructor.
    + pose proof (good_emit_first c g m sigs Hg) as Hf.
      unfold tidy_fragment in *. cbn [channels]. exact Hf.
    + apply Forall_map. eapply Forall_impl; [exact H1|].
      intros e He. pose proof (good_emit_fragment c g e He) as Hf.
      unfold tidy_fragment in *. cbn [channels]. exact Hf.
Qed.


End CutGroups.

(** ** [MDF.cut]: groups that are kept whole and groups that are left empty *)

Module CutWhole.
Import Engine Cut ArrayFacts SigFacts CutWrites CutSteps PlanFacts CutGroups.

(** Two groups hold the same data: the same channels, comment, time stamps
    and samples of every channel, however the data is split into
    fragments; and the same acquisition name when the channel groups of
    both files have one. *)
Definition same_data (both : bool) (g g' : Group) : Prop :=
  channels g' = channels g
  /\ comment g' = comment g
  /\ (both = true -> acq_name g' = acq_name g)
  /\ group_timestamps g' = group_timestamps g
  /\ forall k, channel_samples g' k = channel_samples g k.

Lemma same_data_arrives b g g' :
  same_data true g g' -> same_data b g (arrives b g').
Proof.
  intros (H1 & H2 & H3 & H4 & H5). unfold same_data.
  rewrite arrives_channels, arrives_comment, arrives_timestamps.
  repeat split; try assumption.
  - intros ->. now apply H3.
  - intros k. rewrite arrives_samples. apply H5.
Qed.

Definition has_cycles (f : Fragment) : bool := nonempty (master f).

Lemma first_fragment_first_yield g f :
  channels g <> [] -> length (cols f) = length (channels g) ->
  first_fragment (first_yield g f) = f.
Proof.
  intros Hch Hl. unfold first_fragment.
  rewrite first_yield_columns by exact Hl.
  pose proof (first_yield_nonempty g f Hch Hl) as Hne.
  pose proof (first_yield_timestamps g f) as Ht.
  destruct (first_yield g f) as [|s0 ss]; [congruence|].
  apply Forall_cons in Ht as [-> _]. now destruct f.
Qed.

Lemma later_fragment_first_yield g f :
  length (cols f) = length (channels g) ->
  later_fragment (master f, first_yield g f) = f.
Proof.
  intros Hl. unfold later_fragment. simpl.
  rewrite first_yield_columns by exact Hl. now destruct f.
Qed.

(** On tidy fragments every fragment with cycles is written as it is. *)
Lemma emits_whole c g : forall fs j sigs,
  c_time_from_zero c = false -> channels g <> [] ->
  Forall (tidy_fragment (c_start c) (c_stop c) g) fs ->
  (j = 0 \/ tracks g sigs) ->
  (emits c g j fs sigs).1
  = map (fun f => (master f, first_yield g f)) (List.filter has_cycles fs)
  /\ (fs <> [] \/ tracks g sigs -> tracks g (emits c g j fs sigs).2).
Proof.
  induction fs as [|f fs IH]; intros j sigs Htz Hch Hall Hj.
  - simpl. split; [reflexivity|]. intros [H|H]; [congruence|exact H].
  - apply Forall_cons in Hall as [(Hl & Hs & Hr & Hz) Hall].
    cbn [emits List.filter].
    pose proof (current_tracks g j f sigs Hl Hj) as Hcur.
    destruct (fragment_step_cases c g j f sigs Htz Hch Hl Hj)
      as [Hm|Hm Hp|Hm Hp|fs' fe' Hm Hp|fs' fe' Hm Hp Hc|fs' fe' Hm Hp Hc].
    + unfold has_cycles. rewrite Hm. simpl.
      destruct (IH (S j) _ Htz Hch Hall (or_intror Hcur)) as [I1 I2].
      split; [exact I1|]. intros _. apply I2. now right.
    + destruct (plan_inside _ _ _ Hs Hm Hr) as (a & b & E). congruence.
    + destruct (plan_inside _ _ _ Hs Hm Hr) as (a & b & E). congruence.
    + assert (Hy : tracks g (first_yield g f)) by now apply first_yield_tracks.
      destruct (IH (S j) _ Htz Hch Hall (or_intror Hy)) as [I1 I2].
      destruct (emits c g (S j) fs (first_yield g f)) as [es s'].
      assert (Hcy : has_cycles f = true).
      { unfold has_cycles. destruct (master f); [congruence|reflexivity]. }
      rewrite Hcy. simpl in *. split; [now rewrite I1|].
      intros _. apply I2. now right.
    + destruct (plan_inside _ _ _ Hs Hm Hr) as (a & b & E). congruence.
    + destruct (plan_inside _ _ _ Hs Hm Hr) as (a & b & E). congruence.
Qed.

Lemma concat_masters_filter fs :
  concat (map master (List.filter has_cycles fs)) = concat (map master fs).
Proof.
  induction fs as [|f fs IH]; simpl; [reflexivity|].
  unfold has_cycles at 1. destruct (master f) eqn:E; simpl.
  - exact IH.
  - rewrite E. simpl. now rewrite IH.
Qed.

Lemma concat_samples_filter start stop g k fs :
  Forall (tidy_fragment start stop g) fs ->
  concat (map (fun f => (nth k (cols f) ([], None)).1) (List.filter has_cycles fs))
  = concat (map (fun f => (nth k (cols f) ([], None)).1) fs).
Proof.
  induction 1 as [|f fs (_ & _ & _ & Hz) _ IH]; simpl; [reflexivity|].
  unfold has_cycles at 1. destruct (master f) eqn:E; simpl.
  - rewrite IH. specialize (Hz eq_refl).
    assert (Hk : (nth k (cols f) ([], None)).1 = []).
    { destruct (nth_in_or_default k (cols f) ([], None)) as [Hin| ->];
        [|reflexivity].
      rewrite Forall_forall in Hz. apply Hz. now apply list_elem_of_In. }
    now rewrite Hk.
  - now rewrite IH.
Qed.

Lemma map_id_fragments g fs :
  channels g <> [] ->
  Forall (fun f => length (cols f) = length (channels g)) fs ->
  map later_fragment (map (fun f => (master f, first_yield g f)) fs) = fs.
Proof.
  intros Hch. induction 1 as [|f fs Hl _ IH]; simpl; [reflexivity|].
  rewrite IH. f_equal. now apply later_fragment_first_yield.
Qed.

(** A tidy group cut at the bounds it lies between gives one group with
    the same data. *)
Lemma produced_whole c g :
  c_time_from_zero c = false -> tidy (c_start c) (c_stop c) g ->
  exists g', produced c g = [g'] /\ same_data true g g'.
Proof.
  intros Htz (Hch & Hf & Hall).
  destruct (emits_whole c g (fragments g) 0 [] Htz Hch Hall (or_introl eq_refl))
    as [H1 H2].
  specialize (H2 (or_introl Hf)).
  assert (Hlen : Forall (fun f => length (cols f) = length (channels g))
                        (fragments g)).
  { eapply Forall_impl; [exact Hall|]. now intros f (Hl & _). }
  unfold produced.
  destruct (emits c g 0 (fragments g) []) as [es s'] eqn:E. cbn [fst snd] in *.
  subst es.
  destruct (List.filter has_cycles (fragments g)) as [|f1 kept] eqn:Ek; simpl.
  - assert (Hs' : s' <> []).
    { intros ->. apply tracks_length in H2. simpl in H2.
      destruct (channels g); [congruence|discriminate]. }
    destruct s' as [|s0 s']; [congruence|].
    remember (s0 :: s') as sg eqn:Esg. clear Esg Hs'.
    eexists. split; [reflexivity|].
    pose proof (tracks_truncate g _ H2) as Ht. unfold tracks in Ht.
    unfold same_data, group_of, group_timestamps, channel_samples.
    cbn [channels fragments comment acq_name].
    rewrite Ht. split; [reflexivity|]. split; [reflexivity|].
    split; [reflexivity|]. split.
    + rewrite <- (concat_masters_filter (fragments g)), Ek. simpl.
      now destruct sg.
    + intros k.
      rewrite <- (concat_samples_filter _ _ g k (fragments g) Hall), Ek. simpl. rewrite app_nil_r, map_map.
      destruct (nth_in_or_default k (map (fun s => Sig.column (Sig.truncate s)) sg)
                                  ([], None)) as [Hin| ->]; [|reflexivity].
      apply in_map_iff in Hin as (s & <- & _). reflexivity.
  - assert (Hk : Forall (fun f => length (cols f) = length (channels g)) (f1 :: kept)).
    { rewrite <- Ek. apply Forall_forall. intros f Hin.
      apply list_elem_of_In, filter_In in Hin as [Hin _].
      rewrite Forall_forall in Hlen. now apply Hlen, list_elem_of_In. }
    apply Forall_cons in Hk as [Hk1 Hk].
    eexists. split; [reflexivity|].
    pose proof (first_yield_tracks g f1 Hk1) as Ht. unfold tracks in Ht.
    unfold same_data, group_of, group_timestamps, channel_samples.
    cbn [channels fragments comment acq_name].
    rewrite Ht, first_fragment_first_yield, map_id_fragments by assumption.
    split; [reflexivity|]. split; [reflexivity|].
    split; [reflexivity|]. split.
    + rewrite <- Ek. apply concat_masters_filter.
    + intros k. rewrite <- Ek.
      exact (concat_samples_filter _ _ g k (fragments g) Hall).
Qed.

(** Nothing of the group lies between the bounds and no bound is
    synthesized: every step skips the fragment or leaves the loop. *)
Definition out_of_range (c : Config) (f : Fragment) : Prop :=
  Forall (fun t => Sig.in_range (c_start c) (c_stop c) t = false) (master f).

Definition no_bound_inside (c : Config) (f : Fragment) : Prop :=
  c_include_ends c = false
  \/ ((forall s, c_start c = Some s -> Sig.inside_interval (master f) s = false)
      /\ (forall e, c_stop c = Some e -> Sig.inside_interval (master f) e = false)).

Lemma lead_bound_none ts start stop ie :
  (ie = false \/ forall s, start = Some s -> Sig.inside_interval ts s = false) ->
  Sig.lead_bound ts start stop ie = [].
Proof.
  unfold Sig.lead_bound. destruct start as [s|]; [|reflexivity].
  intros [->|H]; [reflexivity|]. rewrite (H s eq_refl).
  now rewrite andb_false_r.
Qed.

Lemma trail_bound_none ts start stop ie :
  (ie = false \/ forall e, stop = Some e -> Sig.inside_interval ts e = false) ->
  Sig.trail_bound ts start stop ie = [].
Proof.
  unfold Sig.trail_bound. destruct stop as [e|]; [|reflexivity].
  intros [->|H]; [reflexivity|]. rewrite (H e eq_refl).
  now rewrite andb_false_r.
Qed.

Lemma emits_nothing c g : forall fs j sigs,
  c_time_from_zero c = false -> channels g <> [] ->
  Forall (fun f => length (cols f) = length (channels g)) fs ->
  Forall (out_of_range c) fs -> Forall (no_bound_inside c) fs ->
  (j = 0 \/ tracks g sigs) ->
  (emits c g j fs sigs).1 = []
  /\ (fs <> [] \/ tracks g sigs -> tracks g (emits c g j fs sigs).2).
Proof.
  induction fs as [|f fs IH]; intros j sigs Htz Hch Hlen Hout Hin Hj.
  - simpl. split; [reflexivity|]. intros [H|H]; [congruence|exact H].
  - apply Forall_cons in Hlen as [Hl Hlen], Hout as [Ho Hout], Hin as [Hi Hin].
    cbn [emits].
    pose proof (current_tracks g j f sigs Hl Hj) as Hcur.
    assert (Hy : tracks g (first_yield g f)) by now apply first_yield_tracks.
    assert (Hcut : forall fs' fe',
               master f <> [] ->
               plan (c_start c) (c_stop c) (master f) = PKeep fs' fe' true ->
               cut_master c fs' fe' (master f) = []).
    { intros fs' fe' Hm Hp.
      destruct (plan_nothing_in_range _ _ _ _ _ _ Hm Ho Hp) as (-> & -> & _).
      apply cut_nothing; simpl; [exact Ho| |].
      - apply lead_bound_none. destruct Hi as [Hi|[Hi _]]; auto.
      - apply trail_bound_none. destruct Hi as [Hi|[_ Hi]]; auto. }
    destruct (fragment_step_cases c g j f sigs Htz Hch Hl Hj)
      as [Hm|Hm Hp|Hm Hp|fs' fe' Hm Hp|fs' fe' Hm Hp Hc|fs' fe' Hm Hp Hc].
    + destruct (IH (S j) _ Htz Hch Hlen Hout Hin (or_intror Hcur)) as [I1 I2].
      split; [exact I1|]. intros _. apply I2. now right.
    + simpl. split; [reflexivity|]. now intros _.
    + destruct (IH (S j) _ Htz Hch Hlen Hout Hin (or_intror Hcur)) as [I1 I2].
      split; [exact I1|]. intros _. apply I2. now right.
    + destruct (plan_nothing_in_range _ _ _ _ _ _ Hm Ho Hp) as (_ & _ & ? & _).
      discriminate.
    + destruct (IH (S j) _ Htz Hch Hlen Hout Hin (or_intror Hy)) as [I1 I2].
      split; [exact I1|]. intros _. apply I2. now right.
    + specialize (Hcut fs' fe' Hm Hp). congruence.
Qed.

(** The group without cycles that stands for a virtual group; it has the
    acquisition name of the group when the channel groups of both files
    have one. *)
Definition without_cycles (both : bool) (g g' : Group) : Prop :=
  channels g' = channels g
  /\ comment g' = comment g
  /\ (both = true -> acq_name g' = acq_name g)
  /\ (exists columns, fragments g' = [mkFragment [] columns]
                      /\ length columns = length (channels g)
                      /\ Forall (fun col : Column =>
                                   col.1 = []
                                   /\ (col.2 = None \/ col.2 = Some [])) columns).

Lemma without_cycles_arrives b g g' :
  without_cycles true g g' -> without_cycles b g (arrives b g').
Proof.
  intros (H1 & H2 & H3 & H4). unfold without_cycles.
  rewrite arrives_channels, arrives_comment, arrives_fragments.
  repeat split; try assumption. intros ->. now apply H3.
Qed.

Lemma produced_without_cycles c g :
  c_time_from_zero c = false -> channels g <> [] -> fragments g <> [] ->
  Forall (fun f => length (cols f) = length (channels g)) (fragments g) ->
  Forall (out_of_range c) (fragments g) ->
  Forall (no_bound_inside c) (fragments g) ->
  exists g', produced c g = [g'] /\ without_cycles true g g'.
Proof.
  intros Htz Hch Hf Hlen Hout Hin.
  destruct (emits_nothing c g (fragments g) 0 [] Htz Hch Hlen Hout Hin
                          (or_introl eq_refl)) as [H1 H2].
  specialize (H2 (or_introl Hf)).
  unfold produced.
  destruct (emits c g 0 (fragments g) []) as [es s'] eqn:E. cbn [fst snd] in *.
  subst es.
  assert (Hs' : s' <> []).
  { intros ->. apply tracks_length in H2. simpl in H2.
    destruct (channels g); [congruence|discriminate]. }
  destruct s' as [|s0 s']; [congruence|].
  remember (s0 :: s') as sg eqn:Esg. clear Esg Hs'.
  eexists. split; [reflexivity|].
  pose proof (tracks_truncate g _ H2) as Ht.
  pose proof (tracks_length g _ Ht) as Hl. unfold tracks in Ht.
  unfold without_cycles, group_of. cbn [channels fragments comment acq_name].
  rewrite Ht. split; [reflexivity|]. split; [reflexivity|].
  split; [reflexivity|].
  exists (map Sig.column (map Sig.truncate sg)). repeat split.
  - unfold first_fragment. now destruct sg.
  - now rewrite length_map.
  - rewrite map_map. apply Forall_map, Forall_forall. intros s _.
    unfold Sig.column, Sig.truncate. simpl. split; [reflexivity|].
    destruct (invalidation_bits s); simpl; auto.
Qed.

End CutWhole.

(** ** [MDF.cut]: the synthesized boundary samples *)

Module CutBounds.
Import Engine Cut ArrayFacts SigFacts CutWrites CutSteps PlanFacts CutGroups.














End CutBounds.

Module CutReach.
Import Engine Cut ArrayFacts SigFacts CutWrites CutSteps PlanFacts CutGroups CutBounds.










Lemma stream_sorted_each fs :
  sorted (concat (map master fs)) -> Forall (fun f => sorted (master f)) fs.
Proof.
  induction fs as [|f fs IH]; simpl; intros H; constructor.
  - now apply sorted_app in H as (H & _).
  - apply IH. now apply sorted_app in H as (_ & H & _).
Qed.

End CutReach.

(** ** [MDF.cut]: the whole call *)

Module CutCall.
Import Engine Cut ArrayFacts SigFacts CutWrites CutSteps PlanFacts CutGroups
       CutWhole CutBounds CutReach.

(** The arguments of a plain call: absolute bounds, time stamps as they
    are. *)
Definition config (self : MDF) (start stop : option Q) (include_ends : bool)
  : Config :=
  mkConfig start stop include_ends false 0%Q (integer_interpolation self)
           (float_interpolation self) (has_acq_name self).

Definition never : nat -> bool := fun _ => false.

(** The first item [_yield_selected_signals] gives for the group has
    signals. *)
Definition yields_signals (g : Group) : bool :=
  nonempty (channels g)
  && match fragments g with
     | f0 :: _ => nonempty (cols f0)
     | [] => false
     end.

Definition signals_of (s : Step) : list Signal :=
  match s with
  | SBreak sigs | SSkip sigs | SEmit _ sigs => sigs
  end.

Lemma update_all_length m : forall sigs columns,
  length (update_all m sigs columns) = length sigs.
Proof.
  induction sigs as [|s sigs IH]; intros [|c columns]; simpl; auto.
Qed.

Lemma step_body_length c j f sigs :
  length (signals_of (step_body c j f sigs)) = length sigs.
Proof.
  unfold step_body. destruct (master f) as [|m0 m]; [reflexivity|].
  destruct (plan _ _ _) as [| |fs fe nc]; try reflexivity.
  set (signals1 := match j with O => sigs | S _ => _ end).
  assert (H1 : length signals1 = length sigs).
  { unfold signals1. destruct j; [reflexivity|apply update_all_length]. }
  destruct (if nc then _ else m0 :: m) as [|m1 ms]; [exact H1|].
  cbn [signals_of]. destruct (c_time_from_zero c), nc;
    rewrite ?length_map; exact H1.
Qed.

Lemma emits_later_length c g fs : forall j sigs,
  length (emits c g (S j) fs sigs).2 = length sigs.
Proof.
  induction fs as [|f fs IH]; intros j sigs; [reflexivity|].
  cbn [emits]. unfold fragment_step.
  pose proof (step_body_length c (S j) f sigs) as H.
  destruct (step_body c (S j) f sigs) as [s|s|m s]; cbn [signals_of] in H.
  - exact H.
  - now rewrite IH.
  - specialize (IH (S j) s). destruct (emits c g (S (S j)) fs s) as [es s'].
    simpl in *. congruence.
Qed.

Lemma first_yield_empty g f :
  first_yield g f = [] <-> channels g = [] \/ cols f = [].
Proof.
  unfold first_yield. destruct (channels g), (cols f); simpl; split;
    intros H; try tauto; try discriminate; destruct H; discriminate.
Qed.

(** A group adds a group to the new file exactly when its first item has
    signals. *)
Lemma contribution_nonempty c g :
  nonempty (contribution c g) = yields_signals g.
Proof.
  unfold contribution, yields_signals.
  destruct (channels g) as [|ch chs] eqn:Ech; [reflexivity|].
  cbn [nonempty andb]. unfold produced.
  destruct (fragments g) as [|f0 fs]; [reflexivity|].
  cbn [emits]. unfold fragment_step.
  destruct (first_yield g f0) as [|s0 ss] eqn:Ey.
  - apply first_yield_empty in Ey as [Ey|Ey]; [congruence|]. now rewrite Ey.
  - assert (Hc : nonempty (cols f0) = true).
    { destruct (cols f0) eqn:Ec; [|reflexivity].
      assert (first_yield g f0 = []) by (apply first_yield_empty; now right).
      congruence. }
    rewrite Hc.
    pose proof (step_body_length c 0 f0 (s0 :: ss)) as H.
    destruct (step_body c 0 f0 (s0 :: ss)) as [s|s|m s]; cbn [signals_of] in H.
    + destruct s; [discriminate|reflexivity].
    + pose proof (emits_later_length c g fs 0 s) as H2.
      destruct (emits c g 1 fs s) as [[|[m' sg] es] s']; [|reflexivity].
      simpl in H2. destruct s'; [simpl in *; congruence|reflexivity].
    + destruct (emits c g 1 fs s) as [es s']. reflexivity.
Qed.

Lemma nonempty_contributions c (gs : list Group) :
  nonempty (flat_map (contribution c) gs) = existsb yields_signals gs.
Proof.
  induction gs as [|g gs IH]; [reflexivity|]. cbn [flat_map existsb].
  rewrite <- (contribution_nonempty c g), <- IH.
  now destruct (contribution c g).
Qed.

Lemma contributions_length c (gs : list Group) :
  length (flat_map (contribution c) gs) = length (List.filter yields_signals gs).
Proof.
  induction gs as [|g gs IH]; [reflexivity|].
  cbn [flat_map List.filter]. rewrite length_app, IH.
  rewrite <- (contribution_nonempty c g).
  unfold contribution. destruct (channels g); [reflexivity|].
  unfold produced. destruct (emits _ _ _ _ _) as [[|[m sg] es] [|s0 s']];
    reflexivity.
Qed.

(** A group contributes no group or one group. *)
Lemma contribution_cases c g :
  (contribution c g = [] /\ yields_signals g = false)
  \/ exists g0, contribution c g = [g0] /\ yields_signals g = true.
Proof.
  rewrite <- (contribution_nonempty c g).
  unfold contribution. destruct (channels g); [now left|].
  unfold produced. destruct (emits _ _ _ _ _) as [[|[m sg] es] [|s0 s']];
    cbn [nonempty]; eauto.
Qed.

(** The groups of the new file stand, one by one and in order, for the
    groups whose first item has signals. *)
Lemma contributions_Forall2 c b (R : Group -> Group -> Prop) (gs : list Group) :
  (forall g g0, In g gs -> contribution c g = [g0] -> R g (arrives b g0)) ->
  Forall2 R (List.filter yields_signals gs)
          (map (arrives b) (flat_map (contribution c) gs)).
Proof.
  induction gs as [|g gs IH]; intros H; [constructor|].
  cbn [flat_map List.filter]. rewrite map_app.
  destruct (contribution_cases c g) as [[E ->]|(g0 & E & ->)]; rewrite E.
  - apply IH. intros g1 g2 Hin. apply H. now right.
  - cbn [map app]. constructor.
    + apply H; [now left|exact E].
    + apply IH. intros g1 g2 Hin. apply H. now right.
Qed.

(** The version of the new file. *)
Definition out_version (self : MDF) (version' : option string) : string :=
  match version' with
  | None => version self
  | Some v => validate_version_argument v
  end.

(** The channel groups of the new file and those of [self] both have the
    attribute [acq_name]. *)
Definition carried (self : MDF) (version' : option string) : bool :=
  is_v4 (out_version self version') && is_v4 (version self).

(** The groups of the new file, in terms of the groups of [self]. *)
Definition written (self : MDF) (start stop : option Q) (version' : option string)
    (include_ends : bool) : list Group :=
  map (arrives (carried self version'))
      (flat_map (contribution (config self start stop include_ends)) (groups self)).

Lemma cut_returns self start stop v ie terminate out' self' :
  cut self start stop 0 v ie false terminate = (Return out', self') ->
  groups out' = written self start stop v ie
  /\ groups out' <> []
  /\ self' = set_copy_on_get true self
  /\ version out' = out_version self v.
Proof.
  unfold cut. cbn [apply_whence Z.eqb].
  match goal with
  | |- context [cut_groups ?c ?t ?i ?gs ?st] =>
      destruct (cut_groups c t i gs st) as [st'|st'] eqn:E
  end; [|discriminate].
  apply cut_groups_done in E as [E1 E2].
  cbn [named out groups set_groups orb set_copy_on_get set_start_time new_from] in *.
  destruct (named st') eqn:En; [|discriminate].
  intros [= <- <-]. rewrite E1. cbn [groups set_groups app].
  change (has_acq_name (set_copy_on_get false self)) with (has_acq_name self)
    in *.
  cbn [integer_interpolation float_interpolation] in *.
  split; [reflexivity|]. split; [|split; reflexivity].
  intros Hnil. apply map_eq_nil in Hnil.
  rewrite Hnil in E2. discriminate.
Qed.

Lemma cut_runs self start stop v ie :
  flat_map (contribution (config self start stop ie)) (groups self) <> [] ->
  exists out',
    cut self start stop 0 v ie false never = (Return out', set_copy_on_get true self)
    /\ groups out' = written self start stop v ie
    /\ version out' = out_version self v.
Proof.
  intros Hne. unfold cut. cbn [apply_whence Z.eqb].
  match goal with
  | |- context [cut_groups ?c ?t ?i ?gs ?st] =>
      destruct (cut_groups_never c gs i st) as [st' E]
  end.
  unfold never. rewrite E.
  apply cut_groups_done in E as [E1 E2].
  cbn [named out groups set_groups orb set_copy_on_get set_start_time new_from] in *.
  unfold config in Hne. cbn [integer_interpolation float_interpolation] in *.
  change (has_acq_name (set_copy_on_get false self)) with (has_acq_name self)
    in *.
  rewrite E2.
  destruct (flat_map _ (groups self)) eqn:Ef; [congruence|].
  simpl. eexists. split; [reflexivity|]. split; [|now rewrite E1].
  rewrite E1. unfold written, config. rewrite Ef. reflexivity.
Qed.

(** A group of the new file is what a group of [self] contributes. *)
Lemma written_In self start stop v ie g' :
  In g' (written self start stop v ie) ->
  exists g g0, In g (groups self)
               /\ In g0 (contribution (config self start stop ie) g)
               /\ g' = arrives (carried self v) g0.
Proof.
  unfold written. intros H. apply in_map_iff in H as (g0 & <- & H).
  apply in_flat_map in H as (g & Hg & H). eauto.
Qed.

Definition monotonic (g : Group) : Prop := Sorted Qle (group_timestamps g).

Lemma monotonic_fragments g :
  monotonic g -> Forall (fun f => sorted (master f)) (fragments g).
Proof.
  intros H. apply stream_sorted_each. now apply Sorted_sorted.
Qed.

Lemma tidy_arrives start stop b g :
  tidy start stop g -> tidy start stop (arrives b g).
Proof. now destruct b. Qed.

(** Every group of the file [cut] gives for ordered bounds is tidy. *)
Lemma cut_output_tidy self start stop v ie terminate out' self' :
  bounds_ordered start stop ->
  Forall wf_group (groups self) -> Forall monotonic (groups self) ->
  cut self start stop 0 v ie false terminate = (Return out', self') ->
  Forall (tidy start stop) (groups out').
Proof.
  intros Ho Hwf Hmono H. apply cut_returns in H as (-> & _ & _).
  apply Forall_forall. intros g' Hin.
  apply list_elem_of_In, written_In in Hin as (g & g0 & Hg & Hin & ->).
  apply tidy_arrives.
  unfold contribution in Hin. destruct (channels g) eqn:Ech; [destruct Hin|].
  rewrite Forall_forall in Hwf, Hmono.
  apply list_elem_of_In in Hg.
  assert (Ht : Forall (tidy start stop) (produced (config self start stop ie) g)).
  { apply (produced_tidy (config self start stop ie) g eq_refl).
    - exact Ho.
    - congruence.
    - auto.
    - apply monotonic_fragments. auto. }
  rewrite Forall_forall in Ht. now apply Ht, list_elem_of_In.
Qed.

End CutCall.

(** ** [MDF.cut]: the properties of the specification *)

Module CutProperties.
Import Engine Cut ArrayFacts SigFacts CutWrites CutSteps PlanFacts CutGroups
       CutWhole CutBounds CutReach CutCall Samples.


Ltac sorted_list := repeat (constructor; try (unfold Qle; simpl; lia)).




(** C5, as the specification states it, fails: no sample of the group lies
    between 1/2 and 3/4, and the group of the file that is given has two
    cycles, the samples synthesized at the bounds. *)
Lemma cut_empty_interval_inside_a_fragment_has_cycles :
  Forall (fun t => Sig.in_range (Some (1 # 2)) (Some (3 # 4)) t = false)
         (flat_map group_timestamps (groups one_fragment))
  /\ exists out',
       cut one_fragment (Some (1 # 2)) (Some (3 # 4)) 0 None true false never
       = (Return out', set_copy_on_get true one_fragment)
       /\ map group_timestamps (groups out') = [[1 # 2; 3 # 4]].
Proof.
  split; [repeat constructor|].
  eexists. split; [vm_compute; reflexivity|reflexivity].
Qed.

(** C5, amended: when no sample of a virtual group (with included
    channels, at least one fragment and one column per channel) lies
    between the bounds, and [include_ends] is off or no bound falls
    strictly inside a sampling interval of one of its fragments, a call
    that is not terminated returns a file, and at the position of the
    group among the groups whose first item has signals the file has the
    group without cycles: the same channels and comment, the acquisition
    name when both files have one, and no samples, time stamps or
    invalidation bits. *)
Theorem cut_empty_interval_gives_group_without_cycles :
  forall (self : MDF) (start stop : option Q) (version' : option string)
         (include_ends : bool) (g : Group),
    In g (groups self) -> channels g <> [] -> fragments g <> [] ->
    Forall (fun f => length (cols f) = length (channels g)) (fragments g) ->
    (forall t, In t (group_timestamps g) -> Sig.in_range start stop t = false) ->
    (include_ends = false
     \/ forall f b, In f (fragments g) -> start = Some b \/ stop = Some b ->
                    Sig.inside_interval (master f) b = false) ->
    exists out',
      cut self start stop 0 version' include_ends false never
      = (Return out', set_copy_on_get true self)
      /\ exists k g',
           List.filter yields_signals (groups self) !! k = Some g
           /\ groups out' !! k = Some g'
           /\ without_cycles (carried self version') g g'.
Proof.
  intros self start stop v ie g Hg Hch Hfr Hlen Hnone Hends.
  set (c := config self start stop ie).
  assert (Hout : Forall (out_of_range c) (fragments g)).
  { apply Forall_forall. intros f Hf. apply list_elem_of_In in Hf.
    unfold out_of_range. apply Forall_forall. intros t Ht.
    apply list_elem_of_In in Ht. apply Hnone. unfold group_timestamps.
    apply in_concat. exists (master f). split; [now apply in_map|exact Ht]. }
  assert (Hin : Forall (no_bound_inside c) (fragments g)).
  { apply Forall_forall. intros f Hf. apply list_elem_of_In in Hf.
    unfold no_bound_inside. simpl. destruct Hends as [->|Hends]; [now left|].
    right. split; intros b Hb; apply (Hends f b); auto. }
  destruct (produced_without_cycles c g eq_refl Hch Hfr Hlen Hout Hin)
    as (g0 & Hp & Hw).
  assert (Hc : contribution c g = [g0]) by now rewrite contribution_produced.
  assert (Hy : yields_signals g = true).
  { destruct (contribution_cases c g) as [[E _]|(? & _ & E)]; [congruence|exact E]. }
  destruct (cut_runs self start stop v ie) as (out' & Hcut & Hgroups & _).
  { fold c. intros E.
    assert (Hmem : In g0 (flat_map (contribution c) (groups self))).
    { apply in_flat_map. exists g. split; [exact Hg|]. rewrite Hc. now left. }
    rewrite E in Hmem. destruct Hmem. }
  exists out'. split; [exact Hcut|].
  assert (Hall : Forall2 (fun g1 g1' => g1 = g ->
                                        without_cycles (carried self v) g g1')
                         (List.filter yields_signals (groups self)) (groups out')).
  { rewrite Hgroups. apply contributions_Forall2. intros g1 g2 _ Hc1 ->.
    fold c in Hc1. rewrite Hc in Hc1. injection Hc1 as <-.
    now apply without_cycles_arrives. }
  assert (Hmem : In g (List.filter yields_signals (groups self))).
  { apply filter_In. split; assumption. }
  apply list_elem_of_In, list_elem_of_lookup_1 in Hmem as [k Hk].
  destruct (Forall2_lookup_l _ _ _ _ _ Hall Hk) as (g' & Hk' & Hr).
  exists k, g'. split; [exact Hk|]. split; [exact Hk'|]. now apply Hr.
Qed.

Lemma cut_empty_interval_witness :
  exists out',
    cut one_fragment (Some 5%Q) (Some 6%Q) 0 None true false never
    = (Return out', set_copy_on_get true one_fragment)
    /\ exists k g',
         List.filter yields_signals (groups one_fragment) !! k
         = Some (group_of_fragments [fragment_at [0; 1; 2]%Q])
         /\ groups out' !! k = Some g'
         /\ without_cycles (carried one_fragment None)
                           (group_of_fragments [fragment_at [0; 1; 2]%Q]) g'.
Proof.
  apply (cut_empty_interval_gives_group_without_cycles
           one_fragment (Some 5%Q) (Some 6%Q) None true
           (group_of_fragments [fragment_at [0; 1; 2]%Q])).
  - simpl. now left.
  - simpl. discriminate.
  - simpl. discriminate.
  - repeat constructor.
  - simpl. intros t [<-|[<-|[<-|[]]]]; reflexivity.
  - right. simpl. intros f b [<-|[]] [[= <-]|[= <-]]; reflexivity.
Defined.

(** C6, as the specification states it, fails for bounds given in the wrong
    order: with [include_ends] the first [cut(3/2, 1/2)] gives the two
    samples synthesized at the bounds, [3/2] before [1/2], and the second
    [cut(3/2, 1/2)] on that file leaves the loop at the first fragment and
    gives a group without cycles. *)
Lemma cut_twice_with_bounds_in_the_wrong_order :
  exists out1 out2,
    cut one_fragment (Some (3 # 2)) (Some (1 # 2)) 0 None true false never
    = (Return out1, set_copy_on_get true one_fragment)
    /\ map group_timestamps (groups out1) = [[3 # 2; 1 # 2]]
    /\ cut out1 (Some (3 # 2)) (Some (1 # 2)) 0 None true false never
       = (Return out2, set_copy_on_get true out1)
    /\ map group_timestamps (groups out2) = [[]].
Proof.
  eexists. eexists. split; [vm_compute; reflexivity|].
  split; [reflexivity|]. split; [vm_compute; reflexivity|]. reflexivity.
Qed.

(** C6, amended: for a file whose fragments are well formed and whose
    groups have monotonic time stamps, and bounds with [a <= b],
    [cut(a, b)] on the file [cut(a, b)] returned returns a file, and the
    groups of that file hold the same data as the groups of the first one,
    one by one: the same channels and comment, the same time stamps and,
    for every channel, the same samples (and the same acquisition name
    when both files have one). *)
Theorem cut_twice_is_cut_once :
  forall (self : MDF) (a b : option Q) (version' version'' : option string)
         (include_ends : bool) (terminate : nat -> bool) (out1 self1 : MDF),
    Forall wf_group (groups self) ->
    Forall monotonic (groups self) ->
    bounds_ordered a b ->
    cut self a b 0 version' include_ends false terminate = (Return out1, self1) ->
    exists out2,
      cut out1 a b 0 version'' include_ends false never
      = (Return out2, set_copy_on_get true out1)
      /\ Forall2 (same_data (carried out1 version'')) (groups out1) (groups out2).
Proof.
  intros self a b v v' ie terminate out1 self1 Hwf Hmono Hord Hcut.
  pose proof (cut_output_tidy _ _ _ _ _ _ _ _ Hord Hwf Hmono Hcut) as Ht.
  apply cut_returns in Hcut as (_ & Hne & _).
  set (c := config out1 a b ie).
  assert (Hall : Forall2 (same_data (carried out1 v')) (groups out1)
                         (map (arrives (carried out1 v'))
                              (flat_map (contribution c) (groups out1)))).
  { clear Hne. induction Ht as [|g gs Hg _ IH]; simpl; [constructor|].
    destruct (produced_whole c g eq_refl Hg) as (g' & Hp & Hs).
    unfold contribution at 1. destruct Hg as (Hch & _).
    destruct (channels g) eqn:E; [congruence|].
    rewrite Hp. simpl. constructor; [|exact IH].
    now apply same_data_arrives. }
  destruct (cut_runs out1 a b v' ie) as (out2 & Hcut2 & Hgroups & _).
  { fold c. intros E. rewrite E in Hall. inversion Hall. congruence. }
  exists out2. split; [exact Hcut2|]. now rewrite Hgroups.
Qed.

Lemma cut_twice_witness :
  exists out1 out2,
    cut two_fragments (Some (1 # 2)) (Some (11 # 2)) 0 None true false never
    = (Return out1, set_copy_on_get true two_fragments)
    /\ cut out1 (Some (1 # 2)) (Some (11 # 2)) 0 None true false never
       = (Return out2, set_copy_on_get true out1)
    /\ Forall2 (same_data (carried out1 None)) (groups out1) (groups out2).
Proof.
  eexists. 
  assert (H : cut two_fragments (Some (1 # 2)) (Some (11 # 2)) 0 None true false never
              = (Return ((fun r => match r with Return o => o | _ => two_fragments end)
                           (cut two_fragments (Some (1 # 2)) (Some (11 # 2)) 0 None
                                true false never).1),
                 set_copy_on_get true two_fragments)).
  { vm_compute. reflexivity. }
  destruct (cut_twice_is_cut_once
              two_fragments (Some (1 # 2)) (Some (11 # 2)) None None true never
              _ _ 
              ltac:(repeat constructor)
              ltac:(unfold monotonic; simpl; constructor; [|constructor]; sorted_list)
              ltac:(intros s e [= <-] [= <-]; unfold Qle; simpl; lia)
              H) as (out2 & H2 & Hsame).
  exists out2. split; [exact H|]. split; assumption.
Defined.

End CutProperties.

(** ** Cooperative cancellation *)

Module Cancellation.
Import Engine Samples.

(** The number of virtual-group iterations that are over when the first
    [k + 1] files have been worked through. *)
Definition boundary (files : list MDF) (k : nat) : nat :=
  sum_list (map (fun m => length (groups m)) (take (S k) files)).

Lemma shift_exists (P : nat -> Prop) (n : nat) :
  (exists k, k < S n /\ P k) <-> P 0 \/ exists k, k < n /\ P (S k).
Proof.
  split.
  - intros ([|k] & Hk & HP); [now left|]. right. exists k. split; [lia|exact HP].
  - intros [HP|(k & Hk & HP)]; [exists 0|exists (S k)]; split; auto; lia.
Qed.

Lemma convert_groups_aborted oh terminate gs : forall i st,
  (exists st', Convert.convert_groups oh terminate i gs st = Aborted st')
  <-> (exists k, k < length gs /\ terminate (S (i + k)) = true).
Proof.
  induction gs as [|g gs IH]; intros i st; simpl.
  - split; [intros (? & [=])|intros (k & Hk & _); lia].
  - rewrite shift_exists, Nat.add_0_r. destruct (terminate (S i)) eqn:E.
    + split; [now left|eauto].
    + rewrite IH. split.
      * intros (k & Hk & H). right. exists k. split; [exact Hk|].
        now rewrite Nat.add_succ_r.
      * intros [H|(k & Hk & H)]; [discriminate|].
        exists k. split; [exact Hk|]. now rewrite Nat.add_succ_r in H.
Qed.

Lemma filter_groups_aborted self terminate gps : forall i st,
  (exists st', Filter.filter_groups self terminate i gps st = Aborted st')
  <-> (exists k, k < length gps /\ terminate (S (i + k)) = true).
Proof.
  induction gps as [|[group_index positions] gps IH]; intros i st; simpl.
  - split; [intros (? & [=])|intros (k & Hk & _); lia].
  - rewrite shift_exists, Nat.add_0_r. destruct (terminate (S i)) eqn:E.
    + split; [now left|eauto].
    + rewrite IH. split.
      * intros (k & Hk & H). right. exists k. split; [exact Hk|].
        now rewrite Nat.add_succ_r.
      * intros [H|(k & Hk & H)]; [discriminate|].
        exists k. split; [exact Hk|]. now rewrite Nat.add_succ_r in H.
Qed.

Lemma cut_groups_aborted c terminate gs : forall i st,
  (exists st', Cut.cut_groups c terminate i gs st = Aborted st')
  <-> (exists k, k < length gs /\ terminate (S (i + k)) = true).
Proof.
  induction gs as [|g gs IH]; intros i st; simpl.
  - split; [intros (? & [=])|intros (k & Hk & _); lia].
  - rewrite shift_exists, Nat.add_0_r. destruct (terminate (S i)) eqn:E.
    + split; [now left|eauto].
    + rewrite IH. split.
      * intros (k & Hk & H). right. exists k. split; [exact Hk|].
        now rewrite Nat.add_succ_r.
      * intros [H|(k & Hk & H)]; [discriminate|].
        exists k. split; [exact Hk|]. now rewrite Nat.add_succ_r in H.
Qed.

Lemma stack_groups_clock sync oh parent offset gs : forall i st,
  Stack.clock (Stack.stack_groups sync oh parent offset i gs st)
  = Stack.clock st + length gs.
Proof.
  induction gs as [|g gs IH]; intros i st; simpl; [lia|].
  rewrite IH. unfold Stack.stack_group.
  destruct (Stack.dg_cntr _); simpl; lia.
Qed.

Lemma boundary_cons m files k :
  boundary (m :: files) (S k) = length (groups m) + boundary files k.
Proof. reflexivity. Qed.

Lemma boundary_first m files :
  boundary (m :: files) 0 = length (groups m).
Proof. unfold boundary. simpl. lia. Qed.

Lemma stack_files_aborted sync parent_of terminate files :
  forall offsets mdf_index st,
  length offsets = length files ->
  (exists st' files', Stack.stack_files sync parent_of terminate mdf_index
                                        (zip offsets files) st
                      = (Aborted st', files'))
  <-> (exists k, k < length files
                 /\ terminate (Stack.clock st + boundary files k) = true).
Proof.
  induction files as [|m files IH]; intros [|offset offsets] mdf_index st Hlen;
    simpl in Hlen; try discriminate.
  - simpl. split; [intros (? & ? & [=])|intros (k & Hk & _); simpl in Hk; lia].
  - cbn [zip zip_with Stack.stack_files length]. rewrite shift_exists.
    rewrite boundary_first.
    set (st1 := Stack.stack_groups sync _ _ offset 0 _ st).
    assert (Hclock : Stack.clock st1 = Stack.clock st + length (groups m)).
    { unfold st1. now rewrite stack_groups_clock. }
    rewrite Hclock. destruct (terminate (Stack.clock st + length (groups m))) eqn:E.
    + split; [now left|eauto].
    + specialize (IH offsets (S mdf_index) st1 ltac:(lia)).
      fold (zip offsets files).
      destruct (Stack.stack_files sync parent_of terminate (S mdf_index)
                                  (zip offsets files) st1)
        as [r rest] eqn:Er.
      split.
      * intros (st' & files' & [= -> <-]). right.
        destruct (proj1 IH) as (k & Hk & H); [eauto|].
        exists k. split; [exact Hk|].
        rewrite boundary_cons. rewrite Hclock in H.
        now rewrite Nat.add_assoc.
      * intros [H|(k & Hk & H)]; [discriminate|].
        rewrite boundary_cons, Nat.add_assoc, <- Hclock in H.
        destruct (proj2 IH) as (st' & files' & [= -> <-]); [eauto|]. eauto.
Qed.

Lemma cat_groups_clock p oh mdf_index offset gs : forall i st st',
  Concatenate.cat_groups p oh mdf_index offset i gs st = inr st' ->
  Concatenate.clock st' = Concatenate.clock st + length gs.
Proof.
  induction gs as [|g gs IH]; intros i st st' H; simpl in *.
  - injection H as <-. lia.
  - destruct (Concatenate.cat_group p oh mdf_index offset i g st) as [e|st1] eqn:E;
      [discriminate|].
    apply IH in H. rewrite H. unfold Concatenate.cat_group in E.
    destruct mdf_index.
    + destruct (Concatenate.cat_fragments _ _ _ _ _ _ _ _ _ _); [discriminate|].
      injection E as <-. simpl. lia.
    + destruct (Concatenate.check_names _ _ _); [discriminate|].
      destruct (Concatenate.cat_fragments _ _ _ _ _ _ _ _ _ _); [discriminate|].
      injection E as <-. simpl. lia.
Qed.

Lemma cat_file_clock p mdf_index offset mdf st st' mdf' :
  Concatenate.cat_file p mdf_index offset mdf st = (inr st', mdf') ->
  Concatenate.clock st' = Concatenate.clock st + length (groups mdf).
Proof.
  unfold Concatenate.cat_file. cbn [groups set_copy_on_get].
  destruct mdf_index.
  - destruct (Concatenate.cat_groups _ _ _ _ _ _ _) as [e|st3] eqn:E; [discriminate|].
    intros [= <- _]. apply cat_groups_clock in E. simpl in E. exact E.
  - destruct (bool_decide _); [|discriminate].
    destruct (Concatenate.cat_groups _ _ _ _ _ _ _) as [e|st3] eqn:E; [discriminate|].
    intros [= <- _]. apply cat_groups_clock in E. exact E.
Qed.

Lemma cat_files_terminated p terminate files : forall offsets mdf_index st st' files',
  length offsets = length files ->
  Concatenate.cat_files p terminate mdf_index (zip offsets files) st
  = (Concatenate.Terminated st', files') ->
  exists k, k < length files
            /\ terminate (Concatenate.clock st + boundary files k) = true.
Proof.
  induction files as [|m files IH]; intros [|offset offsets] mdf_index st st' files' Hlen;
    simpl in Hlen; try discriminate.
  cbn [zip zip_with Concatenate.cat_files length]. fold (zip offsets files).
  destruct (Concatenate.cat_file p mdf_index offset m st) as [[e|st1] m'] eqn:E;
    [intros [=]|].
  apply cat_file_clock in E.
  destruct (terminate (Concatenate.clock st1)) eqn:Et.
  - intros _. exists 0. split; [lia|]. rewrite boundary_first. now rewrite <- E.
  - destruct (Concatenate.cat_files p terminate (S mdf_index) (zip offsets files) st1)
      as [r rest] eqn:Er.
    intros [= -> <-].
    destruct (IH offsets (S mdf_index) st1 st' rest ltac:(lia) Er) as (k & Hk & H).
    exists (S k). split; [lia|].
    rewrite boundary_cons, Nat.add_assoc, <- E. exact H.
Qed.

Lemma cat_files_finished p terminate files : forall offsets mdf_index st st' files',
  length offsets = length files ->
  Concatenate.cat_files p terminate mdf_index (zip offsets files) st
  = (Concatenate.Finished st', files') ->
  forall k, k < length files ->
            terminate (Concatenate.clock st + boundary files k) = false.
Proof.
  induction files as [|m files IH]; intros [|offset offsets] mdf_index st st' files' Hlen;
    simpl in Hlen; try discriminate.
  - simpl. intros _ k Hk. lia.
  - cbn [zip zip_with Concatenate.cat_files length]. fold (zip offsets files).
    destruct (Concatenate.cat_file p mdf_index offset m st) as [[e|st1] m'] eqn:E;
      [intros [=]|].
    apply cat_file_clock in E.
    destruct (terminate (Concatenate.clock st1)) eqn:Et; [intros [=]|].
    destruct (Concatenate.cat_files p terminate (S mdf_index) (zip offsets files) st1)
      as [r rest] eqn:Er.
    intros [= -> <-] [|k] Hk.
    + rewrite boundary_first, <- E. exact Et.
    + rewrite boundary_cons, Nat.add_assoc, <- E.
      apply (IH offsets (S mdf_index) st1 st' rest ltac:(lia) Er). lia.
Qed.

Lemma offsets_length sync files :
  length (Concatenate.offsets sync files) = length files.
Proof. unfold Concatenate.offsets. destruct sync; now rewrite length_map. Qed.

Lemma stack_offsets_length sync files :
  length (Stack.offsets sync files) = length files.
Proof. unfold Stack.offsets. destruct sync; now rewrite length_map. Qed.

(** C8, as the specification states it, fails. The flag is set from the
    first virtual-group boundary on. [cut] leaves at that boundary, with
    one group written; [concatenate] works through the second group of
    the file as well and leaves at the end of the file. *)
Lemma terminate_flag_not_seen_at_every_group_boundary :
  always 1 = true
  /\ (exists st,
        Cut.cut_groups (Cut.mkConfig None None true false 0%Q 0 1 true) always 0
                       (groups two_groups)
                       (Cut.mkLoop 0 [] (new_from "4.10" two_groups) 0 false)
        = Aborted st
        /\ length (groups (Cut.out st)) = 1)
  /\ (exists st files',
        Concatenate.cat_files (Concatenate.mkParams false false false) always 0
                              [(0%Q, two_groups)]
                              (Concatenate.mkSt (new_from "4.10" two_groups)
                                                [] 0 [] ∅ 0)
        = (Concatenate.Terminated st, files')
        /\ length (groups (Concatenate.merged st)) = 2
        /\ Concatenate.clock st = 2).
Proof.
  split; [reflexivity|]. split.
  - eexists. split; [vm_compute; reflexivity|reflexivity].
  - eexists _, _. split; [vm_compute; reflexivity|]. split; reflexivity.
Qed.

(** C8, amended: a structural operation returns [None], and not an
    exception, exactly when it finds the terminate flag set at one of the
    places it looks at it: [convert], [filter] and [cut] after every
    virtual group, [stack] and [concatenate] after every file
    ([concatenate] may raise for a file of different structure before it
    looks). *)
Theorem terminate_flag_is_seen_at_group_or_file_boundaries :
  (forall self version' terminate,
      (exists self', Convert.convert self version' terminate = (ReturnNone, self'))
      <-> (exists k, k < length (groups self) /\ terminate (S k) = true))
  /\ (forall self gps version' terminate,
         (exists self', Filter.filter self gps version' terminate = (ReturnNone, self'))
         <-> (exists k, k < length gps /\ terminate (S k) = true))
  /\ (forall self start stop whence version' include_ends terminate,
         (exists self', Cut.cut self start stop whence version' include_ends false
                                terminate = (ReturnNone, self'))
         <-> (exists k, k < length (groups self) /\ terminate (S k) = true))
  /\ (forall parent_of files version' sync terminate,
         (exists files', Stack.stack parent_of files version' sync terminate
                         = (ReturnNone, files'))
         <-> (exists k, k < length files /\ terminate (boundary files k) = true))
  /\ (forall files version' p terminate,
         ((exists files', Concatenate.concatenate files version' p terminate
                          = (ReturnNone, files'))
          -> exists k, k < length files /\ terminate (boundary files k) = true)
         /\ ((exists k, k < length files /\ terminate (boundary files k) = true)
             -> forall merged files',
                 Concatenate.concatenate files version' p terminate
                 <> (Return merged, files'))).
Proof.
  split; [|split; [|split; [|split]]].
  - intros self v terminate. unfold Convert.convert.
    rewrite <- (convert_groups_aborted (has_acq_name (set_copy_on_get false self))
                  terminate (groups self) 0
                  (Convert.mkLoop (set_start_time (start_time self)
                                     (new_from (validate_version_argument v) self)) 0)).
    cbn [groups set_copy_on_get].
    destruct (Convert.convert_groups _ _ _ _ _) as [st|st]; split.
    + intros (? & [=]).
    + intros (? & [=]).
    + eauto.
    + eauto.
  - intros self gps v terminate. unfold Filter.filter.
    match goal with
    | |- context [Filter.filter_groups ?s ?t ?i ?g ?st] =>
        rewrite <- (filter_groups_aborted s t g i st);
        destruct (Filter.filter_groups s t i g st) as [st'|st']
    end; split.
    + intros (? & [=]).
    + intros (? & [=]).
    + eauto.
    + eauto.
  - intros self start stop whence v ie terminate. unfold Cut.cut.
    match goal with
    | |- context [Cut.cut_groups ?c ?t ?i ?g ?st] =>
        pose proof (cut_groups_aborted c t g i st) as H;
        destruct (Cut.cut_groups c t i g st) as [st'|st']
    end; cbn [groups set_copy_on_get] in H; rewrite <- H; split.
    + destruct (Cut.named st'); intros (? & [=]).
    + intros (? & [=]).
    + eauto.
    + eauto.
  - intros parent_of files v sync terminate. unfold Stack.stack.
    destruct files as [|mdf0 files'] eqn:Ef.
    + split; [intros (? & [=])|intros (k & Hk & _); simpl in Hk; lia].
    + rewrite <- Ef.
      match goal with
      | |- context [Stack.stack_files ?s ?po ?t ?i ?fs ?st] =>
          pose proof (stack_files_aborted s po t files (Stack.offsets s files) i st
                        (stack_offsets_length s files)) as H;
          destruct (Stack.stack_files s po t i fs st) as [[st'|st'] files'']
      end; cbn [Stack.clock Nat.add] in H; rewrite <- H; split.
      * intros (? & [=]).
      * intros (? & ? & [=]).
      * eauto.
      * eauto.
  - intros files v p terminate. unfold Concatenate.concatenate.
    destruct files as [|mdf0 files'] eqn:Ef.
    + split; [intros (? & [=])|intros (k & Hk & _); simpl in Hk; lia].
    + rewrite <- Ef.
      match goal with
      | |- context [Concatenate.cat_files ?p ?t ?i ?fs ?st] =>
          pose proof (cat_files_terminated p t files
                        (Concatenate.offsets (Concatenate.p_sync p) files) i st) as HT;
          pose proof (cat_files_finished p t files
                        (Concatenate.offsets (Concatenate.p_sync p) files) i st) as HF;
          destruct (Concatenate.cat_files p t i fs st) as [[st'|st'|e] files'']
      end; cbn [Concatenate.clock Nat.add] in HT, HF; split.
      * intros (? & [=]).
      * intros (k & Hk & H) merged files3 _.
        rewrite (HF st' files'' (offsets_length _ _) eq_refl k Hk) in H.
        discriminate.
      * intros _. exact (HT st' files'' (offsets_length _ _) eq_refl).
      * intros _ merged files3 [=].
      * intros (? & [=]).
      * intros _ merged files3 [=].
Qed.

(** C9 at the failing input: the flag is set, the call returns [None], and
    the instance, which had [copy_on_get] on, is left with [copy_on_get]
    off. The same holds for [convert], [filter] and
    [cleanup_timestamps]. *)
Lemma terminated_calls_leave_copy_on_get_off :
  copy_on_get two_groups = true
  /\ Cut.cut two_groups None None 0 None true false always
     = (ReturnNone, set_copy_on_get false two_groups)
  /\ Convert.convert two_groups "4.10" always
     = (ReturnNone, set_copy_on_get false two_groups)
  /\ Filter.filter two_groups [(0, [0])] None always
     = (ReturnNone, set_copy_on_get false two_groups)
  /\ Cleanup.cleanup_timestamps two_groups (fun t => (true, map (fun _ => true) t))
                                None always
     = (ReturnNone, set_copy_on_get false two_groups).
Proof. repeat split; vm_compute; reflexivity. Qed.

(** On the other return paths [copy_on_get] is on: after a call that
    returns a file, and after the files of [concatenate] and [stack] have
    been worked through, also when the flag ends the call. *)
Lemma returning_cut_leaves_copy_on_get_on self start stop whence v ie tz terminate out' self' :
  Cut.cut self start stop whence v ie tz terminate = (Return out', self') ->
  copy_on_get self' = true.
Proof.
  unfold Cut.cut.
  destruct (if tz then _ else _) as [[delta out1]|]; [|intros [=]].
  destruct (Cut.cut_groups _ _ _ _ _) as [st|st]; [|intros [=]].
  destruct (Cut.named st); intros [= _ <-]. reflexivity.
Qed.

Lemma terminated_stack_leaves_copy_on_get_on :
  Stack.stack (fun _ => "") [two_groups] "4.10" false always
  = (ReturnNone, [set_copy_on_get true two_groups]).
Proof. vm_compute. reflexivity. Qed.

Lemma terminated_concatenate_leaves_copy_on_get_on :
  Concatenate.concatenate [two_groups] "4.10"
                          (Concatenate.mkParams false false false) always
  = (ReturnNone, [set_copy_on_get true two_groups]).
Proof. vm_compute. reflexivity. Qed.

End Cancellation.

(** ** [MDF.resample] *)

Module ResampleFacts.
Import Engine Resample Samples CutWrites.

Lemma interp_timestamps sig raster im fm :
  timestamps (Sig.interp sig raster im fm) = raster.
Proof. reflexivity. Qed.

Lemma interp_channel sig raster im fm :
  channel_of (Sig.interp sig raster im fm) = channel_of sig.
Proof. reflexivity. Qed.

(** [select] on all channels of a group of the file gives one assembled
    signal per channel. *)
Lemma select_items self gp_index g :
  groups self !! gp_index = Some g ->
  forall (chs : list Channel) (base : nat),
    (forall k ch, chs !! k = Some ch -> channels g !! (base + k) = Some ch) ->
    mapM (fun '(gp, ch_index) =>
            g' ← groups self !! gp;
            ch ← channels g' !! ch_index;
            Some (assemble g' ch_index ch))
         (imap (fun k _ => (gp_index, base + k)) chs)
    = Some (imap (fun k ch => assemble g (base + k) ch) chs).
Proof.
  intros Hg. induction chs as [|ch chs IH]; intros base Hch; [reflexivity|].
  cbn [imap mapM]. rewrite Hg. simpl.
  rewrite (Hch 0 ch eq_refl). simpl.
  assert (E1 : imap ((fun k _ => (gp_index, base + k)) ∘ S) chs
               = imap (fun k (_ : Channel) => (gp_index, S base + k)) chs).
  { apply imap_ext. intros k x _. simpl. f_equal. lia. }
  assert (E2 : imap ((fun k ch' => assemble g (base + k) ch') ∘ S) chs
               = imap (fun k ch' => assemble g (S base + k) ch') chs).
  { apply imap_ext. intros k x _. simpl. f_equal. lia. }
  rewrite E1, E2, IH; [reflexivity|].
  intros k ch' Hk. replace (S base + k) with (base + S k) by lia.
  now apply Hch.
Qed.

Lemma select_group self gp_index g :
  groups self !! gp_index = Some g ->
  select self (imap (fun ch_index _ => (gp_index, ch_index)) (channels g))
  = inr (imap (fun k ch => assemble g k ch) (channels g)).
Proof.
  intros Hg. unfold select.
  pose proof (select_items self gp_index g Hg (channels g) 0) as H.
  simpl in H. rewrite H; [reflexivity|]. auto.
Qed.

Lemma imap_channel_of (f : nat -> Channel -> Signal) (chs : list Channel) :
  (forall k ch, channel_of (f k ch) = ch) ->
  map channel_of (imap f chs) = chs.
Proof.
  revert f. induction chs as [|ch chs IH]; intros f Hf; [reflexivity|].
  simpl. rewrite Hf. f_equal. apply IH. intros k ch'. apply Hf.
Qed.

(** What is known of a group of the new file: it has the channels of a
    group of the old one, and when it has channels its time stamps are the
    raster. *)
Definition on_raster (raster : list Q) (g g' : Group) : Prop :=
  channels g' = channels g
  /\ (channels g' <> [] -> group_timestamps g' = raster).

Lemma resample_group_spec self raster i g st st' :
  groups self !! i = Some g ->
  resample_group self raster None i g st = inr st' ->
  exists g', groups (out st') = groups (out st) ++ [g'] /\ on_raster raster g g'.
Proof.
  intros Hg. unfold resample_group. rewrite (select_group self i g Hg).
  set (sigs := map _ (imap _ (channels g))).
  intros [= <-]. cbn [out].
  unfold append, transfer_channel_group_data. cbn [groups set_groups].
  rewrite alter_app_r_alt by lia. rewrite Nat.sub_diag. simpl.
  eexists. split; [reflexivity|].
  assert (Hch : map (fun s => mkChannel (name s) (kind s)) sigs = channels g).
  { unfold sigs. rewrite map_map.
    change (map (fun x => mkChannel (name _) (kind _)) ?l)
      with (map channel_of l).
    rewrite <- (imap_channel_of (fun k ch => assemble g k ch) (channels g)) at 2
      by (intros ? []; reflexivity).
    reflexivity. }
  unfold on_raster.
  destruct (negb _ || negb _); cbn [channels fragments]; (split; [exact Hch|]);
    intros Hne; unfold group_timestamps; simpl; rewrite app_nil_r;
    (destruct sigs as [|s0 sigs'] eqn:Es; [simpl in Hne; congruence|]);
    unfold sigs in Es; (destruct (imap _ (channels g)); [discriminate|]);
    simpl in Es; injection Es as <- _; reflexivity.
Qed.

Lemma resample_groups_spec self raster terminate gs : forall i st st',
  (forall k g, gs !! k = Some g -> groups self !! (i + k) = Some g) ->
  resample_groups self raster None terminate i gs st = Finished st' ->
  exists gs', groups (out st') = groups (out st) ++ gs'
              /\ Forall2 (on_raster raster) gs gs'.
Proof.
  induction gs as [|g gs IH]; intros i st st' Hgs; simpl.
  - intros [= <-]. exists []. rewrite app_nil_r. split; [reflexivity|constructor].
  - destruct (resample_group self raster None i g st) as [e|st1] eqn:E;
      [discriminate|].
    destruct (terminate (S i)); [discriminate|]. intros H.
    apply resample_group_spec in E as (g' & E1 & E2).
    2:{ specialize (Hgs 0 g eq_refl). now rewrite Nat.add_0_r in Hgs. }
    apply IH in H as (gs' & H1 & H2).
    2:{ intros k g0 Hk. replace (S i + k) with (i + S k) by lia. now apply Hgs. }
    exists (g' :: gs'). rewrite H1, E1, <- app_assoc. split; [reflexivity|].
    now constructor.
Qed.

Lemma not_positive step : ~ (0 < step)%Q -> Qltb 0 step = false.
Proof.
  intros H. unfold Qltb. apply negb_false_iff. apply Qle_bool_iff.
  now apply Qnot_lt_le.
Qed.

Lemma positive step : Qltb 0 step = true -> (0 < step)%Q.
Proof.
  unfold Qltb. intros E. apply negb_true_iff in E.
  apply Qnot_le_lt. intros Hle. apply Qle_bool_iff in Hle. congruence.
Qed.

(** C4 at the failing input: an array of the one entry [0] is read as the
    step [0] and the call raises [AssertionError]; an array of the one
    entry [2] is read as the step [2], and the time stamps of the file are
    what [master_using_raster] makes of that step, here [[0; 2; 4]], not
    the array [[2]]. *)
Lemma resample_reads_an_array_of_one_entry_as_a_step :
  (forall terminate,
      resample (fun _ => None) (fun _ _ => []) two_fragments
               (RasterArray [0%Q]) None false terminate
      = Raise AssertionError)
  /\ exists out',
       resample (fun _ => None) (fun _ step => [0; step; 2 * step]%Q)
                two_fragments (RasterArray [2%Q]) None false never
       = Return out'
       /\ map group_timestamps (groups out') = [[0; 2; 2 * 2]%Q].
Proof.
  split; [reflexivity|].
  eexists. split; [vm_compute; reflexivity|reflexivity].
Qed.

(** C4: when [resample(raster)] returns a file, the raster the method
    works with is the array that was given when it has no or several
    entries, the master made from the positive step, or the time stamps of
    the named channel (for a name that Python's [float] does not read as a
    number); the file has the groups and channels of the old one; and
    every channel of it has exactly that raster as its time stamps. An
    array of one entry is read as a step: the raster is the master made
    from it, and the call raises [AssertionError] when the entry is not
    positive. *)
Theorem resample_timestamps_are_the_raster :
  forall (float_of_str : string -> option Q)
         (master_using_raster : MDF -> Q -> list Q)
         (self : MDF) (raster : Raster) (version' : option string)
         (terminate : nat -> bool),
    (forall out',
        resample float_of_str master_using_raster self raster version' false
                 terminate
        = Return out' ->
        exists r,
          resolve_raster float_of_str master_using_raster self raster = inr r
          /\ (forall array, raster = RasterArray array -> length array <> 1 ->
                            r = array)
          /\ (forall x, raster = RasterArray [x] ->
                        (0 < x)%Q /\ r = master_using_raster self x)
          /\ (forall step, raster = RasterStep step ->
                           (0 < step)%Q /\ r = master_using_raster self step)
          /\ (forall channel, raster = RasterName channel ->
                              float_of_str channel = None ->
                              get_timestamps self channel = inr r)
          /\ map channels (groups out') = map channels (groups self)
          /\ forall gp_index ch_index ts,
               channel_timestamps out' gp_index ch_index = Some ts -> ts = r)
    /\ (forall x, raster = RasterArray [x] -> ~ (0 < x)%Q ->
                  resample float_of_str master_using_raster self raster version'
                           false terminate
                  = Raise AssertionError).
Proof.
  intros fos mur self raster v terminate. split.
  - intros out'. unfold resample.
    destruct (resolve_raster fos mur self raster) as [e|r] eqn:Er; [discriminate|].
    cbn match.
    destruct (resample_groups self r None terminate 0 (groups self) _)
      as [st|st|e] eqn:Eg; try discriminate.
    intros [= <-]. exists r. split; [reflexivity|].
    apply resample_groups_spec in Eg as (gs' & E1 & E2); [|auto].
    cbn [out groups set_start_time new_from set_groups app] in E1.
    split; [|split; [|split; [|split; [|split]]]].
    + intros array -> Hlen. unfold resolve_raster in Er.
      destruct array as [|x [|y array]]; [| simpl in Hlen; congruence|];
        now injection Er as <-.
    + intros x ->. unfold resolve_raster in Er.
      destruct (Qltb 0 x) eqn:E; [|discriminate].
      split; [now apply positive|now injection Er as <-].
    + intros step ->. unfold resolve_raster in Er.
      destruct (Qltb 0 step) eqn:E; [|discriminate].
      split; [now apply positive|now injection Er as <-].
    + intros channel -> Hnone. unfold resolve_raster in Er.
      now rewrite Hnone in Er.
    + rewrite E1. clear E1. induction E2 as [|g g' gs gs'' [Hch _] _ IH];
        [reflexivity|]. simpl. now rewrite Hch, IH.
    + intros gp ch ts. unfold channel_timestamps. rewrite E1.
      destruct (gs' !! gp) as [g'|] eqn:Eg'; [|discriminate]. simpl.
      destruct (channels g' !! ch) as [c|] eqn:Ec; [|discriminate]. simpl.
      intros [= <-].
      destruct (Forall2_lookup_r _ _ _ _ _ E2 Eg') as (g & _ & _ & Hr).
      apply Hr. intros Hnil. rewrite Hnil in Ec. discriminate.
  - intros x -> Hx. unfold resample, resolve_raster.
    now rewrite (not_positive x Hx).
Qed.

Lemma resample_timestamps_witness :
  (exists out',
      map channels (groups out') = map channels (groups two_fragments)
      /\ forall gp_index ch_index ts,
           channel_timestamps out' gp_index ch_index = Some ts ->
           ts = [1 # 2; 3; 11 # 2]%Q)
  /\ resample (fun _ => None) (fun _ _ => []) two_fragments
              (RasterArray [-1 # 1]) None false never
     = Raise AssertionError.
Proof.
  split.
  - destruct (proj1 (resample_timestamps_are_the_raster
                (fun _ => None) (fun _ _ => []) two_fragments
                (RasterArray [1 # 2; 3; 11 # 2]%Q) None never)
                (mkMDF "4.10"
                   [mkGroup [mkChannel "a" KFloat]
                            [mkFragment [1 # 2; 3; 11 # 2]%Q
                                        [((map (Sig.interp_at 1 [0; 1; 2; 5; 6; 7]
                                                  [0 * 10; 1 * 10; 2 * 10;
                                                   5 * 10; 6 * 10; 7 * 10])
                                               [1 # 2; 3; 11 # 2])%Q, None)]]
                            "" ""]
                   0%Q true 0 1 ∅ ∅))
      as (r & Hr & Ha & _ & _ & _ & Hch & Hts).
    + vm_compute. reflexivity.
    + eexists. split; [exact Hch|]. intros gp ch ts H.
      rewrite (Ha _ eq_refl ltac:(simpl; lia)) in Hts. now apply (Hts gp ch).
  - apply (proj2 (resample_timestamps_are_the_raster
                    (fun _ => None) (fun _ _ => []) two_fragments
                    (RasterArray [-1 # 1]) None never) (-1 # 1) eq_refl).
    intros H. unfold Qlt in H. simpl in H. lia.
Defined.

End ResampleFacts.

(** ** The summary of the bus extraction *)

Module BusFacts.
Import BusLogging.

Lemma size_set_map_inj `{Countable A, Countable B} (f : A -> B) `{!Inj (=) (=) f}
    (X : gset A) :
  size (set_map f X : gset B) = size X.
Proof.
  induction X as [|x X Hx IH] using set_ind_L.
  - now rewrite set_map_empty, !size_empty.
  - rewrite set_map_union_L, set_map_singleton_L.
    rewrite !size_union, !size_singleton, IH; [reflexivity|set_solver|].
    intros y Hy1 Hy2. apply elem_of_singleton in Hy1 as ->.
    apply elem_of_map in Hy2 as (x' & Heq & Hx').
    apply (inj f) in Heq as ->. contradiction.
Qed.

Lemma size_filter_split `{Countable A} (P : A -> Prop) `{!forall x, Decision (P x)}
    (X : gset A) :
  size (filter P X) + size (filter (fun x => ~ P x) X) = size X.
Proof.
  rewrite <- size_union.
  - f_equal. apply (filter_union_complement_L P X X).
  - intros x H1 H2. apply elem_of_filter in H1 as [H1 _].
    apply elem_of_filter in H2 as [H2 _]. contradiction.
Qed.

(** The groups the extraction reads: bus-event groups of a CAN source that
    have the channel [CAN_DataFrame]. *)
Definition looked_at (g : BusGroup) : bool :=
  bus_event g && bus_type_can g && has_data_frame g.

(** The frame is on a bus the catalog is used for: on every bus for the
    bus number [0], else on the bus of that number. *)
Definition on_selected_bus (bus_filter : Z) (fr : CanFrame) : bool :=
  (bus_filter =? 0)%Z || (bus_channel fr mod 256 =? bus_filter)%Z.

(** The frames of the file that are looked up in a catalog. *)
Definition frames_read (file : list BusGroup) (bus_filter : Z) : list CanFrame :=
  flat_map (fun g => if looked_at g
                     then List.filter (on_selected_bus bus_filter)
                                      (concat (bus_fragments g))
                     else [])
           file.

(** The identifiers the frames of the file are looked up with. *)
Definition ids_read (file : list BusGroup) (is_j1939 : bool) (bus_filter : Z)
  : gset Z :=
  list_to_set (map (fun fr => msg_id_of is_j1939 (frame_id fr))
                   (frames_read file bus_filter)).

Lemma elem_of_unique_pairs l (x : Z * Z) : x ∈ unique_pairs l <-> x ∈ l.
Proof.
  unfold unique_pairs.
  rewrite (merge_sort_Permutation pair_le (remove_dups l)).
  apply elem_of_remove_dups.
Qed.

Lemma unique_pairs_set l :
  (list_to_set (unique_pairs l) : gset (Z * Z)) = list_to_set l.
Proof.
  apply set_eq. intros x. rewrite !elem_of_list_to_set.
  apply elem_of_unique_pairs.
Qed.

Lemma unique_pairs_firsts l :
  (list_to_set (map fst (unique_pairs l)) : gset Z) = list_to_set (map fst l).
Proof.
  apply set_eq. intros x.
  rewrite !elem_of_list_to_set, !list_elem_of_fmap.
  split; intros (y & -> & Hy); exists y; (split; [reflexivity|]);
    now apply elem_of_unique_pairs.
Qed.

Section OneCatalog.

Variable messages : gmap Z Message.
Variable dbc_name : string.

(** The identifier is in the catalog. *)
Definition known (i : Z) : Prop := is_Some (messages !! i).

#[local] Instance known_dec i : Decision (known i).
Proof. unfold known. apply _. Defined.

Definition name_of (i : Z) : string :=
  match messages !! i with
  | Some message => message_name message
  | None => ""
  end.

Definition diag (i : Z) : Z * Z := (i, i).
Definition named (i : Z) : Z * string := (i, name_of i).

#[local] Instance diag_inj : Inj (=) (=) diag.
Proof. intros x y [= ->]. reflexivity. Qed.

#[local] Instance named_inj : Inj (=) (=) named.
Proof. intros x y [= -> _]. reflexivity. Qed.

(** The identifiers that have been looked up. *)
Definition seen (s : State) : gset Z := dom (unknown_flags s).

(** What the found set and the flags say after any number of lookups. *)
Definition consistent (s : State) : Prop :=
  (forall k, k <> dbc_name -> found_ids s !! k = None)
  /\ default ∅ (found_ids s !! dbc_name)
     = set_map named (filter known (seen s))
  /\ (forall i l, unknown_flags s !! i = Some l ->
                  l <> [] /\ Forall (fun b => b = true <-> ~ known i) l).

Lemma seen_note i flag s tot fnd nf cur :
  seen (mkState tot fnd nf (note i flag (unknown_flags s)) cur) = {[i]} ∪ seen s.
Proof. unfold seen, note. simpl. now rewrite dom_insert_L. Qed.

Lemma visit_seen record s :
  seen (visit messages dbc_name record s) = {[record.1]} ∪ seen s.
Proof.
  unfold visit. destruct (messages !! record.1); apply seen_note.
Qed.

Lemma visit_total record s :
  total_unique_ids (visit messages dbc_name record s) = total_unique_ids s.
Proof. unfold visit. now destruct (messages !! record.1). Qed.

Lemma note_flags i flag (m : gmap Z (list bool)) j l :
  note i flag m !! j = Some l ->
  (j = i /\ l = default [] (m !! i) ++ [flag]) \/ (j <> i /\ m !! j = Some l).
Proof.
  unfold note. destruct (decide (i = j)) as [->|Hne].
  - rewrite lookup_insert_eq. intros [= <-]. now left.
  - rewrite lookup_insert_ne by exact Hne. intros H. right. split; congruence.
Qed.

Lemma filter_known_more i (X : gset Z) :
  known i -> filter known ({[i]} ∪ X) = {[i]} ∪ filter known X.
Proof.
  intros Hk. apply set_eq. intros x.
  rewrite elem_of_union, !elem_of_filter, elem_of_union, elem_of_singleton.
  split; [tauto|]. intros [->|[? ?]]; tauto.
Qed.

Lemma filter_known_same i (X : gset Z) :
  ~ known i -> filter known ({[i]} ∪ X) = filter known X.
Proof.
  intros Hk. apply set_eq. intros x.
  rewrite !elem_of_filter, elem_of_union, elem_of_singleton.
  split; [|tauto]. intros [? [->|?]]; tauto.
Qed.

Lemma visit_consistent record s :
  consistent s -> consistent (visit messages dbc_name record s).
Proof.
  intros (H1 & H2 & H3). destruct record as [i o].
  assert (Hflags : forall flag tot fnd nf cur,
             (flag = true <-> ~ known i) ->
             forall j l,
               unknown_flags (mkState tot fnd nf (note i flag (unknown_flags s)) cur)
               !! j = Some l ->
               l <> [] /\ Forall (fun b => b = true <-> ~ known j) l).
  { intros flag tot fnd nf cur Hflag j l Hl. simpl in Hl.
    apply note_flags in Hl as [[-> ->]|[Hne Hl]]; [|now apply H3].
    split; [now destruct (default [] _)|].
    apply Forall_app. split; [|constructor; [exact Hflag|constructor]].
    destruct (unknown_flags s !! i) as [l0|] eqn:E; [|constructor].
    simpl. now apply (H3 i l0). }
  unfold visit. simpl. destruct (messages !! i) as [message|] eqn:Em.
  - assert (Hk : known i) by (unfold known; rewrite Em; eauto).
    split; [|split].
    + intros k Hne. simpl. rewrite lookup_insert_ne by congruence. now apply H1.
    + simpl. rewrite lookup_insert_eq. simpl. rewrite H2.
      unfold seen at 2. simpl. unfold note. rewrite dom_insert_L.
      fold (seen s). rewrite (filter_known_more i (seen s) Hk), set_map_union_L.
      rewrite set_map_singleton_L.
      assert (Hn : named i = (i, message_name message))
        by (unfold named, name_of; now rewrite Em).
      rewrite Hn. apply (comm_L (∪)).
    + apply Hflags. split; [discriminate|tauto].
  - assert (Hk : ~ known i) by (unfold known; rewrite Em; intros [? [=]]).
    split; [|split].
    + exact H1.
    + simpl. rewrite H2. unfold seen at 2. simpl. unfold note.
      rewrite dom_insert_L. fold (seen s).
      now rewrite (filter_known_same i (seen s) Hk).
    + apply Hflags. tauto.
Qed.

Lemma visit_all_spec records : forall s,
  consistent s ->
  let s' := foldl (fun acc record => visit messages dbc_name record acc) s records in
  consistent s'
  /\ seen s' = list_to_set (map fst records) ∪ seen s
  /\ total_unique_ids s' = total_unique_ids s.
Proof.
  induction records as [|r records IH]; intros s Hs; simpl.
  - split; [exact Hs|]. split; [|reflexivity].
    now rewrite (left_id_L ∅ (∪)).
  - destruct (IH _ (visit_consistent r s Hs)) as (I1 & I2 & I3).
    split; [exact I1|]. split.
    + rewrite I2, visit_seen. simpl. now rewrite (assoc_L (∪)), (comm_L (∪) _ {[r.1]}).
    + now rewrite I3, visit_total.
Qed.

(** The identifiers that have been looked up are those of the frames
    read. *)
Lemma visit_all_seen records : forall s,
  seen (foldl (fun acc record => visit messages dbc_name record acc) s records)
  = list_to_set (map fst records) ∪ seen s.
Proof.
  induction records as [|r records IH]; intros s; simpl.
  - now rewrite (left_id_L ∅ (∪)).
  - rewrite IH, visit_seen.
    now rewrite (assoc_L (∪)), (comm_L (∪) _ {[r.1]}).
Qed.

Lemma elem_of_ids (id_of : CanFrame -> Z) (l : list CanFrame) (x : Z) :
  x ∈ (list_to_set (map id_of l) : gset Z) <-> exists fr, fr ∈ l /\ id_of fr = x.
Proof.
  rewrite elem_of_list_to_set, list_elem_of_fmap.
  split; intros (fr & H1 & H2); exists fr; split; auto.
Qed.

Lemma visit_bus_seen is_j1939 consolidated bus_filter fragment bus s x :
  x ∈ seen (visit_bus messages is_j1939 consolidated dbc_name bus_filter
                      fragment bus s)
  <-> x ∈ seen s
      \/ exists fr, fr ∈ fragment /\ (bus_channel fr mod 256)%Z = bus
                    /\ on_selected_bus bus_filter fr = true
                    /\ msg_id_of is_j1939 (frame_id fr) = x.
Proof.
  unfold visit_bus.
  destruct (negb (bus_filter =? 0)%Z && negb (bus =? bus_filter)%Z) eqn:Eskip.
  - split; [now left|]. intros [H|(fr & _ & Hb & Hsel & _)]; [exact H|].
    exfalso. unfold on_selected_bus in Hsel. rewrite Hb in Hsel.
    apply andb_true_iff in Eskip as [E1 E2].
    apply negb_true_iff in E1, E2. rewrite E1, E2 in Hsel. discriminate.
  - rewrite visit_all_seen.
    change (seen (mkState _ _ _ (unknown_flags s) _)) with (seen s).
    rewrite elem_of_union, unique_pairs_firsts, map_map, elem_of_ids.
    split.
    + intros [(fr & Hfr & Hx)|H]; [|now left]. right.
      apply list_elem_of_In, filter_In in Hfr as [Hfr Hb].
      apply Z.eqb_eq in Hb. exists fr. split; [now apply list_elem_of_In|].
      split; [exact Hb|]. split.
      * unfold on_selected_bus. rewrite Hb.
        destruct (bus_filter =? 0)%Z; [reflexivity|]. simpl in *.
        now apply negb_false_iff in Eskip.
      * rewrite <- Hx. now destruct (is_j1939 && negb consolidated).
    + intros [H|(fr & Hfr & Hb & _ & Hx)]; [now right|]. left.
      exists fr. split.
      * apply list_elem_of_In, filter_In. split; [now apply list_elem_of_In|].
        now apply Z.eqb_eq.
      * rewrite <- Hx. now destruct (is_j1939 && negb consolidated).
Qed.

Lemma elem_of_unique_Z (l : list Z) (x : Z) : x ∈ unique_Z l <-> x ∈ l.
Proof.
  unfold unique_Z. rewrite (merge_sort_Permutation Z.le (remove_dups l)).
  apply elem_of_remove_dups.
Qed.

Lemma visit_buses_seen is_j1939 consolidated bus_filter fragment buses : forall s x,
  x ∈ seen (foldl (fun acc bus =>
                     visit_bus messages is_j1939 consolidated dbc_name bus_filter
                               fragment bus acc) s buses)
  <-> x ∈ seen s
      \/ exists fr, fr ∈ fragment /\ (bus_channel fr mod 256)%Z ∈ buses
                    /\ on_selected_bus bus_filter fr = true
                    /\ msg_id_of is_j1939 (frame_id fr) = x.
Proof.
  induction buses as [|bus buses IH]; intros s x; simpl.
  - split; [now left|]. intros [H|(fr & _ & Hb & _)]; [exact H|].
    now apply not_elem_of_nil in Hb.
  - rewrite IH, visit_bus_seen. split.
    + intros [[H|(fr & H1 & H2 & H3)]|(fr & H1 & H2 & H3)]; [now left| |].
      * right. exists fr. split; [exact H1|]. split; [|exact H3].
        rewrite H2. apply list_elem_of_here.
      * right. exists fr. split; [exact H1|]. split; [|exact H3].
        now apply list_elem_of_further.
    + intros [H|(fr & H1 & H2 & H3)]; [now left; left|].
      apply elem_of_cons in H2 as [H2|H2].
      * left. right. exists fr. auto.
      * right. exists fr. auto.
Qed.

Lemma visit_fragment_seen is_j1939 consolidated bus_filter fragment s x :
  x ∈ seen (visit_fragment messages is_j1939 consolidated dbc_name bus_filter
                           s fragment)
  <-> x ∈ seen s
      \/ exists fr, fr ∈ fragment /\ on_selected_bus bus_filter fr = true
                    /\ msg_id_of is_j1939 (frame_id fr) = x.
Proof.
  unfold visit_fragment. rewrite visit_buses_seen. split.
  - intros [H|(fr & H1 & _ & H3)]; [now left|]. right. eauto.
  - intros [H|(fr & H1 & H3)]; [now left|]. right.
    exists fr. split; [exact H1|]. split; [|exact H3].
    apply elem_of_unique_Z, list_elem_of_fmap. eauto.
Qed.

Lemma visit_fragments_seen is_j1939 consolidated bus_filter fragments : forall s x,
  x ∈ seen (foldl (visit_fragment messages is_j1939 consolidated dbc_name
                                  bus_filter) s fragments)
  <-> x ∈ seen s
      \/ exists fr, fr ∈ concat fragments /\ on_selected_bus bus_filter fr = true
                    /\ msg_id_of is_j1939 (frame_id fr) = x.
Proof.
  induction fragments as [|f fragments IH]; intros s x; simpl.
  - split; [now left|]. intros [H|(fr & Hb & _)]; [exact H|].
    now apply not_elem_of_nil in Hb.
  - rewrite IH, visit_fragment_seen. split.
    + intros [[H|(fr & H1 & H3)]|(fr & H1 & H3)]; [now left| |].
      * right. exists fr. split; [|exact H3]. apply elem_of_app. now left.
      * right. exists fr. split; [|exact H3]. apply elem_of_app. now right.
    + intros [H|(fr & H1 & H3)]; [now left; left|].
      apply elem_of_app in H1 as [H1|H1].
      * left. right. exists fr. auto.
      * right. exists fr. auto.
Qed.

Lemma visit_groups_seen is_j1939 consolidated bus_filter file : forall s x,
  x ∈ seen (foldl (visit_group messages is_j1939 consolidated dbc_name bus_filter)
                  s file)
  <-> x ∈ seen s \/ x ∈ ids_read file is_j1939 bus_filter.
Proof.
  unfold ids_read.
  induction file as [|g file IH]; intros s x; simpl.
  - split; [now left|]. intros [H|H]; [exact H|]. now apply elem_of_empty in H.
  - rewrite IH. rewrite !elem_of_ids.
    assert (Hg : x ∈ seen (visit_group messages is_j1939 consolidated dbc_name
                                       bus_filter s g)
                 <-> x ∈ seen s
                     \/ exists fr,
                          fr ∈ (if looked_at g
                                then List.filter (on_selected_bus bus_filter)
                                                 (concat (bus_fragments g))
                                else [])
                          /\ msg_id_of is_j1939 (frame_id fr) = x).
    { unfold visit_group, looked_at.
      destruct (bus_event g), (bus_type_can g), (has_data_frame g); simpl;
        try (split; [now left|];
             intros [H|(fr & Hb & _)]; [exact H|];
             now apply not_elem_of_nil in Hb).
      rewrite visit_fragments_seen. split.
      - intros [H|(fr & H1 & H2 & H3)]; [now left|]. right. exists fr.
        split; [|exact H3]. apply list_elem_of_In, filter_In.
        split; [now apply list_elem_of_In|exact H2].
      - intros [H|(fr & H1 & H3)]; [now left|]. right. exists fr.
        apply list_elem_of_In, filter_In in H1 as [H1 H2].
        split; [now apply list_elem_of_In|]. split; assumption. }
    rewrite Hg. split.
    + intros [[H|(fr & H1 & H3)]|(fr & H1 & H3)]; [now left| |].
      * right. exists fr. split; [|exact H3]. apply elem_of_app. now left.
      * right. exists fr. split; [|exact H3]. apply elem_of_app. now right.
    + intros [H|(fr & H1 & H3)]; [now left; left|].
      apply elem_of_app in H1 as [H1|H1].
      * left. right. exists fr. auto.
      * right. exists fr. auto.
Qed.

(** The state after any part of the extraction with one catalog: the
    flags and the found set are consistent, and the set of all
    identifiers holds the pair [(i, i)] for every identifier looked up. *)
Definition summed (s : State) : Prop :=
  consistent s /\ total_unique_ids s = set_map diag (seen s).

Lemma visit_bus_summed is_j1939 consolidated bus_filter fragment bus s :
  is_j1939 && negb consolidated = false ->
  summed s ->
  summed (visit_bus messages is_j1939 consolidated dbc_name bus_filter fragment bus s).
Proof.
  intros Hpair [Hc Ht]. unfold visit_bus.
  destruct (negb (bus_filter =? 0)%Z && negb (bus =? bus_filter)%Z); [now split|].
  rewrite Hpair.
  set (records := map _ (List.filter _ fragment)).
  set (s1 := mkState _ _ _ _ _).
  assert (Hc1 : consistent s1) by exact Hc.
  destruct (visit_all_spec (unique_pairs records) s1 Hc1) as (I1 & I2 & I3).
  split; [exact I1|]. rewrite I3, I2. unfold s1 at 1. simpl.
  rewrite Ht, unique_pairs_set, unique_pairs_firsts.
  change (seen s1) with (seen s). rewrite set_map_union_L.
  rewrite (comm_L (∪) (set_map diag (seen s))). f_equal.
  unfold records. rewrite map_map.
  generalize (List.filter (fun fr => (bus_channel fr mod 256 =? bus)%Z) fragment).
  intros l. induction l as [|fr l IH]; simpl.
  - now rewrite set_map_empty.
  - rewrite set_map_union_L, set_map_singleton_L, IH. reflexivity.
Qed.

Lemma foldl_summed {X : Type} (f : State -> X -> State) (l : list X) :
  (forall s x, summed s -> summed (f s x)) ->
  forall s, summed s -> summed (foldl f s l).
Proof.
  intros Hf. induction l as [|x l IH]; intros s Hs; simpl; [exact Hs|].
  apply IH, Hf, Hs.
Qed.

Lemma visit_group_summed is_j1939 consolidated bus_filter s g :
  is_j1939 && negb consolidated = false ->
  summed s ->
  summed (visit_group messages is_j1939 consolidated dbc_name bus_filter s g).
Proof.
  intros Hpair Hs. unfold visit_group.
  destruct (_ || _); [exact Hs|].
  apply foldl_summed; [|exact Hs].
  intros s' fragment Hs'. unfold visit_fragment.
  apply (foldl_summed (fun acc bus => visit_bus messages is_j1939 consolidated
                                        dbc_name bus_filter fragment bus acc));
    [|exact Hs'].
  intros s'' bus Hs''. now apply visit_bus_summed.
Qed.

Lemma summed_start nf cur : summed (mkState ∅ ∅ nf ∅ cur).
Proof.
  unfold summed, consistent, seen. simpl. split; [split; [|split]|].
  - intros k _. apply lookup_empty.
  - rewrite lookup_empty. simpl. rewrite dom_empty_L.
    assert (E : filter known (∅ : gset Z) = ∅).
    { apply set_eq. intros x. rewrite elem_of_filter, elem_of_empty. tauto. }
    now rewrite E, set_map_empty.
  - intros i l Hl. now rewrite lookup_empty in Hl.
  - now rewrite dom_empty_L, set_map_empty.
Qed.

(** The counts of a summed state add up. *)
Lemma summed_counts s :
  summed s ->
  found_id_count s + unknown_id_count s = size (total_unique_ids s).
Proof.
  intros [(H1 & H2 & H3) Ht].
  assert (Hfound : found_id_count s = size (filter known (seen s))).
  { unfold found_id_count.
    destruct (found_ids s !! dbc_name) as [F|] eqn:EF.
    - assert (E : found_ids s = {[dbc_name := F]}).
      { apply map_eq. intros k. destruct (decide (k = dbc_name)) as [->|Hne].
        - now rewrite lookup_singleton_eq.
        - rewrite lookup_singleton_ne by congruence. now apply H1. }
      rewrite E, map_fold_singleton, Nat.add_0_r.
      simpl in H2. rewrite H2. apply size_set_map_inj. apply _.
    - assert (E : found_ids s = ∅).
      { apply map_eq. intros k. rewrite lookup_empty.
        destruct (decide (k = dbc_name)) as [->|Hne]; [exact EF|now apply H1]. }
      rewrite E, map_fold_empty. simpl in H2.
      rewrite <- (size_set_map_inj named), <- H2. now rewrite size_empty. }
  assert (Hunknown : unknown_ids s = filter (fun i => ~ known i) (seen s)).
  { unfold unknown_ids. apply set_eq. intros i.
    rewrite elem_of_dom, elem_of_filter. unfold seen. rewrite elem_of_dom.
    split.
    - intros (l & Hl). apply map_lookup_filter_Some in Hl as [Hl Hall].
      simpl in Hall. split; [|eauto].
      destruct (H3 i l Hl) as [Hne Hf].
      destruct l as [|b l]; [congruence|]. apply Forall_cons in Hf as [Hf _].
      simpl in Hall. apply andb_true_iff in Hall as [Hb _].
      unfold id in Hb. now apply Hf.
    - intros (Hk & l & Hl). exists l. apply map_lookup_filter_Some.
      split; [exact Hl|]. simpl. destruct (H3 i l Hl) as [_ Hf].
      apply forallb_forall. intros b Hb. rewrite Forall_forall in Hf.
      unfold id. now apply (Hf b (proj2 (list_elem_of_In _ _) Hb)). }
  rewrite Hfound. unfold unknown_id_count. rewrite Hunknown, Ht.
  rewrite (size_set_map_inj diag). apply size_filter_split.
Qed.

End OneCatalog.

(** C7, as the specification states it, fails: a run with one J1939
    catalog and [consolidated_j1939=False]. Two identifiers fold to the
    PGN of the one message of the catalog and one identifier is unknown:
    one found, one unknown, and three entries in [total_unique_ids]. *)
Lemma summary_totals_differ_for_unconsolidated_j1939 :
  let dbc := mkDbc true [mkMessage 0x18FEF100 0xFEF1 "CCVS"] in
  let file := [mkBusGroup true true true
                 [[mkCanFrame 1 0x18FEF100; mkCanFrame 1 0x18FEF101;
                   mkCanFrame 1 0x123]]] in
  let s := extract_can_summary file [(dbc, "j1939.dbc", 0%Z)] false in
  found_id_count s = 1 /\ unknown_id_count s = 1
  /\ size (found_ids s) = 1 /\ size (total_unique_ids s) = 3
  /\ found_id_count s + unknown_id_count s <> size (total_unique_ids s).
Proof. vm_compute. repeat split; discriminate. Qed.

(** C7, amended: for a run with one catalog that is not a J1939 catalog
    read with [consolidated_j1939=False]. The identifiers looked up are
    those of the frames read: the frames of the bus-event CAN groups with
    a [CAN_DataFrame] channel, on the bus the catalog is given for.
    [total_unique_ids] holds every one of them once; those the catalog has
    are in [found_ids] under the name of the catalog, with the name of
    their message, and nothing else is; those the catalog does not have
    are the [unknown_ids]. So the number of identifiers reported as found
    ([sum(len(e) for e in found_ids.values())]) plus [len(unknown_ids)] is
    [len(total_unique_ids)]: every identifier seen is counted once, and
    the run has a summary for every file. *)
Theorem summary_totals_add_up :
  forall (file : list BusGroup) (dbc : Dbc) (dbc_name : string) (bus_filter : Z)
         (consolidated_j1939 : bool),
    contains_j1939 dbc && negb consolidated_j1939 = false ->
    let s := extract_can_summary file [(dbc, dbc_name, bus_filter)]
                                 consolidated_j1939 in
    let ids := ids_read file (contains_j1939 dbc) bus_filter in
    total_unique_ids s = set_map (fun i => (i, i)) ids
    /\ (forall i, i ∈ unknown_ids s <-> i ∈ ids /\ messages_of dbc !! i = None)
    /\ (forall k i n,
          (i, n) ∈ default ∅ (found_ids s !! k)
          <-> k = dbc_name /\ i ∈ ids
              /\ exists message, messages_of dbc !! i = Some message
                                 /\ n = message_name message)
    /\ found_id_count s + unknown_id_count s = size (total_unique_ids s).
Proof.
  intros file dbc dbc_name bus_filter consolidated Hpair.
  unfold extract_can_summary. cbn [foldl visit_dbc].
  set (messages := messages_of dbc).
  set (s0 := mkState _ _ _ _ _).
  set (s1 := foldl _ s0 file).
  assert (H0 : summed messages dbc_name s0) by apply summed_start.
  assert (H1 : summed messages dbc_name s1).
  { unfold s1. apply foldl_summed; [|exact H0].
    intros s g Hs. now apply visit_group_summed. }
  assert (Hseen : seen s1 = ids_read file (contains_j1939 dbc) bus_filter).
  { apply set_eq. intros x. unfold s1. rewrite visit_groups_seen.
    unfold s0, seen. simpl. rewrite dom_empty_L.
    split; [intros [H|H]; [now apply elem_of_empty in H|exact H]|now right]. }
  assert (Hfinal : forall s,
            summed messages dbc_name s -> seen s = seen s1 ->
            total_unique_ids s
            = set_map (fun i => (i, i)) (ids_read file (contains_j1939 dbc) bus_filter)
            /\ (forall i, i ∈ unknown_ids s
                          <-> i ∈ ids_read file (contains_j1939 dbc) bus_filter
                              /\ messages !! i = None)
            /\ (forall k i n,
                  (i, n) ∈ default ∅ (found_ids s !! k)
                  <-> k = dbc_name
                      /\ i ∈ ids_read file (contains_j1939 dbc) bus_filter
                      /\ exists message, messages !! i = Some message
                                         /\ n = message_name message)
            /\ found_id_count s + unknown_id_count s = size (total_unique_ids s)).
  { intros s Hs Es. rewrite <- Hseen, <- Es.
    split; [|split; [|split]].
    - destruct Hs as [_ Ht]. exact Ht.
    - destruct Hs as [(_ & _ & H3) _]. intros i. unfold unknown_ids, seen.
      rewrite !elem_of_dom. split.
      + intros (l & Hl). apply map_lookup_filter_Some in Hl as [Hl Hall].
        simpl in Hall. split; [eauto|].
        destruct (H3 i l Hl) as [Hne Hf].
        destruct l as [|b l]; [congruence|]. apply Forall_cons in Hf as [Hf _].
        simpl in Hall. apply andb_true_iff in Hall as [Hb _].
        unfold id in Hb. apply Hf in Hb.
        destruct (messages !! i) eqn:E; [|reflexivity].
        exfalso. apply Hb. unfold known. rewrite E. eauto.
      + intros ((l & Hl) & Hnone). exists l. apply map_lookup_filter_Some.
        split; [exact Hl|]. simpl. destruct (H3 i l Hl) as [_ Hf].
        apply forallb_forall. intros b Hb. rewrite Forall_forall in Hf.
        unfold id. apply (Hf b (proj2 (list_elem_of_In _ _) Hb)).
        unfold known. rewrite Hnone. intros [? [=]].
    - destruct Hs as [(Hk1 & Hk2 & _) _]. intros k i n.
      destruct (decide (k = dbc_name)) as [->|Hne].
      + rewrite Hk2, elem_of_map. split.
        * intros (j & Hj & Hin). apply elem_of_filter in Hin as [Hkn Hin].
          unfold named in Hj. injection Hj as -> ->.
          split; [reflexivity|]. split; [exact Hin|].
          destruct Hkn as [message Hm]. exists message. split; [exact Hm|].
          unfold name_of. now rewrite Hm.
        * intros (_ & Hin & message & Hm & ->). exists i. split.
          -- unfold named, name_of. now rewrite Hm.
          -- apply elem_of_filter. split; [|exact Hin].
             unfold known. rewrite Hm. eauto.
      + rewrite (Hk1 k Hne). simpl. split.
        * intros H. now apply elem_of_empty in H.
        * intros [H _]. contradiction.
    - now apply (summed_counts messages dbc_name). }
  destruct (bool_decide (current_not_found_ids s1 = ∅)); [now apply Hfinal|].
  apply Hfinal; [|reflexivity]. destruct H1 as [Hc Ht]. split; [exact Hc|exact Ht].
Qed.

Lemma summary_totals_witness :
  let dbc := mkDbc true [mkMessage 0x18FEF100 0xFEF1 "CCVS"] in
  let file := [mkBusGroup true true true
                 [[mkCanFrame 1 0x18FEF100; mkCanFrame 1 0x18FEF101;
                   mkCanFrame 1 0x123]]] in
  let s := extract_can_summary file [(dbc, "j1939.dbc", 0%Z)] true in
  found_id_count s + unknown_id_count s = size (total_unique_ids s).
Proof.
  intros dbc file s.
  exact (proj2 (proj2 (proj2 (summary_totals_add_up file dbc "j1939.dbc" 0%Z true
                                                    eq_refl)))).
Defined.

End BusFacts.

(** ** [MDF.concatenate]: the timestamps of the merged group *)

Module ConcatTimes.
Import Engine Concatenate ArrayFacts CutSteps.













(** *** The pure part *)





(** The rule of the shift: a master that does not start after the last
    timestamp starts at the last timestamp plus [delta], which is its own
    first sampling interval when it has two samples and [0.001] else, and
    keeps its sampling intervals; a master that starts later is left as it
    is. *)
Lemma continue_master_rule l m :
  match m with
  | [] => continue_master false l m = []
  | m0 :: rest =>
      let delta := match rest with
                   | m1 :: _ => (m1 - m0)%Q
                   | [] => 0.001%Q
                   end in
      if Qleb m0 l
      then continue_master false l m
           = map (fun t => (t - m0 + (l + delta))%Q) m
      else continue_master false l m = m
  end.
Proof.
  destruct m as [|m0 rest]; unfold continue_master; simpl.
  - now destruct (Qleb 0 l).
  - rewrite orb_false_r. destruct (Qleb m0 l); [|reflexivity].
    now destruct rest.
Qed.










(** *** The loop over the fragments *)





Section Fragments.

Variable p : Params.
Variable oh : bool.
Variable g : Group.
Hypothesis has_channels : channels g <> [].

Local Abbreviation names := (map ch_name (channels g)).
Local Abbreviation origin := (p_add_samples_origin p).









End Fragments.

(** *** The loop over the files *)

Section Files.

Variable p : Params.
Variable names : list string.
Hypothesis has_names : names <> [].

Local Abbreviation origin := (p_add_samples_origin p).







End Files.




End ConcatTimes.

(** ** [MDF.concatenate]: files of different structure *)

Module ConcatStructure.
Import Engine Concatenate CutSteps.

(** The names of the included channels of a group. *)
Definition names_of (g : Group) : list string := map ch_name (channels g).






(** *** The order of the names *)

Lemma ascii_compare_refl a : Ascii.compare a a = Eq.
Proof. unfold Ascii.compare. apply N.compare_refl. Qed.

Lemma string_compare_trans s1 : forall s2 s3,
  String.compare s1 s2 <> Gt -> String.compare s2 s3 <> Gt ->
  String.compare s1 s3 <> Gt.
Proof.
  induction s1 as [|a s1 IH]; intros [|b s2] [|c s3]; simpl; try congruence.
  destruct (Ascii.compare a b) eqn:Eab, (Ascii.compare b c) eqn:Ebc;
    try congruence.
  - apply Ascii.compare_eq_iff in Eab, Ebc. subst.
    rewrite ascii_compare_refl. apply IH.
  - apply Ascii.compare_eq_iff in Eab. subst. rewrite Ebc. congruence.
  - apply Ascii.compare_eq_iff in Ebc. subst. rewrite Eab. congruence.
  - unfold Ascii.compare in *. rewrite N.compare_lt_iff in Eab, Ebc.
    assert (E : (Ascii.N_of_ascii a ?= Ascii.N_of_ascii c)%N = Lt)
      by (apply N.compare_lt_iff; lia).
    rewrite E. congruence.
Qed.

Lemma str_le_compare a b : str_le a b <-> String.compare a b <> Gt.
Proof.
  unfold str_le, String.leb. destruct (String.compare a b); split; congruence.
Qed.

#[local] Instance str_le_trans : Transitive str_le.
Proof.
  intros a b c. rewrite !str_le_compare. apply string_compare_trans.
Qed.

#[local] Instance str_le_total : Total str_le.
Proof. intros a b. apply String.leb_total. Qed.

#[local] Instance str_le_antisym : AntiSymm (=) str_le.
Proof. intros a b. apply String.leb_antisym. Qed.



Lemma different_channels_structural mdf_index :
  is_structural_mismatch (different_channels mdf_index) = true.
Proof. reflexivity. Qed.

(** *** The errors of the loop over the fragments *)





(** *** What the loops keep and what their errors say *)

Section Shape.

Variable p : Params.





Variable first : MDF.






End Shape.

(** *** The remap of the channels *)








(** *** The loops on files that can be read *)

Section Progress.

Variable p : Params.












Variable first : MDF.





End Progress.






End ConcatStructure.

(** ** [np.amin] *)

Module MinFacts.
Import ArrayFacts.

Lemma py_min_le a b : (py_min a b <= a)%Q /\ (py_min a b <= b)%Q.
Proof.
  unfold py_min. destruct (Qltb b a) eqn:E.
  - apply Qltb_lt in E. split; lra.
  - apply Qltb_ge in E. split; lra.
Qed.

Lemma foldl_py_min_le l : forall x,
  (foldl py_min x l <= x)%Q /\ forall t, In t l -> (foldl py_min x l <= t)%Q.
Proof.
  induction l as [|y l IH]; intros x; simpl.
  - split; [lra|]. intros t [].
  - destruct (IH (py_min x y)) as [H1 H2]. destruct (py_min_le x y) as [Hx Hy].
    split; [lra|]. intros t [<-|Ht]; [lra|auto].
Qed.

Lemma amin_le l t : In t l -> (amin l <= t)%Q.
Proof.
  destruct l as [|x l]; [intros []|]. simpl.
  destruct (foldl_py_min_le l x) as [H1 H2]. intros [<-|Ht]; auto.
Qed.

Lemma amin_In l : l <> [] -> In (amin l) l.
Proof.
  destruct l as [|x l]; [congruence|]. intros _. simpl.
  revert x. induction l as [|y l IH]; intros x; simpl; [now left|].
  destruct (IH (py_min x y)) as [H|H]; [|now right; right].
  rewrite <- H. unfold py_min. destruct (Qltb y x); [right; now left|now left].
Qed.

End MinFacts.

(** ** [MDF.convert] and [MDF.filter]: the groups of the new file *)

Module CopyFacts.
Import Engine ArrayFacts CutWrites CutSteps.

(** A group that [_yield_selected_signals] gives signals for: it has
    included channels and is read in at least one fragment. *)
Definition has_data (g : Group) : bool :=
  nonempty (channels g) && nonempty (fragments g).

Lemma fragment_eta f : mkFragment (master f) (cols f) = f.
Proof. now destruct f. Qed.

Lemma group_eta g : mkGroup (channels g) (fragments g) (comment g) (acq_name g) = g.
Proof. now destruct g. Qed.

Lemma first_fragment_of_yield g f :
  channels g <> [] -> length (cols f) = length (channels g) ->
  first_fragment (first_yield g f) = f.
Proof.
  intros Hch Hl. unfold first_fragment.
  rewrite first_yield_columns by exact Hl.
  pose proof (first_yield_nonempty g f Hch Hl) as Hne.
  pose proof (first_yield_timestamps g f) as Ht.
  destruct (first_yield g f) as [|s0 ss]; [congruence|].
  apply Forall_cons in Ht as [-> _]. apply fragment_eta.
Qed.

(** [append] followed by [_transfer_channel_group_data]. *)
Lemma append_transfer oh sigs cmt g o :
  let '(o', nr) := append sigs cmt "" o in
  transfer_channel_group_data (has_acq_name o') oh nr g o'
  = set_groups (groups o ++ [arrives (has_acq_name o && oh)
                                     (group_of g sigs [first_fragment sigs])]) o
  /\ nr = length (groups o).
Proof.
  unfold append, transfer_channel_group_data.
  cbn [set_groups groups]. rewrite alter_app_r_alt by lia.
  rewrite Nat.sub_diag. split; [|reflexivity].
  change (has_acq_name (set_groups _ o)) with (has_acq_name o).
  destruct (has_acq_name o), oh; reflexivity.
Qed.

Lemma arrives_extended b G fs :
  mkGroup (channels (arrives b G)) (fragments (arrives b G) ++ fs)
          (comment (arrives b G)) (acq_name (arrives b G))
  = arrives b (mkGroup (channels G) (fragments G ++ fs) (comment G) (acq_name G)).
Proof. now destruct b. Qed.

(** The fragments after the first extend the group that was appended. *)
Lemma extend_fragments fs : forall pre G o,
  groups o = pre ++ [G] ->
  foldl (fun o f => extend (length pre) (next_yield f) o) o fs
  = set_groups (pre ++ [mkGroup (channels G) (fragments G ++ fs)
                                (comment G) (acq_name G)]) o.
Proof.
  induction fs as [|f fs IH]; intros pre G o H.
  - simpl. rewrite app_nil_r, group_eta, <- H. now destruct o.
  - cbn [foldl]. unfold next_yield at 2.
    erewrite extend_last by exact H.
    erewrite IH by apply set_groups_groups.
    rewrite set_groups_twice. cbn [channels fragments comment acq_name fst].
    rewrite fragment_eta, <- app_assoc. reflexivity.
Qed.

(** What the loop over the fragments of one group adds to the new file,
    before the acquisition name is looked at. *)
Definition copied (g : Group) : list Group :=
  if has_data g then [g] else [].

Lemma convert_fragments_later oh g fs : forall idx st,
  Convert.convert_fragments oh g (S idx) fs st
  = Convert.mkLoop
      (foldl (fun o f => extend (Convert.cg_nr st) (next_yield f) o)
             (Convert.out st) fs)
      (Convert.cg_nr st).
Proof.
  induction fs as [|f fs IH]; intros idx st; simpl.
  - now destruct st.
  - now rewrite IH.
Qed.

Lemma convert_fragments_spec oh g st :
  wf_group g ->
  Convert.out (Convert.convert_fragments oh g 0 (fragments g) st)
  = set_groups (groups (Convert.out st)
                ++ map (arrives (has_acq_name (Convert.out st) && oh)) (copied g))
               (Convert.out st).
Proof.
  intros Hwf. unfold copied, has_data, wf_group in *.
  destruct (fragments g) as [|f fs] eqn:Ef.
  - rewrite andb_false_r. simpl. rewrite app_nil_r. now destruct (Convert.out st).
  - apply Forall_cons in Hwf as [[Hl _] _].
    cbn [Convert.convert_fragments Convert.convert_fragment].
    destruct (channels g) as [|ch chs] eqn:Ech.
    + unfold first_yield. rewrite Ech. simpl. rewrite app_nil_r.
      now destruct (Convert.out st).
    + assert (Hch : channels g <> []) by congruence.
      rewrite <- Ech in Hl.
      pose proof (first_yield_nonempty g f Hch Hl) as Hne.
      pose proof (first_fragment_of_yield g f Hch Hl) as Hff.
      pose proof (first_yield_tracks g f Hl) as Ht.
      destruct (first_yield g f) as [|s0 ss] eqn:Ey; [congruence|].
      pose proof (append_transfer oh (s0 :: ss) (comment g) g (Convert.out st)) as Ha.
      destruct (append (s0 :: ss) (comment g) "" (Convert.out st)) as [o' nr].
      destruct Ha as [Ha ->]. rewrite Ha, convert_fragments_later.
      cbn [Convert.out Convert.cg_nr nonempty andb map].
      erewrite extend_fragments by apply set_groups_groups.
      rewrite set_groups_twice, arrives_extended. unfold group_of.
      cbn [channels fragments comment acq_name app].
      unfold tracks in Ht. rewrite Ht, Hff, <- Ef. now rewrite group_eta.
Qed.

Lemma convert_groups_never oh gs : forall i st,
  Forall wf_group gs ->
  exists st',
    Convert.convert_groups oh Samples.never i gs st = Done st'
    /\ Convert.out st'
       = set_groups (groups (Convert.out st)
                     ++ map (arrives (has_acq_name (Convert.out st) && oh))
                            (List.filter has_data gs))
                    (Convert.out st).
Proof.
  induction gs as [|g gs IH]; intros i st Hwf.
  - exists st. split; [reflexivity|]. simpl. rewrite app_nil_r.
    now destruct (Convert.out st).
  - apply Forall_cons in Hwf as [Hg Hwf]. cbn [Convert.convert_groups].
    unfold Samples.never at 1.
    destruct (IH (S i) (Convert.convert_fragments oh g 0 (fragments g) st) Hwf)
      as (st' & E & H).
    exists st'. split; [exact E|]. rewrite H, (convert_fragments_spec oh g st Hg).
    cbn [groups set_groups List.filter]. rewrite set_groups_twice, <- app_assoc.
    change (has_acq_name (set_groups _ (Convert.out st)))
      with (has_acq_name (Convert.out st)).
    unfold copied. destruct (has_data g); reflexivity.
Qed.

(** X1: [convert] on a file whose fragments have one column per included
    channel returns a file of the validated version with the start time
    of the source; its groups are the groups of the source that have
    included channels and at least one fragment, in order and with their
    channels, their fragments (timestamps, samples and invalidation bits)
    and their comment unchanged. The acquisition name is carried over when
    the channel groups of both versions have one (both are 4.x); else the
    new group has none. The source is given back with [copy_on_get] on and
    nothing else changed. *)
Theorem convert_keeps_the_groups :
  forall (self : MDF) (version' : string),
    Forall wf_group (groups self) ->
    exists out',
      Convert.convert self version' Samples.never
      = (Return out', set_copy_on_get true self)
      /\ version out' = validate_version_argument version'
      /\ start_time out' = start_time self
      /\ Forall2 (fun g g' =>
                    channels g' = channels g
                    /\ fragments g' = fragments g
                    /\ comment g' = comment g
                    /\ acq_name g'
                       = if is_v4 (validate_version_argument version')
                            && is_v4 (version self)
                         then acq_name g else "")
                 (List.filter has_data (groups self)) (groups out').
Proof.
  intros self v Hwf. unfold Convert.convert.
  destruct (convert_groups_never (has_acq_name (set_copy_on_get false self))
              (groups (set_copy_on_get false self)) 0
              (Convert.mkLoop
                 (set_start_time (start_time self)
                    (new_from (validate_version_argument v) self)) 0) Hwf)
    as (st' & E & H).
  rewrite E. exists (Convert.out st'). split; [reflexivity|].
  rewrite H. split; [reflexivity|]. split; [reflexivity|].
  cbn [groups set_groups Convert.out new_from set_start_time app].
  apply Forall2_fmap_r, Forall_Forall2_diag, Forall_forall. intros g _.
  unfold has_acq_name. cbn [version set_start_time new_from set_copy_on_get].
  destruct (is_v4 (validate_version_argument v) && is_v4 (version self));
    repeat split.
Qed.

Lemma convert_groups_witness :
  exists out',
    Convert.convert Samples.two_fragments "3.30" Samples.never
    = (Return out', set_copy_on_get true Samples.two_fragments)
    /\ version out' = validate_version_argument "3.30"
    /\ start_time out' = start_time Samples.two_fragments
    /\ Forall2 (fun g g' =>
                  channels g' = channels g
                  /\ fragments g' = fragments g
                  /\ comment g' = comment g
                  /\ acq_name g'
                     = if is_v4 (validate_version_argument "3.30")
                          && is_v4 (version Samples.two_fragments)
                       then acq_name g else "")
               (List.filter has_data (groups Samples.two_fragments))
               (groups out').
Proof.
  apply (convert_keeps_the_groups Samples.two_fragments "3.30").
  repeat constructor.
Defined.

(** *** [filter] *)

Lemma pick_lookup {A : Type} (a : list A) : forall ps k,
  Forall (fun p => p < length a) ps ->
  Filter.pick ps a !! k = ps !! k ≫= (a !!.).
Proof.
  unfold Filter.pick. induction ps as [|p ps IH]; intros k Hall; [reflexivity|].
  apply Forall_cons in Hall as [Hp Hall].
  apply lookup_lt_is_Some_2 in Hp as [x Hx]. simpl. rewrite Hx.
  destruct k as [|k]; simpl; [now rewrite Hx|now apply IH].
Qed.

Lemma pick_length {A B : Type} (a : list A) (b : list B) ps :
  length a = length b -> length (Filter.pick ps a) = length (Filter.pick ps b).
Proof.
  intros Hl. unfold Filter.pick. induction ps as [|p ps IH]; [reflexivity|].
  simpl. destruct (a !! p) eqn:Ea, (b !! p) eqn:Eb; simpl.
  - f_equal. exact IH.
  - apply lookup_lt_Some in Ea. apply lookup_ge_None in Eb. lia.
  - apply lookup_lt_Some in Eb. apply lookup_ge_None in Ea. lia.
  - exact IH.
Qed.

Lemma pick_Forall {A : Type} (P : A -> Prop) (a : list A) ps :
  Forall P a -> Forall P (Filter.pick ps a).
Proof.
  intros Ha. unfold Filter.pick. induction ps as [|p ps IH]; [constructor|].
  simpl. destruct (a !! p) eqn:Ea; [|exact IH].
  constructor; [|exact IH]. rewrite Forall_forall in Ha.
  eapply Ha, list_elem_of_lookup_2, Ea.
Qed.

Lemma restrict_wf ps g : wf_group g -> wf_group (Filter.restrict ps g).
Proof.
  unfold wf_group, Filter.restrict. cbn [fragments channels].
  intros H. apply Forall_forall. intros f' Hf'.
  apply list_elem_of_In, in_map_iff in Hf' as (f & <- & Hf).
  rewrite Forall_forall in H.
  destruct (H f (proj2 (list_elem_of_In _ _) Hf)) as [Hl Hc].
  split; cbn [cols master].
  - now apply pick_length.
  - now apply pick_Forall.
Qed.

(** The selected channels carry the data they have in the source. *)
Lemma restrict_data ps g :
  wf_group g ->
  Forall (fun p => p < length (channels g)) ps ->
  group_timestamps (Filter.restrict ps g) = group_timestamps g
  /\ forall k p, ps !! k = Some p ->
                 channels (Filter.restrict ps g) !! k = channels g !! p
                 /\ channel_samples (Filter.restrict ps g) k = channel_samples g p.
Proof.
  intros Hwf Hps. split.
  - unfold group_timestamps, Filter.restrict. cbn [fragments].
    rewrite map_map. reflexivity.
  - intros k p Hk. split.
    + unfold Filter.restrict. cbn [channels]. rewrite pick_lookup by exact Hps.
      now rewrite Hk.
    + unfold channel_samples, Filter.restrict. cbn [fragments].
      rewrite map_map. f_equal. apply map_ext_in. intros f Hf. cbn [cols].
      unfold wf_group in Hwf. rewrite Forall_forall in Hwf.
      destruct (Hwf f (proj2 (list_elem_of_In _ _) Hf)) as [Hl _].
      rewrite !nth_lookup, pick_lookup, Hk by now rewrite Hl.
      reflexivity.
Qed.

Lemma filter_fragments_convert oh g : forall fs idx st,
  Filter.out (Filter.filter_fragments oh g idx fs st)
  = Convert.out (Convert.convert_fragments oh g idx fs
                   (Convert.mkLoop (Filter.out st) (Filter.cg_nr st)))
  /\ Filter.cg_nr (Filter.filter_fragments oh g idx fs st)
     = Convert.cg_nr (Convert.convert_fragments oh g idx fs
                        (Convert.mkLoop (Filter.out st) (Filter.cg_nr st))).
Proof.
  induction fs as [|f fs IH]; intros idx st; [split; reflexivity|].
  cbn [Filter.filter_fragments Convert.convert_fragments].
  unfold Filter.filter_fragment, Convert.convert_fragment.
  destruct idx as [|idx].
  - destruct (first_yield g f) as [|s0 ss]; [split; reflexivity|].
    cbn [Convert.out]. destruct (append _ _ _ _) as [o nr]. apply IH.
  - apply IH.
Qed.

(** What the selection [(group_index, positions)] adds to the new file,
    before the acquisition name is looked at. *)
Definition selected (self : MDF) (item : nat * list nat) : list Group :=
  match groups self !! item.1 with
  | Some g => copied (Filter.restrict item.2 g)
  | None => []
  end.

(** The selection names a group that is read in at least one fragment,
    and at least one of its channels. *)
Definition selects (self : MDF) (item : nat * list nat) : bool :=
  match groups self !! item.1 with
  | Some g => nonempty item.2 && nonempty (fragments g)
  | None => false
  end.

(** The positions of a selection are positions of channels of its group. *)
Definition in_range (self : MDF) (item : nat * list nat) : Prop :=
  match groups self !! item.1 with
  | Some g => Forall (fun p => p < length (channels g)) item.2
  | None => True
  end.

(** The version [filter] writes. *)
Definition filter_version (self : MDF) (version' : option string) : string :=
  match version' with
  | None => version self
  | Some v => validate_version_argument v
  end.

Lemma pick_all_length {A : Type} (a : list A) ps :
  Forall (fun p => p < length a) ps -> length (Filter.pick ps a) = length ps.
Proof.
  unfold Filter.pick. induction ps as [|p ps IH]; intros H; [reflexivity|].
  apply Forall_cons in H as [Hp H]. simpl.
  apply lookup_lt_is_Some_2 in Hp as [x ->]. simpl. f_equal. now apply IH.
Qed.

Lemma nonempty_length {A B : Type} (a : list A) (b : list B) :
  length a = length b -> nonempty a = nonempty b.
Proof. destruct a, b; simpl; congruence. Qed.

Lemma selected_selects self item :
  in_range self item ->
  selected self item
  = if selects self item
    then match groups self !! item.1 with
         | Some g => [Filter.restrict item.2 g]
         | None => []
         end
    else [].
Proof.
  unfold in_range, selected, selects, copied, has_data.
  destruct (groups self !! item.1) as [g|]; [|reflexivity]. intros Hr.
  cbn [Filter.restrict channels fragments].
  rewrite (nonempty_length (Filter.pick item.2 (channels g)) item.2)
    by now apply pick_all_length.
  rewrite (nonempty_length (map _ (fragments g)) (fragments g))
    by apply length_map.
  reflexivity.
Qed.

Lemma filter_groups_never self gps : forall i st,
  Forall wf_group (groups self) ->
  exists st',
    Filter.filter_groups self Samples.never i gps st = Done st'
    /\ Filter.out st'
       = set_groups (groups (Filter.out st)
                     ++ map (arrives (has_acq_name (Filter.out st)
                                      && has_acq_name self))
                            (flat_map (selected self) gps))
                    (Filter.out st).
Proof.
  induction gps as [|[gi ps] gps IH]; intros i st Hwf.
  - exists st. split; [reflexivity|]. simpl. rewrite app_nil_r.
    now destruct (Filter.out st).
  - cbn [Filter.filter_groups]. unfold Samples.never at 1.
    match goal with
    | |- context [Filter.filter_groups _ _ _ _ ?s] =>
        destruct (IH (S i) s Hwf) as (st' & E & H)
    end.
    exists st'. split; [exact E|]. rewrite H. cbn [flat_map].
    unfold selected at 2. cbn [fst snd].
    destruct (groups self !! gi) as [g|] eqn:Eg.
    + destruct (filter_fragments_convert (has_acq_name self)
                  (Filter.restrict ps g)
                  (fragments (Filter.restrict ps g)) 0 st) as [-> _].
      rewrite convert_fragments_spec.
      * cbn [Convert.out groups set_groups]. rewrite set_groups_twice.
        change (has_acq_name (set_groups _ (Filter.out st)))
          with (has_acq_name (Filter.out st)).
        now rewrite map_app, <- app_assoc.
      * apply restrict_wf. rewrite Forall_forall in Hwf.
        eapply Hwf, list_elem_of_lookup_2, Eg.
    + now rewrite app_nil_l.
Qed.

(** A group of the new file and the selection it comes from. *)
Definition selection_of (self : MDF) (both : bool) (item : nat * list nat)
    (g' : Group) : Prop :=
  exists g,
    groups self !! item.1 = Some g
    /\ group_timestamps g' = group_timestamps g
    /\ comment g' = comment g
    /\ acq_name g' = (if both then acq_name g else "")
    /\ length (channels g') = length item.2
    /\ forall k p,
         item.2 !! k = Some p ->
         channels g' !! k = channels g !! p
         /\ channel_samples g' k = channel_samples g p.

Lemma selection_of_arrives self both item g :
  wf_group g ->
  Forall (fun p => p < length (channels g)) item.2 ->
  groups self !! item.1 = Some g ->
  selection_of self both item (arrives both (Filter.restrict item.2 g)).
Proof.
  intros Hwf Hr Hg. exists g. split; [exact Hg|].
  destruct (restrict_data item.2 g Hwf Hr) as [H1 H2].
  rewrite arrives_timestamps, arrives_comment, arrives_channels.
  split; [exact H1|]. split; [reflexivity|]. split; [now destruct both|].
  split.
  - cbn [Filter.restrict channels]. now apply pick_all_length.
  - intros k p Hk. rewrite arrives_samples. now apply H2.
Qed.

Lemma selections_Forall2 self both : forall gps,
  Forall wf_group (groups self) ->
  Forall (in_range self) gps ->
  Forall2 (selection_of self both) (List.filter (selects self) gps)
          (map (arrives both) (flat_map (selected self) gps)).
Proof.
  induction gps as [|item gps IH]; intros Hwf Hr; [constructor|].
  apply Forall_cons in Hr as [Hi Hr]. cbn [List.filter flat_map].
  rewrite map_app, (selected_selects self item Hi).
  destruct (selects self item) eqn:Es; [|now apply IH].
  unfold selects in Es. unfold in_range in Hi.
  destruct (groups self !! item.1) as [g|] eqn:Eg; [|discriminate].
  cbn [map app]. constructor; [|now apply IH].
  apply selection_of_arrives; [|exact Hi|exact Eg].
  rewrite Forall_forall in Hwf. eapply Hwf, list_elem_of_lookup_2, Eg.
Qed.

(** X2: [filter] on a file whose fragments have one column per included
    channel, with a selection of channel positions that exist, returns a
    file of the requested version (that of the source when none is given)
    with the start time of the source. Its groups are, in the order of
    the selection, one group for every selected group that is read in at
    least one fragment and has a selected channel: such a group has the
    timestamps and the comment of the source group, as many channels as
    positions were selected, and its channel [k] is the channel at the
    [k]-th selected position with the samples it has in the source; the
    acquisition name is carried over when the channel groups of both
    versions have one (both are 4.x). The source is given back with
    [copy_on_get] on. *)
Theorem filter_keeps_the_selected_channels :
  forall (self : MDF) (gps : list (nat * list nat)) (version' : option string),
    Forall wf_group (groups self) ->
    Forall (in_range self) gps ->
    exists out',
      Filter.filter self gps version' Samples.never
      = (Return out', set_copy_on_get true self)
      /\ start_time out' = start_time self
      /\ version out' = filter_version self version'
      /\ Forall2 (selection_of self (is_v4 (filter_version self version')
                                     && is_v4 (version self)))
                 (List.filter (selects self) gps) (groups out').
Proof.
  intros self gps v Hwf Hr. unfold Filter.filter.
  match goal with
  | |- context [Filter.filter_groups _ _ _ _ ?s] =>
      destruct (filter_groups_never (set_copy_on_get false self) gps 0 s Hwf)
        as (st' & E & H)
  end.
  rewrite E. exists (Filter.out st'). split; [reflexivity|].
  rewrite H. split; [reflexivity|]. split; [reflexivity|].
  cbn [groups set_groups Filter.out new_from set_start_time app].
  apply (selections_Forall2 self _ gps Hwf Hr).
Qed.

Lemma filter_selected_witness :
  exists out',
    Filter.filter Samples.two_groups [(1, [0])] None Samples.never
    = (Return out', set_copy_on_get true Samples.two_groups)
    /\ Forall2 (selection_of Samples.two_groups
                  (is_v4 (filter_version Samples.two_groups None)
                   && is_v4 (version Samples.two_groups)))
               (List.filter (selects Samples.two_groups) [(1, [0])])
               (groups out').
Proof.
  destruct (filter_keeps_the_selected_channels Samples.two_groups [(1, [0])] None)
    as (out' & E & _ & _ & H).
  - repeat constructor.
  - repeat constructor.
  - exists out'. split; [exact E|exact H].
Defined.

End CopyFacts.

(** ** [MDF.cut]: how a call ends, and calls without bounds *)

Module CutEdges.
Import Engine Cut ArrayFacts SigFacts CutWrites CutSteps PlanFacts CutGroups
       CutWhole CutCall MinFacts CopyFacts.

(** X3: how a call of [cut] that is not cancelled ends. With
    [time_from_zero] and no [start] it raises [TypeError] before any group
    is read, and leaves [copy_on_get] off. Otherwise it returns a file
    exactly when some group has included channels and signals in its
    first item; when no group has, it raises [UnboundLocalError] (the
    names [start_] and [stop_] of the message are bound when a group is
    appended). In both cases [copy_on_get] is on afterwards. *)
Theorem cut_returns_a_file_when_a_group_has_signals :
  forall (self : MDF) (start stop : option Q) (whence : Z)
         (version' : option string) (include_ends time_from_zero : bool),
    (forall terminate,
        cut self None stop whence version' include_ends true terminate
        = (Raise TypeError, set_copy_on_get false self))
    /\ ((time_from_zero = true -> start <> None) ->
        if existsb yields_signals (groups self)
        then exists out',
               cut self start stop whence version' include_ends time_from_zero
                   Samples.never
               = (Return out', set_copy_on_get true self)
               /\ length (groups out')
                  = length (List.filter yields_signals (groups self))
        else cut self start stop whence version' include_ends time_from_zero
                 Samples.never
             = (Raise UnboundLocalError, set_copy_on_get true self)).
Proof.
  intros self start stop whence v ie tz. split.
  - intros terminate. unfold cut, apply_whence.
    destruct (whence =? 1)%Z; reflexivity.
  - intros Hstart. unfold cut.
    set (start' := apply_whence _ whence start).
    set (stop' := apply_whence _ whence stop).
    assert (Hs' : tz = true -> exists d, start' = Some d).
    { intros Htz. specialize (Hstart Htz). unfold start', apply_whence.
      destruct start as [s|]; [|congruence].
      destruct (whence =? 1)%Z; simpl; eauto. }
    set (header := if tz then _ else _).
    assert (Hh : exists delta out1, header = Some (delta, out1) /\ groups out1 = []).
    { unfold header. destruct tz.
      - destruct (Hs' eq_refl) as [d ->]. eexists _, _. split; reflexivity.
      - eexists _, _. split; reflexivity. }
    destruct Hh as (delta & out1 & -> & Hout1).
    match goal with
    | |- context [cut_groups ?c ?t ?i ?gs ?st] =>
        destruct (cut_groups_never c gs i st) as [st' E];
        pose proof E as E';
        apply cut_groups_done in E' as [E1 E2]
    end.
    unfold Samples.never. rewrite E.
    cbn [named out groups set_groups orb] in E1, E2.
    rewrite nonempty_contributions in E2.
    change (groups (set_copy_on_get false self)) with (groups self) in *.
    rewrite E2. destruct (existsb yields_signals (groups self)); [|reflexivity].
    eexists. split; [reflexivity|]. rewrite E1, Hout1. cbn [groups set_groups app].
    rewrite length_map. apply contributions_length.
Qed.

Lemma cut_returns_a_file_witness :
  exists out',
    cut Samples.two_groups None None 0 None true false Samples.never
    = (Return out', set_copy_on_get true Samples.two_groups)
    /\ length (groups out') = 2.
Proof.
  apply (proj2 (cut_returns_a_file_when_a_group_has_signals
                  Samples.two_groups None None 0 None true false)).
  intros H. discriminate H.
Defined.

(** *** A call without bounds *)

Section Unbounded.

Variable c : Config.
Hypothesis no_start : c_start c = None.
Hypothesis no_stop : c_stop c = None.
Hypothesis not_from_zero : c_time_from_zero c = false.

Lemma emits_unbounded g : forall fs j sigs,
  channels g <> [] ->
  Forall (fun f => length (cols f) = length (channels g)) fs ->
  (j = 0 \/ tracks g sigs) ->
  (emits c g j fs sigs).1
  = map (fun f => (master f, first_yield g f)) (List.filter has_cycles fs)
  /\ (fs <> [] \/ tracks g sigs -> tracks g (emits c g j fs sigs).2).
Proof.
  induction fs as [|f fs IH]; intros j sigs Hch Hall Hj.
  - simpl. split; [reflexivity|]. intros [H|H]; [congruence|exact H].
  - apply Forall_cons in Hall as [Hl Hall]. cbn [emits List.filter].
    pose proof (current_tracks g j f sigs Hl Hj) as Hcur.
    assert (Hplan : plan (c_start c) (c_stop c) (master f) = PKeep None None false)
      by now rewrite no_start, no_stop.
    destruct (fragment_step_cases c g j f sigs not_from_zero Hch Hl Hj)
      as [Hm|Hm Hp|Hm Hp|fs' fe' Hm Hp|fs' fe' Hm Hp Hc|fs' fe' Hm Hp Hc];
      try congruence.
    + unfold has_cycles. rewrite Hm. simpl.
      destruct (IH (S j) _ Hch Hall (or_intror Hcur)) as [I1 I2].
      split; [exact I1|]. intros _. apply I2. now right.
    + assert (Hy : tracks g (first_yield g f)) by now apply first_yield_tracks.
      destruct (IH (S j) _ Hch Hall (or_intror Hy)) as [I1 I2].
      destruct (emits c g (S j) fs (first_yield g f)) as [es s'].
      assert (Hcy : has_cycles f = true).
      { unfold has_cycles. destruct (master f); [congruence|reflexivity]. }
      rewrite Hcy. simpl in *. split; [now rewrite I1|].
      intros _. apply I2. now right.
Qed.

Lemma concat_samples_cycles g k fs :
  Forall (wf_fragment g) fs ->
  concat (map (fun f => (nth k (cols f) ([], None)).1) (List.filter has_cycles fs))
  = concat (map (fun f => (nth k (cols f) ([], None)).1) fs).
Proof.
  induction 1 as [|f fs [_ Hz] _ IH]; simpl; [reflexivity|].
  unfold has_cycles at 1. destruct (master f) eqn:E; simpl.
  - rewrite IH.
    assert (Hk : (nth k (cols f) ([], None)).1 = []).
    { destruct (nth_in_or_default k (cols f) ([], None)) as [Hin| ->];
        [|reflexivity].
      rewrite Forall_forall in Hz. apply list_elem_of_In, Hz in Hin.
      now destruct (nth k (cols f) ([], None)).1. }
    now rewrite Hk.
  - now rewrite IH.
Qed.

(** A group that is read is written with all its data. *)
Lemma produced_unbounded g :
  channels g <> [] -> fragments g <> [] -> wf_group g ->
  exists g', produced c g = [g'] /\ same_data true g g'.
Proof.
  intros Hch Hf Hwf.
  assert (Hlen : Forall (fun f => length (cols f) = length (channels g))
                        (fragments g)).
  { eapply Forall_impl; [exact Hwf|]. now intros f (Hl & _). }
  destruct (emits_unbounded g (fragments g) 0 [] Hch Hlen (or_introl eq_refl))
    as [H1 H2].
  specialize (H2 (or_introl Hf)).
  unfold produced.
  destruct (emits c g 0 (fragments g) []) as [es s'] eqn:E. cbn [fst snd] in *.
  subst es.
  destruct (List.filter has_cycles (fragments g)) as [|f1 kept] eqn:Ek; simpl.
  - assert (Hs' : s' <> []).
    { intros ->. apply tracks_length in H2. simpl in H2.
      destruct (channels g); [congruence|discriminate]. }
    destruct s' as [|s0 s']; [congruence|].
    remember (s0 :: s') as sg eqn:Esg. clear Esg Hs'.
    eexists. split; [reflexivity|].
    pose proof (tracks_truncate g _ H2) as Ht. unfold tracks in Ht.
    unfold same_data, group_of, group_timestamps, channel_samples.
    cbn [channels fragments comment acq_name].
    rewrite Ht. repeat split; try (intros _; reflexivity).
    + rewrite <- (concat_masters_filter (fragments g)), Ek. simpl.
      now destruct sg.
    + intros k.
      rewrite <- (concat_samples_cycles g k (fragments g) Hwf), Ek. simpl.
      rewrite app_nil_r, map_map.
      destruct (nth_in_or_default k (map (fun s => Sig.column (Sig.truncate s)) sg)
                                  ([], None)) as [Hin| ->]; [|reflexivity].
      apply in_map_iff in Hin as (s & <- & _). reflexivity.
  - assert (Hk : Forall (fun f => length (cols f) = length (channels g)) (f1 :: kept)).
    { rewrite <- Ek. apply Forall_forall. intros f Hin.
      apply list_elem_of_In, filter_In in Hin as [Hin _].
      rewrite Forall_forall in Hlen. now apply Hlen, list_elem_of_In. }
    apply Forall_cons in Hk as [Hk1 Hk].
    eexists. split; [reflexivity|].
    pose proof (first_yield_tracks g f1 Hk1) as Ht. unfold tracks in Ht.
    unfold same_data, group_of, group_timestamps, channel_samples.
    cbn [channels fragments comment acq_name].
    rewrite Ht, first_fragment_first_yield, map_id_fragments by assumption.
    repeat split; try (intros _; reflexivity).
    + rewrite <- Ek. apply concat_masters_filter.
    + intros k. rewrite <- Ek.
      exact (concat_samples_cycles g k (fragments g) Hwf).
Qed.

Lemma contributions_unbounded : forall gs,
  Forall wf_group gs ->
  Forall2 (same_data true) (List.filter has_data gs)
          (flat_map (contribution c) gs).
Proof.
  induction gs as [|g gs IH]; intros Hwf; [constructor|].
  apply Forall_cons in Hwf as [Hg Hwf]. specialize (IH Hwf).
  cbn [List.filter flat_map]. unfold has_data, contribution.
  destruct (channels g) as [|ch chs] eqn:Ech; [exact IH|].
  destruct (fragments g) as [|f0 fs] eqn:Ef.
  - unfold produced. rewrite Ef. exact IH.
  - destruct (produced_unbounded g) as (g' & -> & Hsame); try congruence.
    now constructor.
Qed.

End Unbounded.

(** X4: [cut] without bounds is a copy. On a file whose fragments have one
    column per channel and one sample per timestamp, a call that is not
    cancelled returns a file that has, for every group with included
    channels and at least one fragment and in the same order, a group
    with the same channels, comment, timestamps and samples of every
    channel, and with the same acquisition name when the channel groups of
    both versions have one (both are 4.x); [include_ends] and [whence]
    make no difference. *)
Theorem cut_without_bounds_is_a_copy :
  forall (self : MDF) (whence : Z) (version' : option string)
         (include_ends : bool),
    Forall wf_group (groups self) ->
    existsb has_data (groups self) = true ->
    exists out',
      cut self None None whence version' include_ends false Samples.never
      = (Return out', set_copy_on_get true self)
      /\ start_time out' = start_time self
      /\ Forall2 (same_data (carried self version'))
                 (List.filter has_data (groups self)) (groups out').
Proof.
  intros self whence v ie Hwf Hdata. unfold cut.
  assert (Hw : forall m, apply_whence m whence None = None).
  { intros m. unfold apply_whence. now destruct (whence =? 1)%Z. }
  rewrite !Hw.
  match goal with
  | |- context [cut_groups ?c ?t ?i ?gs ?st] =>
      destruct (cut_groups_never c gs i st) as [st' E];
      pose proof E as E';
      apply cut_groups_done in E' as [E1 E2];
      pose proof (contributions_unbounded c eq_refl eq_refl eq_refl gs Hwf) as Hc;
      set (cs := flat_map (contribution c) gs) in *
  end.
  unfold Samples.never. rewrite E.
  cbn [named out groups set_groups orb] in E1, E2.
  change (groups (set_copy_on_get false self)) with (groups self) in *.
  destruct (List.filter has_data (groups self)) as [|g0 kept] eqn:Ek.
  { exfalso. apply existsb_exists in Hdata as (g & Hin & Hg).
    assert (Hf : In g (List.filter has_data (groups self)))
      by (apply filter_In; now split).
    rewrite Ek in Hf. destruct Hf. }
  clearbody cs. destruct cs as [|g1 rest]; [inversion Hc|].
  cbn [nonempty] in E2. rewrite E2.
  eexists. split; [reflexivity|]. rewrite E1. cbn [groups set_groups app].
  split; [reflexivity|].
  apply Forall2_fmap_r. eapply Forall2_impl; [exact Hc|].
  intros g g' Hs. exact (same_data_arrives (carried self v) g g' Hs).
Qed.

Lemma cut_without_bounds_witness :
  exists out',
    cut Samples.two_fragments None None 0 None true false Samples.never
    = (Return out', set_copy_on_get true Samples.two_fragments)
    /\ start_time out' = start_time Samples.two_fragments
    /\ Forall2 (same_data (carried Samples.two_fragments None))
               (List.filter has_data (groups Samples.two_fragments))
               (groups out').
Proof.
  apply (cut_without_bounds_is_a_copy Samples.two_fragments 0 None true).
  - repeat constructor.
  - reflexivity.
Defined.

(** *** [whence] *)

(** The smallest first timestamp of the groups ([0] for a file without
    samples). *)
Definition first_timestamp (self : MDF) : Q :=
  let timestamps := flat_map get_master_first (groups self) in
  match timestamps with
  | [] => 0%Q
  | _ :: _ => amin timestamps
  end.

Definition relative_to (self : MDF) (whence : Z) (bound : option Q) : option Q :=
  if (whence =? 1)%Z
  then (fun b => (b + first_timestamp self)%Q) <$> bound
  else bound.

Lemma first_timestamp_le self g t0 :
  In g (groups self) -> head (group_timestamps g) = Some t0 ->
  (first_timestamp self <= t0)%Q.
Proof.
  intros Hg Ht. unfold first_timestamp.
  assert (Hin : In t0 (flat_map get_master_first (groups self))).
  { apply in_flat_map. exists g. split; [exact Hg|].
    unfold get_master_first. destruct (group_timestamps g); [discriminate|].
    injection Ht as ->. now left. }
  cbv zeta. remember (flat_map get_master_first (groups self)) as l eqn:E.
  destruct l as [|x l]; [destruct Hin|]. now apply amin_le.
Qed.

Lemma cut_whence self start stop whence v ie tz terminate :
  cut self start stop whence v ie tz terminate
  = cut self (relative_to self whence start) (relative_to self whence stop) 0
        v ie tz terminate.
Proof. reflexivity. Qed.

Lemma relative_to_ordered self whence start stop :
  bounds_ordered start stop ->
  bounds_ordered (relative_to self whence start) (relative_to self whence stop).
Proof.
  intros Ho s e. unfold relative_to.
  destruct (whence =? 1)%Z; [|apply Ho].
  destruct start as [s0|], stop as [e0|]; simpl; try discriminate.
  intros [= <-] [= <-]. specialize (Ho s0 e0 eq_refl eq_refl). lra.
Qed.

(** X5: with [whence=1] the bounds of [cut] are relative to the smallest
    first timestamp of the groups of the file, which is not above the
    first timestamp of any group; with any other [whence] they are
    absolute. For [start <= stop], every timestamp of the file that is
    returned lies between the bounds so taken (files with well-formed
    fragments and monotonic timestamps). *)
Theorem cut_whence_is_relative_to_the_first_timestamp :
  forall (self : MDF) (start stop : option Q) (whence : Z)
         (version' : option string) (include_ends : bool)
         (terminate : nat -> bool) (out' self' : MDF),
    bounds_ordered start stop ->
    Forall wf_group (groups self) ->
    Forall monotonic (groups self) ->
    cut self start stop whence version' include_ends false terminate
    = (Return out', self') ->
    (forall g t0, In g (groups self) -> head (group_timestamps g) = Some t0 ->
                  (first_timestamp self <= t0)%Q)
    /\ forall g' t,
         In g' (groups out') -> In t (group_timestamps g') ->
         (forall s, start = Some s ->
                    ((if (whence =? 1)%Z then s + first_timestamp self else s)
                     <= t)%Q)
         /\ (forall e, stop = Some e ->
                       (t <= (if (whence =? 1)%Z then e + first_timestamp self
                              else e))%Q).
Proof.
  intros self start stop whence v ie terminate out' self' Ho Hwf Hmono H.
  split; [intros g t0; apply first_timestamp_le|].
  rewrite cut_whence in H.
  apply (cut_output_tidy self _ _ v ie terminate out' self'
           (relative_to_ordered self whence start stop Ho) Hwf Hmono) in H.
  intros g' t Hg' Ht. rewrite Forall_forall in H.
  destruct (H g' (proj2 (list_elem_of_In _ _) Hg')) as (_ & _ & Hall).
  unfold group_timestamps in Ht. apply in_concat in Ht as (m & Hm & Ht).
  apply in_map_iff in Hm as (f & <- & Hf).
  rewrite Forall_forall in Hall.
  destruct (Hall f (proj2 (list_elem_of_In _ _) Hf)) as (_ & _ & Hr & _).
  unfold all_in_range in Hr. rewrite Forall_forall in Hr.
  specialize (Hr t (proj2 (list_elem_of_In _ _) Ht)).
  unfold Sig.in_range in Hr. apply andb_true_iff in Hr as [Hs He].
  unfold relative_to in Hs, He. split.
  - intros s ->. destruct (whence =? 1)%Z; simpl in Hs; now apply Qleb_le.
  - intros e ->. destruct (whence =? 1)%Z; simpl in He; now apply Qleb_le.
Qed.

Lemma cut_whence_witness :
  first_timestamp Samples.starts_at_ten = 10%Q
  /\ exists out',
    cut Samples.starts_at_ten (Some 1%Q) (Some 3%Q) 1 None true false
        Samples.never
    = (Return out', set_copy_on_get true Samples.starts_at_ten)
    /\ map group_timestamps (groups out') = [[11; 12; 13]%Q]
    /\ forall g' t,
         In g' (groups out') -> In t (group_timestamps g') ->
         (forall s, Some 1%Q = Some s ->
                    ((if (1 =? 1)%Z then s + first_timestamp Samples.starts_at_ten
                      else s) <= t)%Q)
         /\ (forall e, Some 3%Q = Some e ->
                       (t <= (if (1 =? 1)%Z
                              then e + first_timestamp Samples.starts_at_ten
                              else e))%Q).
Proof.
  split; [reflexivity|].
  eexists. split; [vm_compute; reflexivity|]. split; [reflexivity|].
  eapply (cut_whence_is_relative_to_the_first_timestamp
            Samples.starts_at_ten (Some 1%Q) (Some 3%Q) 1 None true Samples.never).
  - intros s e [= <-] [= <-]. vm_compute. discriminate.
  - repeat constructor.
  - repeat constructor; vm_compute; discriminate.
  - vm_compute. reflexivity.
Defined.

End CutEdges.

(** ** [MDF.cleanup_timestamps]: what is left of a fragment *)

Module CleanupFacts.
Import Engine ArrayFacts CutWrites CutSteps CopyFacts Cleanup.

(** [plausible_timestamps] for a test [p] of one timestamp: the mask of
    the entries that pass, and whether all do. *)
Definition checked (p : Q -> bool) (t : list Q) : bool * list bool :=
  (forallb p t, map p t).

(** The fragment after the cleanup: the entries that pass are kept, unless
    all pass or none does; then the fragment stays as it is. *)
Definition cleaned (p : Q -> bool) (f : Fragment) : Fragment :=
  if forallb p (master f) || negb (existsb p (master f)) then f
  else mkFragment (List.filter p (master f))
                  (map (clean_column (map p (master f))) (cols f)).

Definition cleaned_group (p : Q -> bool) (cmt : string) (g : Group) : Group :=
  mkGroup (channels g) (map (cleaned p) (fragments g)) cmt (acq_name g).

Lemma filter_nil_existsb (p : Q -> bool) t :
  List.filter p t = [] <-> existsb p t = false.
Proof.
  induction t as [|x t IH]; simpl; [tauto|].
  destruct (p x); simpl; [split; discriminate|exact IH].
Qed.

Lemma cleaned_columns p f : length (cols (cleaned p f)) = length (cols f).
Proof.
  unfold cleaned. destruct (_ || _); [reflexivity|]. apply length_map.
Qed.

Lemma cleanup_fragment_later p vf vt g idx f st :
  cleanup_fragment (checked p) vf vt g (S idx) f st
  = (Next, mkLoop (extend (cg_nr st) (next_yield (cleaned p f)) (out st))
                  (cg_nr st)).
Proof.
  unfold cleanup_fragment, cleaned, checked.
  destruct (master f) as [|t0 t] eqn:Em; [reflexivity|].
  cbv beta iota zeta.
  destruct (forallb p (t0 :: t)) eqn:Ea; [reflexivity|].
  rewrite (mask_select_filter p (t0 :: t)). cbn [orb].
  destruct (List.filter p (t0 :: t)) as [|x l] eqn:Ef.
  - apply filter_nil_existsb in Ef. now rewrite Ef.
  - assert (Ee : existsb p (t0 :: t) = true).
    { destruct (existsb p (t0 :: t)) eqn:Ee; [reflexivity|].
      apply filter_nil_existsb in Ee. congruence. }
    rewrite Ee. cbn [negb]. unfold next_yield. cbn [master cols].
    rewrite map_cons. unfold clean_column at 1. cbn [fst snd]. rewrite Em.
    now rewrite (mask_select_filter p (t0 :: t)), Ef.
Qed.

Lemma clean_first_yield mask t' : forall (chs : list Channel) (cs : list Column) m,
  map (clean_signal mask t')
      (zip_with (fun ch (c : Column) => mkSignal (ch_name ch) (ch_kind ch) c.1 m c.2)
                chs cs)
  = zip_with (fun ch (c : Column) => mkSignal (ch_name ch) (ch_kind ch) c.1 t' c.2)
             chs (map (clean_column mask) cs).
Proof.
  induction chs as [|ch chs IH]; intros [|c cs] m; simpl; try reflexivity.
  now rewrite IH.
Qed.

Lemma cleanup_fragment_first p vf vt g f st :
  channels g <> [] -> length (cols f) = length (channels g) ->
  cleanup_fragment (checked p) vf vt g 0 f st
  = let '(o, nr) :=
      append (first_yield g (cleaned p f))
             ("Timestamps cleaned up and converted from " ++ vf ++ " to " ++ vt)
             (acq_name g) (out st) in
    (Next, mkLoop o nr).
Proof.
  intros Hch Hl. unfold cleanup_fragment.
  pose proof (first_yield_nonempty g f Hch Hl) as Hne.
  pose proof (first_yield_timestamps g f) as Ht.
  destruct (first_yield g f) as [|s0 ss] eqn:Ey; [congruence|].
  apply Forall_cons in Ht as [Ht _]. rewrite Ht.
  assert (E : match master f with
              | [] => s0 :: ss
              | _ :: _ =>
                  let '(all_ok, mask) := checked p (master f) in
                  if all_ok then s0 :: ss
                  else match mask_select mask (master f) with
                       | [] => s0 :: ss
                       | (_ :: _) as t' => map (clean_signal mask t') (s0 :: ss)
                       end
              end = first_yield g (cleaned p f)).
  { unfold cleaned, checked.
    destruct (master f) as [|t0 t] eqn:Em; [now rewrite <- Ey|].
    cbv beta iota zeta.
    destruct (forallb p (t0 :: t)) eqn:Ea; [now rewrite <- Ey|].
    rewrite (mask_select_filter p (t0 :: t)). cbn [orb].
    destruct (List.filter p (t0 :: t)) as [|x l] eqn:Ef.
    - apply filter_nil_existsb in Ef. rewrite Ef. now rewrite <- Ey.
    - assert (Ee : existsb p (t0 :: t) = true).
      { destruct (existsb p (t0 :: t)) eqn:Ee; [reflexivity|].
        apply filter_nil_existsb in Ee. congruence. }
      rewrite Ee. cbn [negb]. rewrite <- Ey. unfold first_yield.
      cbn [master cols]. apply clean_first_yield. }
  rewrite E. reflexivity.
Qed.

Lemma cleanup_fragments_later p vf vt g fs : forall idx st,
  cleanup_fragments (checked p) vf vt g (S idx) fs st
  = mkLoop (foldl (fun o f => extend (cg_nr st) (next_yield f) o) (out st)
                  (map (cleaned p) fs))
           (cg_nr st).
Proof.
  induction fs as [|f fs IH]; intros idx st.
  - now destruct st.
  - cbn [cleanup_fragments]. rewrite cleanup_fragment_later, IH. reflexivity.
Qed.

Lemma append_spec sigs cmt acq o :
  append sigs cmt acq o
  = (set_groups (groups o ++ [mkGroup (map channel_of sigs) [first_fragment sigs]
                                      cmt acq]) o,
     length (groups o)).
Proof. reflexivity. Qed.

Lemma cleanup_fragments_spec p vf vt g st :
  wf_group g ->
  out (cleanup_fragments (checked p) vf vt g 0 (fragments g) st)
  = set_groups
      (groups (out st)
       ++ (if has_data g
           then [cleaned_group p ("Timestamps cleaned up and converted from "
                                  ++ vf ++ " to " ++ vt) g]
           else []))
      (out st).
Proof.
  intros Hwf. unfold has_data, wf_group in *.
  destruct (fragments g) as [|f fs] eqn:Ef.
  - rewrite andb_false_r, app_nil_r. simpl. now destruct (out st).
  - apply Forall_cons in Hwf as [[Hl _] _]. cbn [cleanup_fragments].
    destruct (channels g) as [|ch chs] eqn:Ech.
    + unfold cleanup_fragment, first_yield. rewrite Ech. simpl.
      rewrite app_nil_r. now destruct (out st).
    + assert (Hch : channels g <> []) by congruence.
      rewrite <- Ech in Hl.
      rewrite (cleanup_fragment_first p vf vt g f st Hch Hl), append_spec.
      rewrite cleanup_fragments_later. cbn [out cg_nr nonempty andb].
      erewrite extend_fragments by apply set_groups_groups.
      rewrite set_groups_twice.
      assert (Hlc : length (cols (cleaned p f)) = length (channels g))
        by now rewrite cleaned_columns.
      pose proof (first_yield_tracks g (cleaned p f) Hlc) as Ht.
      unfold tracks in Ht.
      rewrite Ht, (first_fragment_of_yield g (cleaned p f) Hch Hlc).
      unfold cleaned_group. rewrite Ef. reflexivity.
Qed.

Lemma cleanup_groups_never p vf vt gs : forall i st,
  Forall wf_group gs ->
  exists st',
    cleanup_groups (checked p) vf vt Samples.never i gs st = Done st'
    /\ out st'
       = set_groups
           (groups (out st)
            ++ map (cleaned_group p ("Timestamps cleaned up and converted from "
                                     ++ vf ++ " to " ++ vt))
                   (List.filter has_data gs))
           (out st).
Proof.
  induction gs as [|g gs IH]; intros i st Hwf.
  - exists st. split; [reflexivity|]. simpl. rewrite app_nil_r.
    now destruct (out st).
  - apply Forall_cons in Hwf as [Hg Hwf]. cbn [cleanup_groups].
    unfold Samples.never at 1.
    destruct (IH (S i) (cleanup_fragments (checked p) vf vt g 0 (fragments g) st)
                Hwf) as (st' & E & H).
    exists st'. split; [exact E|].
    rewrite H, (cleanup_fragments_spec p vf vt g st Hg).
    cbn [groups set_groups List.filter]. rewrite set_groups_twice, <- app_assoc.
    now destruct (has_data g).
Qed.

(** X6: [cleanup_timestamps] with a test for single timestamps, on a file
    whose fragments have one column per included channel. The new file
    has one group for every group with included channels and at least one
    fragment, with the same channels and fragment by fragment: when some
    but not all timestamps of a fragment pass the test, the fragment keeps
    exactly the entries (timestamps, samples, invalidation bits) whose
    timestamp passes; when all pass, or when none passes, the fragment is
    written as it is. So a fragment of the new file whose timestamps are
    not all plausible has no plausible timestamp at all. *)
Theorem cleanup_keeps_the_plausible_entries :
  forall (self : MDF) (p : Q -> bool) (version' : option string),
    Forall wf_group (groups self) ->
    exists out' cmt,
      cleanup_timestamps self (checked p) version' Samples.never
      = (Return out', set_copy_on_get true self)
      /\ groups out'
         = map (cleaned_group p cmt) (List.filter has_data (groups self))
      /\ forall f,
           (forallb p (master f) = false -> existsb p (master f) = true ->
            master (cleaned p f) = List.filter p (master f)
            /\ cols (cleaned p f)
               = map (fun col : Column =>
                        (mask_select (map p (master f)) col.1,
                         mask_select (map p (master f)) <$> col.2))
                     (cols f))
           /\ (forallb p (master f) = true \/ existsb p (master f) = false ->
               cleaned p f = f)
           /\ (forallb p (master (cleaned p f)) = true
               \/ existsb p (master (cleaned p f)) = false).
Proof.
  intros self p v Hwf. unfold cleanup_timestamps.
  match goal with
  | |- context [cleanup_groups ?pl ?vf ?vt _ ?i ?gs ?st] =>
      destruct (cleanup_groups_never p vf vt gs i st Hwf) as (st' & E & H)
  end.
  rewrite E. exists (out st'). eexists. split; [reflexivity|].
  split; [rewrite H; reflexivity|].
  intros f. unfold cleaned.
  destruct (forallb p (master f)) eqn:Ea; cbn [orb].
  - split; [discriminate|]. split; [reflexivity|now left].
  - destruct (existsb p (master f)) eqn:Ee; cbn [negb].
    + split; [intros _ _; split; reflexivity|].
      split; [intros [?|?]; discriminate|]. left. cbn [master].
      clear. induction (master f) as [|x t IH]; [reflexivity|].
      simpl. destruct (p x) eqn:Ex; simpl; [now rewrite Ex|exact IH].
    + split; [discriminate|]. split; [reflexivity|now right].
Qed.

Lemma cleanup_keeps_the_plausible_witness :
  exists out' cmt,
    cleanup_timestamps Samples.two_fragments (checked (fun t => Qleb t 5))
                       None Samples.never
    = (Return out', set_copy_on_get true Samples.two_fragments)
    /\ groups out'
       = map (cleaned_group (fun t => Qleb t 5) cmt)
             (List.filter has_data (groups Samples.two_fragments)).
Proof.
  destruct (cleanup_keeps_the_plausible_entries
              Samples.two_fragments (fun t => Qleb t 5) None)
    as (out' & cmt & E & H & _).
  - repeat constructor.
  - exists out', cmt. split; [exact E|exact H].
Defined.

End CleanupFacts.

(** ** [MDF.stack]: the groups of the stacked file *)

Module StackFacts.
Import Engine ArrayFacts CutWrites CutSteps MinFacts CopyFacts Stack.

















End StackFacts.

(** ** [_extract_can_logging]: found, not found and unknown *)

Module BusReport.
Import BusLogging BusFacts.

(** The flags of the identifier hold a [False]: some catalog had it. *)
Definition has_false (m : gmap Z (list bool)) (j : Z) : Prop :=
  false ∈ default [] (m !! j).

(** The summary names the message [n] for the identifier [j] under the
    catalog [k]. *)
Definition found_as (s : State) (k : string) (j : Z) (n : string) : Prop :=
  (j, n) ∈ default ∅ (found_ids s !! k).

(** The catalog has a message called [n] for the identifier [j]. *)
Definition in_catalog (messages : gmap Z Message) (j : Z) (n : string) : Prop :=
  exists message, messages !! j = Some message /\ n = message_name message.

(** The identifiers the frames of the file are looked up with in the
    catalog of an entry of [valid_dbc_files]. *)
Definition ids_of (file : list BusGroup) (e : Dbc * string * Z) : gset Z :=
  ids_read file (contains_j1939 e.1.1) e.2.

Section Progress.

Variable messages : gmap Z Message.
Variable dbc_name : string.
Variable before : State.

(** What the lookups of the identifiers [V] in one catalog add to the
    state [before]. *)
Definition progress (V : gset Z) (s : State) : Prop :=
  (forall j, j ∈ V ->
     exists l, unknown_flags s !! j = Some l /\ l <> []
               /\ (false ∈ l <-> has_false (unknown_flags before) j
                                 \/ is_Some (messages !! j)))
  /\ (forall j, j ∉ V -> unknown_flags s !! j = unknown_flags before !! j)
  /\ (forall k j n,
        found_as s k j n
        <-> found_as before k j n
            \/ (k = dbc_name /\ j ∈ V /\ in_catalog messages j n)).

Lemma progress_start : progress ∅ before.
Proof.
  split; [|split].
  - intros j Hj. now apply elem_of_empty in Hj.
  - reflexivity.
  - intros k j n. split; [now left|].
    intros [H|(_ & Hj & _)]; [exact H|]. now apply elem_of_empty in Hj.
Qed.

Lemma visit_progress record V s :
  progress V s -> progress ({[record.1]} ∪ V) (visit messages dbc_name record s).
Proof.
  intros (H1 & H2 & H3). destruct record as [i o]. cbn [fst].
  assert (Hflags : forall flag,
            (flag = false <-> is_Some (messages !! i)) ->
            (forall j, j ∈ ({[i]} ∪ V : gset Z) ->
               exists l, note i flag (unknown_flags s) !! j = Some l /\ l <> []
                         /\ (false ∈ l <-> has_false (unknown_flags before) j
                                           \/ is_Some (messages !! j)))
            /\ (forall j, j ∉ ({[i]} ∪ V : gset Z) ->
                  note i flag (unknown_flags s) !! j = unknown_flags before !! j)).
  { intros flag Hflag. split.
    - intros j Hj. unfold note. destruct (decide (j = i)) as [->|Hne].
      + rewrite lookup_insert_eq. eexists. split; [reflexivity|]. split.
        * now destruct (default [] _).
        * rewrite elem_of_app, list_elem_of_singleton.
          destruct (decide (i ∈ V)) as [Hi|Hi].
          -- destruct (H1 i Hi) as (l & -> & _ & Hl). simpl. rewrite Hl.
             split; [intros [H|H]; [exact H|right; now apply Hflag]|].
             intros [H|H]; [left; now left|left; now right].
          -- rewrite (H2 i Hi). unfold has_false.
             split; (intros [H|H]; [now left|right]); [now apply Hflag|].
             symmetry. now apply Hflag.
      + rewrite lookup_insert_ne by congruence. apply H1.
        apply elem_of_union in Hj as [Hj|Hj]; [|exact Hj].
        apply elem_of_singleton in Hj. congruence.
    - intros j Hj. unfold note.
      rewrite lookup_insert_ne.
      + apply H2. intros Hin. apply Hj, elem_of_union. now right.
      + intros ->. apply Hj, elem_of_union. left. now apply elem_of_singleton. }
  unfold visit. cbn [fst]. destruct (messages !! i) as [message|] eqn:Em.
  - destruct (Hflags false) as [F1 F2].
    { split; [eauto|reflexivity]. }
    split; [exact F1|]. split; [exact F2|].
    intros k j n. unfold found_as. cbn [found_ids].
    destruct (decide (k = dbc_name)) as [->|Hne].
    + rewrite lookup_insert_eq. cbn [default from_option id].
      rewrite elem_of_union, elem_of_singleton.
      specialize (H3 dbc_name j n). unfold found_as in H3. rewrite H3.
      split.
      * intros [[H|(_ & Hj & Hc)]|[= -> ->]]; [now left| |].
        -- right. split; [reflexivity|]. split; [|exact Hc].
           apply elem_of_union. now right.
        -- right. split; [reflexivity|]. split.
           ++ apply elem_of_union. left. now apply elem_of_singleton.
           ++ exists message. now split.
      * intros [H|(_ & Hj & Hc)]; [left; now left|].
        apply elem_of_union in Hj as [Hj|Hj].
        -- apply elem_of_singleton in Hj as ->. right.
           destruct Hc as (m & Hm & ->). rewrite Em in Hm. now injection Hm as <-.
        -- left. right. auto.
    + rewrite lookup_insert_ne by congruence.
      specialize (H3 k j n). unfold found_as in H3. rewrite H3.
      split; (intros [H|(Hk & _)]; [now left|congruence]).
  - destruct (Hflags true) as [F1 F2].
    { split; [discriminate|]. intros [m Hm]. discriminate. }
    split; [exact F1|]. split; [exact F2|].
    intros k j n. specialize (H3 k j n). unfold found_as in *. cbn [found_ids].
    rewrite H3. split.
    + intros [H|(Hk & Hj & Hc)]; [now left|]. right.
      split; [exact Hk|]. split; [|exact Hc]. apply elem_of_union. now right.
    + intros [H|(Hk & Hj & Hc)]; [now left|].
      apply elem_of_union in Hj as [Hj|Hj]; [|right; auto].
      apply elem_of_singleton in Hj as ->.
      destruct Hc as (m & Hm & _). congruence.
Qed.

(** A part of the extraction looks up the identifiers it would look up
    from the start, whatever was looked up before. *)
Definition additive (f : State -> State) : Prop :=
  (forall s, seen (f s) = seen (f initial) ∪ seen s)
  /\ (forall V s, progress V s -> progress (seen (f initial) ∪ V) (f s)).

Lemma seen_initial : seen initial = ∅.
Proof. unfold seen, initial. simpl. apply dom_empty_L. Qed.

Lemma additive_id : additive (fun s => s).
Proof.
  split.
  - intros s. now rewrite seen_initial, (left_id_L ∅ (∪)).
  - intros V s H. now rewrite seen_initial, (left_id_L ∅ (∪)).
Qed.

Lemma additive_visit record : additive (visit messages dbc_name record).
Proof.
  assert (E : seen (visit messages dbc_name record initial) = {[record.1]}).
  { rewrite visit_seen, seen_initial. apply (right_id_L ∅ (∪)). }
  split.
  - intros s. rewrite E. apply visit_seen.
  - intros V s H. rewrite E. now apply visit_progress.
Qed.

Lemma additive_total (T : gset (Z * Z)) :
  additive (fun s => mkState (total_unique_ids s ∪ T) (found_ids s)
                             (not_found_ids s) (unknown_flags s)
                             (current_not_found_ids s)).
Proof.
  split.
  - intros s. unfold seen. cbn [unknown_flags initial].
    now rewrite dom_empty_L, (left_id_L ∅ (∪)).
  - intros V s H. unfold seen. cbn [unknown_flags initial].
    rewrite dom_empty_L, (left_id_L ∅ (∪)). exact H.
Qed.

Lemma additive_compose f g :
  additive f -> additive g -> additive (fun s => g (f s)).
Proof.
  intros [F1 F2] [G1 G2].
  assert (E : seen (g (f initial)) = seen (g initial) ∪ seen (f initial))
    by apply G1.
  split.
  - intros s. rewrite E, G1, F1. apply (assoc_L (∪)).
  - intros V s H. rewrite E, <- (assoc_L (∪)). apply G2, F2, H.
Qed.

Lemma additive_foldl {X : Type} (g : State -> X -> State) (l : list X) :
  (forall x, additive (fun s => g s x)) -> additive (fun s => foldl g s l).
Proof.
  intros Hg. induction l as [|x l IH]; [apply additive_id|].
  cbn [foldl]. exact (additive_compose (fun s => g s x) _ (Hg x) IH).
Qed.

Lemma additive_visit_bus is_j1939 consolidated bus_filter fragment bus :
  additive (visit_bus messages is_j1939 consolidated dbc_name bus_filter
                      fragment bus).
Proof.
  unfold visit_bus. destruct (_ && _); [apply additive_id|].
  cbv zeta.
  apply (additive_compose
           (fun s => mkState (total_unique_ids s ∪ _) (found_ids s)
                             (not_found_ids s) (unknown_flags s)
                             (current_not_found_ids s))
           (fun s => foldl (fun acc record => visit messages dbc_name record acc)
                           s _)).
  - apply additive_total.
  - apply (additive_foldl (fun acc record => visit messages dbc_name record acc)).
    intros r. apply additive_visit.
Qed.

Lemma additive_visit_group is_j1939 consolidated bus_filter g :
  additive (fun s => visit_group messages is_j1939 consolidated dbc_name
                                 bus_filter s g).
Proof.
  unfold visit_group. destruct (_ || _); [apply additive_id|].
  apply additive_foldl. intros fragment. unfold visit_fragment.
  apply (additive_foldl
           (fun acc bus => visit_bus messages is_j1939 consolidated dbc_name
                                     bus_filter fragment bus acc)).
  intros bus. apply additive_visit_bus.
Qed.

(** The lookups of one catalog in the whole file. *)
Lemma visit_groups_progress is_j1939 consolidated bus_filter file :
  progress (ids_read file is_j1939 bus_filter)
           (foldl (visit_group messages is_j1939 consolidated dbc_name bus_filter)
                  before file).
Proof.
  destruct (additive_foldl
              (visit_group messages is_j1939 consolidated dbc_name bus_filter)
              file) as [_ H].
  { intros g. apply additive_visit_group. }
  specialize (H ∅ before progress_start).
  rewrite (right_id_L ∅ (∪)) in H.
  replace (ids_read file is_j1939 bus_filter)
    with (seen (foldl (visit_group messages is_j1939 consolidated dbc_name
                                   bus_filter) initial file)); [exact H|].
  apply set_eq. intros x. rewrite visit_groups_seen, seen_initial.
  split; [intros [H'|H']; [now apply elem_of_empty in H'|exact H']|now right].
Qed.

End Progress.

(** What the summary says once the catalogs [es] have been looked at. *)
Definition reported (file : list BusGroup) (es : list (Dbc * string * Z))
    (s : State) : Prop :=
  (forall j l, unknown_flags s !! j = Some l -> l <> [])
  /\ (forall j, j ∈ dom (unknown_flags s)
                <-> exists e, e ∈ es /\ j ∈ ids_of file e)
  /\ (forall j, has_false (unknown_flags s) j
                <-> exists e, e ∈ es /\ j ∈ ids_of file e
                              /\ is_Some (messages_of e.1.1 !! j))
  /\ (forall k j n,
        found_as s k j n
        <-> exists e, e ∈ es /\ e.1.2 = k /\ j ∈ ids_of file e
                      /\ in_catalog (messages_of e.1.1) j n).

Lemma reported_start file : reported file [] initial.
Proof.
  unfold reported, has_false, found_as, initial.
  cbn [unknown_flags found_ids].
  split; [|split; [|split]].
  - intros j l H. now rewrite lookup_empty in H.
  - intros j. rewrite dom_empty_L. split.
    + intros H. now apply elem_of_empty in H.
    + intros (e & He & _). now apply not_elem_of_nil in He.
  - intros j. rewrite lookup_empty. simpl. split.
    + intros H. now apply not_elem_of_nil in H.
    + intros (e & He & _). now apply not_elem_of_nil in He.
  - intros k j n. rewrite lookup_empty. simpl. split.
    + intros H. now apply elem_of_empty in H.
    + intros (e & He & _). now apply not_elem_of_nil in He.
Qed.

Lemma elem_of_snoc {A : Type} (l : list A) (x y : A) :
  y ∈ l ++ [x] <-> y ∈ l \/ y = x.
Proof. rewrite elem_of_app, list_elem_of_singleton. reflexivity. Qed.

Lemma visit_dbc_reported file consolidated es s e :
  reported file es s ->
  reported file (es ++ [e]) (visit_dbc file consolidated s e).
Proof.
  intros (R1 & R2 & R3 & R4). destruct e as [[dbc dbc_name] bus_filter].
  unfold visit_dbc.
  set (s0 := mkState _ _ _ _ _).
  set (s1 := foldl _ s0 file).
  pose proof (visit_groups_progress (messages_of dbc) dbc_name s0
                (contains_j1939 dbc) consolidated bus_filter file)
    as (P1 & P2 & P3).
  fold s1 in P1, P2, P3.
  change (unknown_flags s0) with (unknown_flags s) in P1, P2.
  set (V := ids_read file (contains_j1939 dbc) bus_filter) in *.
  assert (Hs1 : reported file (es ++ [(dbc, dbc_name, bus_filter)]) s1).
  { split; [|split; [|split]].
    - intros j l Hl. destruct (decide (j ∈ V)) as [Hj|Hj].
      + destruct (P1 j Hj) as (l' & Hl' & Hne & _). congruence.
      + rewrite (P2 j Hj) in Hl. now apply (R1 j).
    - intros j. destruct (decide (j ∈ V)) as [Hj|Hj].
      + split.
        * intros _. eexists. split; [apply elem_of_snoc; now right|exact Hj].
        * intros _. destruct (P1 j Hj) as (l & Hl & _). apply elem_of_dom. eauto.
      + rewrite elem_of_dom, (P2 j Hj), <- elem_of_dom, R2. split.
        * intros (e & He & Hin). exists e. split; [|exact Hin].
          apply elem_of_snoc. now left.
        * intros (e & He & Hin). apply elem_of_snoc in He as [He| ->].
          -- eauto.
          -- contradiction.
    - intros j. destruct (decide (j ∈ V)) as [Hj|Hj].
      + destruct (P1 j Hj) as (l & Hl & _ & Hf). unfold has_false at 1.
        rewrite Hl. simpl. rewrite Hf, R3. split.
        * intros [(e & He & H)|Hk].
          -- exists e. split; [apply elem_of_snoc; now left|exact H].
          -- eexists. split; [apply elem_of_snoc; now right|]. now split.
        * intros (e & He & Hin & Hk). apply elem_of_snoc in He as [He| ->].
          -- left. eauto.
          -- now right.
      + unfold has_false at 1. rewrite (P2 j Hj).
        fold (has_false (unknown_flags s) j). rewrite R3. split.
        * intros (e & He & H). exists e. split; [|exact H].
          apply elem_of_snoc. now left.
        * intros (e & He & Hin & Hk). apply elem_of_snoc in He as [He| ->].
          -- eauto.
          -- contradiction.
    - intros k j n. rewrite P3.
      change (found_as s0 k j n) with (found_as s k j n). rewrite R4. split.
      + intros [(e & He & H)|(Hk & Hj & Hc)].
        * exists e. split; [apply elem_of_snoc; now left|exact H].
        * eexists. split; [apply elem_of_snoc; now right|]. now repeat split.
      + intros (e & He & Hk & Hj & Hc). apply elem_of_snoc in He as [He| ->].
        * left. exists e. auto.
        * right. auto. }
  destruct (bool_decide _); exact Hs1.
Qed.

Lemma visit_dbcs_reported file consolidated : forall es' es s,
  reported file es s ->
  reported file (es ++ es') (foldl (visit_dbc file consolidated) s es').
Proof.
  induction es' as [|e es' IH]; intros es s H.
  - now rewrite app_nil_r.
  - cbn [foldl]. rewrite (cons_middle e es es'), app_assoc.
    apply IH. now apply visit_dbc_reported.
Qed.

Lemma summary_reported file valid_dbc_files consolidated :
  reported file valid_dbc_files
           (extract_can_summary file valid_dbc_files consolidated).
Proof.
  apply (visit_dbcs_reported file consolidated valid_dbc_files [] initial).
  apply reported_start.
Qed.

Lemma all_true_no_false (l : list bool) : forallb id l = true <-> false ∉ l.
Proof.
  induction l as [|b l IH]; simpl.
  - split; [intros _ H; now apply not_elem_of_nil in H|reflexivity].
  - rewrite andb_true_iff, IH, not_elem_of_cons. unfold id.
    destruct b; split; intros [H1 H2]; split; auto; congruence.
Qed.

(** X8: the summary of an extraction with any number of catalogs, for an
    identifier [i]. The identifier is looked up in a catalog when a frame
    that is read for the catalog (a frame of a bus-event CAN group with a
    [CAN_DataFrame] channel, on the bus the catalog is given for) has it
    (folds to it, for a J1939 catalog). It is reported as unknown exactly
    when it is looked up in some catalog and no catalog it is looked up in
    has it; it is in [found_ids] under a catalog name, with a message
    name, exactly when it is looked up in a catalog of that name which has
    a message of that name for it. *)
Theorem unknown_ids_are_the_ids_no_catalog_has :
  forall (file : list BusGroup) (valid_dbc_files : list (Dbc * string * Z))
         (consolidated_j1939 : bool) (i : Z),
    let s := extract_can_summary file valid_dbc_files consolidated_j1939 in
    let looked_up (e : Dbc * string * Z) :=
      i ∈ ids_read file (contains_j1939 e.1.1) e.2 in
    (i ∈ unknown_ids s
     <-> (exists e, e ∈ valid_dbc_files /\ looked_up e)
         /\ forall e, e ∈ valid_dbc_files -> looked_up e ->
                      messages_of e.1.1 !! i = None)
    /\ (forall k n,
          (i, n) ∈ default ∅ (found_ids s !! k)
          <-> exists e, e ∈ valid_dbc_files /\ e.1.2 = k /\ looked_up e
                        /\ exists message,
                             messages_of e.1.1 !! i = Some message
                             /\ n = message_name message).
Proof.
  intros file dbcs consolidated i s looked_up.
  destruct (summary_reported file dbcs consolidated) as (R1 & R2 & R3 & R4).
  fold s in R1, R2, R3, R4. split.
  - unfold unknown_ids. rewrite elem_of_dom. split.
    + intros (l & Hl). apply map_lookup_filter_Some in Hl as [Hl Hall].
      simpl in Hall. apply all_true_no_false in Hall.
      split; [apply R2, elem_of_dom; eauto|].
      intros e He Hin. destruct (messages_of e.1.1 !! i) eqn:Em; [|reflexivity].
      exfalso. apply Hall.
      assert (Hf : has_false (unknown_flags s) i).
      { apply R3. exists e. split; [exact He|]. split; [exact Hin|].
        rewrite Em. eauto. }
      unfold has_false in Hf. now rewrite Hl in Hf.
    + intros [Hex Hnone]. apply R2, elem_of_dom in Hex as [l Hl].
      exists l. apply map_lookup_filter_Some. split; [exact Hl|].
      simpl. apply all_true_no_false. intros Hf.
      assert (Hf' : has_false (unknown_flags s) i).
      { unfold has_false. now rewrite Hl. }
      apply R3 in Hf' as (e & He & Hin & [m Hm]).
      rewrite (Hnone e He Hin) in Hm. discriminate.
  - intros k n. apply (R4 k i n).
Qed.

(** *** The messages of the catalog *)

(** The messages of a catalog as the summary names them. *)
Definition catalog (messages : gmap Z Message) : gset (Z * string) :=
  list_to_set (map (fun kv => (kv.1, message_name kv.2)) (map_to_list messages)).

Lemma elem_of_catalog messages i n :
  (i, n) ∈ catalog messages
  <-> exists message, messages !! i = Some message /\ n = message_name message.
Proof.
  unfold catalog. rewrite elem_of_list_to_set. split.
  - intros H. apply list_elem_of_In, in_map_iff in H as ([k m] & [= <- <-] & Hin).
    apply list_elem_of_In, elem_of_map_to_list in Hin. eauto.
  - intros (m & Hm & ->). apply list_elem_of_In, in_map_iff. exists (i, m).
    split; [reflexivity|]. now apply list_elem_of_In, elem_of_map_to_list.
Qed.

Section OneCatalog.

Variable messages : gmap Z Message.
Variable dbc_name : string.

(** The found messages and the messages still to be found are the
    catalog, and no message is both. *)
Definition split_up (s : State) : Prop :=
  default ∅ (found_ids s !! dbc_name) ∪ current_not_found_ids s = catalog messages
  /\ default ∅ (found_ids s !! dbc_name) ## current_not_found_ids s.

Lemma visit_split_up record s :
  split_up s -> split_up (visit messages dbc_name record s).
Proof.
  intros [H1 H2]. destruct record as [i o]. unfold visit. cbn [fst].
  destruct (messages !! i) as [message|] eqn:Em; [|now split].
  unfold split_up. cbn [found_ids current_not_found_ids].
  rewrite lookup_insert_eq. cbn [default from_option id].
  assert (He : (i, message_name message) ∈ catalog messages)
    by (apply elem_of_catalog; eauto).
  set (e := (i, message_name message)) in *.
  set (F := default ∅ (found_ids s !! dbc_name)) in *.
  set (C := current_not_found_ids s) in *.
  split.
  - apply set_eq. intros x. split.
    + intros Hx. apply elem_of_union in Hx as [Hx|Hx].
      * apply elem_of_union in Hx as [Hx|Hx].
        -- rewrite <- H1. apply elem_of_union. now left.
        -- apply elem_of_singleton in Hx as ->. exact He.
      * apply elem_of_difference in Hx as [Hx _]. rewrite <- H1.
        apply elem_of_union. now right.
    + intros Hx. rewrite <- H1 in Hx. apply elem_of_union in Hx as [Hx|Hx].
      * apply elem_of_union. left. apply elem_of_union. now left.
      * destruct (decide (x = e)) as [->|Hne].
        -- apply elem_of_union. left. apply elem_of_union. right.
           now apply elem_of_singleton.
        -- apply elem_of_union. right. apply elem_of_difference.
           split; [exact Hx|]. intros H. now apply elem_of_singleton in H.
  - intros x Hx Hc. apply elem_of_difference in Hc as [Hc Hne].
    apply elem_of_union in Hx as [Hx|Hx]; [now apply (H2 x)|].
    apply Hne. exact Hx.
Qed.

Lemma foldl_split_up {X : Type} (f : State -> X -> State) (l : list X) :
  (forall s x, split_up s -> split_up (f s x)) ->
  forall s, split_up s -> split_up (foldl f s l).
Proof.
  intros Hf. induction l as [|x l IH]; intros s Hs; simpl; [exact Hs|].
  apply IH, Hf, Hs.
Qed.

Lemma visit_group_split_up is_j1939 consolidated bus_filter s g :
  split_up s ->
  split_up (visit_group messages is_j1939 consolidated dbc_name bus_filter s g).
Proof.
  intros Hs. unfold visit_group. destruct (_ || _); [exact Hs|].
  apply foldl_split_up; [|exact Hs].
  intros s' fragment Hs'. unfold visit_fragment.
  apply (foldl_split_up (fun acc bus => visit_bus messages is_j1939 consolidated
                                          dbc_name bus_filter fragment bus acc));
    [|exact Hs'].
  intros s'' bus Hs''. unfold visit_bus. destruct (_ && _); [exact Hs''|].
  apply (foldl_split_up (fun acc record => visit messages dbc_name record acc));
    [|exact Hs''].
  intros s3 r. apply visit_split_up.
Qed.

Lemma visit_group_not_found is_j1939 consolidated bus_filter s g :
  not_found_ids (visit_group messages is_j1939 consolidated dbc_name bus_filter s g)
  = not_found_ids s.
Proof.
  unfold visit_group. destruct (_ || _); [reflexivity|].
  revert s. induction (bus_fragments g) as [|fr frs IH]; intros s; [reflexivity|].
  cbn [foldl]. rewrite IH. unfold visit_fragment.
  generalize (unique_Z (map (fun fr0 => (bus_channel fr0 mod 256)%Z) fr)).
  intros buses. revert s. induction buses as [|b buses IHb]; intros s;
    [reflexivity|].
  cbn [foldl]. rewrite IHb. unfold visit_bus. destruct (_ && _); [reflexivity|].
  set (s1 := mkState _ _ _ _ _).
  change (not_found_ids s) with (not_found_ids s1).
  generalize (unique_pairs
                (map (fun fr0 =>
                        if is_j1939 && negb consolidated
                        then (msg_id_of is_j1939 (frame_id fr0),
                              original_id (frame_id fr0))
                        else (msg_id_of is_j1939 (frame_id fr0),
                              msg_id_of is_j1939 (frame_id fr0)))
                     (List.filter (fun fr0 => (bus_channel fr0 mod 256 =? b)%Z) fr))).
  intros records. generalize s1. clear.
  induction records as [|r records IHr]; intros s; [reflexivity|].
  cbn [foldl]. rewrite IHr. unfold visit. now destruct (messages !! r.1).
Qed.

Lemma visit_groups_not_found is_j1939 consolidated bus_filter file : forall s,
  not_found_ids (foldl (visit_group messages is_j1939 consolidated dbc_name
                                    bus_filter) s file)
  = not_found_ids s.
Proof.
  induction file as [|g file IH]; intros s; [reflexivity|].
  cbn [foldl]. now rewrite IH, visit_group_not_found.
Qed.

End OneCatalog.

(** X9: the summary of an extraction with one catalog names every
    message of the catalog exactly once: in [found_ids] under the name of
    the catalog when a frame that is read (a frame of a bus-event CAN
    group with a [CAN_DataFrame] channel, on the bus the catalog is given
    for) has its identifier (folds to its PGN, for a J1939 catalog), else
    in [not_found_ids]; and it names nothing else there. *)
Theorem catalog_messages_are_found_or_not_found :
  forall (file : list BusGroup) (dbc : Dbc) (dbc_name : string) (bus_filter : Z)
         (consolidated_j1939 : bool) (i : Z) (n : string),
    let s := extract_can_summary file [(dbc, dbc_name, bus_filter)]
                                 consolidated_j1939 in
    let ids := ids_read file (contains_j1939 dbc) bus_filter in
    let named := exists message, messages_of dbc !! i = Some message
                                 /\ n = message_name message in
    ((i, n) ∈ default ∅ (found_ids s !! dbc_name) <-> i ∈ ids /\ named)
    /\ ((i, n) ∈ default ∅ (not_found_ids s !! dbc_name) <-> (i ∉ ids) /\ named).
Proof.
  intros file dbc dbc_name bus_filter consolidated i n s ids named.
  assert (Hfound : (i, n) ∈ default ∅ (found_ids s !! dbc_name)
                   <-> i ∈ ids /\ named).
  { destruct (summary_reported file [(dbc, dbc_name, bus_filter)] consolidated)
      as (_ & _ & _ & R4).
    fold s in R4. specialize (R4 dbc_name i n). unfold found_as in R4.
    rewrite R4. split.
    - intros (e & He & _ & Hin & Hc). apply list_elem_of_singleton in He as ->.
      now split.
    - intros [Hin Hc]. eexists. split; [now apply list_elem_of_singleton|].
      now repeat split. }
  split; [exact Hfound|].
  assert (Hsplit : default ∅ (found_ids s !! dbc_name)
                   ∪ default ∅ (not_found_ids s !! dbc_name)
                   = catalog (messages_of dbc)
                   /\ default ∅ (found_ids s !! dbc_name)
                      ## default ∅ (not_found_ids s !! dbc_name)).
  { unfold s, extract_can_summary. cbn [foldl]. unfold visit_dbc.
    set (messages := messages_of dbc).
    set (s0 := mkState _ _ _ _ _).
    set (s1 := foldl _ s0 file).
    assert (H0 : split_up messages dbc_name s0).
    { unfold split_up, s0. cbn [found_ids current_not_found_ids initial].
      rewrite lookup_empty. cbn [default from_option]. split.
      - apply (left_id_L ∅ (∪)).
      - intros x Hx. now apply elem_of_empty in Hx. }
    assert (H1 : split_up messages dbc_name s1).
    { unfold s1. apply foldl_split_up; [|exact H0].
      intros s' g. apply visit_group_split_up. }
    assert (Hnf : not_found_ids s1 = ∅).
    { unfold s1. now rewrite visit_groups_not_found. }
    destruct H1 as [Hu Hd]. split.
    - destruct (bool_decide _) eqn:Eb.
      + apply bool_decide_eq_true in Eb. rewrite Hnf, lookup_empty.
        cbn [default from_option]. now rewrite <- Hu, Eb.
      + cbn [found_ids not_found_ids]. rewrite lookup_insert_eq. exact Hu.
    - destruct (bool_decide _) eqn:Eb.
      + rewrite Hnf, lookup_empty. cbn [default from_option]. intros x _ Hx.
        now apply elem_of_empty in Hx.
      + cbn [found_ids not_found_ids]. rewrite lookup_insert_eq. exact Hd. }
  destruct Hsplit as [Hu Hd].
  assert (Hcat : (i, n) ∈ catalog (messages_of dbc) <-> named)
    by apply elem_of_catalog.
  split.
  - intros Hnf. assert (Hc : named).
    { apply Hcat. rewrite <- Hu. apply elem_of_union. now right. }
    split; [|exact Hc]. intros Hin.
    apply (Hd (i, n)); [|exact Hnf]. apply Hfound. now split.
  - intros [Hnot Hc]. apply Hcat in Hc. rewrite <- Hu in Hc.
    apply elem_of_union in Hc as [Hc|Hc]; [|exact Hc].
    apply Hfound in Hc as [Hin _]. contradiction.
Qed.

(** A run with a catalog of two messages: one is found, one is not, and
    one identifier is unknown. *)
Lemma catalog_messages_example :
  let dbc := mkDbc false [mkMessage 0x100 0 "Engine"; mkMessage 0x200 0 "Brake"] in
  let file := [mkBusGroup true true true [[mkCanFrame 1 0x100; mkCanFrame 1 0x123]]] in
  let s := extract_can_summary file [(dbc, "bus.dbc", 0%Z)] false in
  default ∅ (found_ids s !! "bus.dbc") = {[(0x100%Z, "Engine")]}
  /\ default ∅ (not_found_ids s !! "bus.dbc") = {[(0x200%Z, "Brake")]}
  /\ unknown_ids s = {[0x123%Z]}.
Proof.
  vm_compute. repeat split.
Qed.

End BusReport.

(** ** [MDF.resample]: the step, the time shift and the samples *)

Module ResampleEdges.
Import Engine Resample Samples CutWrites ResampleFacts.

(** The time stamps the new file is given: the raster, moved to start at
    zero when that is asked for and the raster has an entry. *)
Definition shifted (time_from_zero : bool) (raster : list Q) : list Q :=
  match time_from_zero, raster with
  | true, r0 :: _ => map (fun t => (t - r0)%Q) raster
  | _, _ => raster
  end.











End ResampleEdges.

(** ** The identifier a bus frame is looked up with *)

Module FrameIds.
Import BusLogging.
Local Open Scope Z_scope.

Lemma land_ones_8 a : Z.land a 0xFF = a mod 2 ^ 8.
Proof. change 0xFF with (Z.ones 8). apply Z.land_ones. lia. Qed.

Lemma land_pgn_mask a : 0 <= a -> Z.land a 0x3FF00 = (a / 2 ^ 8) mod 2 ^ 10 * 2 ^ 8.
Proof.
  intros Ha.
  change 0x3FF00 with (Z.shiftl (Z.ones 10) 8).
  rewrite <- (Z.shiftl_mul_pow2 _ 8) by lia.
  rewrite <- (Z.land_ones _ 10) by lia.
  rewrite <- (Z.shiftr_div_pow2 a 8) by lia.
  rewrite (Z.shiftl_land (Z.shiftr a 8) (Z.ones 10) 8).
  apply Z.bits_inj'. intros n Hn.
  rewrite !Z.land_spec.
  destruct (Z.ltb_spec n 8) as [Hlt|Hge].
  - rewrite (Z.shiftl_spec_low (Z.ones 10)) by lia.
    rewrite (Z.shiftl_spec_low (Z.shiftr a 8)) by lia.
    rewrite andb_false_r. reflexivity.
  - rewrite (Z.shiftl_spec (Z.shiftr a 8)) by lia.
    rewrite Z.shiftr_spec by lia.
    replace (n - 8 + 8) with n by lia. reflexivity.
Qed.

(** X11: the identifier a frame is looked up with is the 29-bit
    identifier of the frame; for a J1939 catalog it is the PGN made of the
    data page bits, the PDU format byte and, for PDU format 240 and above
    only, the PDU specific byte. The priority and the source address of
    the frame, and for PDU formats below 240 the destination address, have
    no part in it. *)
Theorem frame_id_is_folded_to_its_pgn :
  forall raw : Z,
    let id := raw mod 2 ^ 29 in
    let dp := (id / 2 ^ 24) mod 4 in
    let pf := (id / 2 ^ 16) mod 256 in
    let ps := (id / 2 ^ 8) mod 256 in
    original_id raw = id
    /\ msg_id_of false raw = id
    /\ msg_id_of true raw
       = dp * 2 ^ 16 + pf * 2 ^ 8 + (if 240 <=? pf then ps else 0)
    /\ 0 <= msg_id_of true raw < 2 ^ 18.
Proof.
  intros raw id dp pf ps.
  assert (Hid : original_id raw = id).
  { unfold original_id, id. change 0x1FFFFFFF with (Z.ones 29).
    rewrite Z.land_ones by lia.
    apply Z.mod_mod_divide. exists (2 ^ 3). reflexivity. }
  assert (Hrange : 0 <= id < 2 ^ 29) by (apply Z.mod_pos_bound; lia).
  assert (Hfold : msg_id_of true raw
                  = dp * 2 ^ 16 + pf * 2 ^ 8 + (if 240 <=? pf then ps else 0)).
  { unfold msg_id_of. rewrite Hid. cbv zeta.
    rewrite !land_ones_8.
    rewrite land_pgn_mask by (apply Z.shiftr_nonneg; lia).
    rewrite !Z.shiftr_div_pow2 by lia.
    assert (Hpf : (id / 2 ^ 16) mod 2 ^ 8 = pf) by reflexivity.
    assert (Hps : (id / 2 ^ 8) mod 2 ^ 8 = ps) by reflexivity.
    rewrite Hpf, Hps.
    assert (Hhi : (id / 2 ^ 8 / 2 ^ 8) mod 2 ^ 10 * 2 ^ 8
                  = dp * 2 ^ 16 + pf * 2 ^ 8).
    { rewrite Z.div_div by lia. change (2 ^ 8 * 2 ^ 8) with (2 ^ 16).
      change (2 ^ 10) with (2 ^ 8 * 4).
      rewrite Z.rem_mul_r by lia.
      rewrite Z.div_div by lia. change (2 ^ 16 * 2 ^ 8) with (2 ^ 24).
      rewrite Hpf. fold dp. change (2 ^ 8) with 256. change (2 ^ 16) with 65536.
      lia. }
    rewrite Hhi. destruct (240 <=? pf); lia. }
  split; [exact Hid|]. split; [exact Hid|]. split; [exact Hfold|].
  rewrite Hfold.
  assert (0 <= dp < 4) by (apply Z.mod_pos_bound; lia).
  assert (0 <= pf < 256) by (apply Z.mod_pos_bound; lia).
  assert (0 <= ps < 256) by (apply Z.mod_pos_bound; lia).
  destruct (240 <=? pf); lia.
Qed.

End FrameIds.

(** ** [MDF.__lt__] *)

Module OrderFacts.
Import Engine Order Samples ArrayFacts MinFacts.





End OrderFacts.

(** ** The selection list of the search dialog *)

Module SelectionFacts.
Import Concatenate ConcatStructure AdvancedSearch.

#[local] Instance names_trans : Transitive str_le.
Proof.
  intros a b c. rewrite !str_le_compare. apply string_compare_trans.
Qed.

#[local] Instance names_total : Total str_le.
Proof. intros a b. apply String.leb_total. Qed.

#[local] Instance names_antisym : AntiSymm (=) str_le.
Proof. intros a b. apply String.leb_antisym. Qed.

Lemma sorted_names_Permutation (names : gset string) :
  sorted_names names ≡ₚ elements names.
Proof. unfold sorted_names, py_sorted. apply merge_sort_Permutation. Qed.

Lemma sorted_names_Sorted (names : gset string) :
  Sorted str_le (sorted_names names).
Proof. unfold sorted_names, py_sorted. apply Sorted_merge_sort. apply _. Qed.

Lemma sorted_names_NoDup (names : gset string) : NoDup (sorted_names names).
Proof. rewrite sorted_names_Permutation. apply NoDup_elements. Qed.

Lemma elem_of_sorted_names (names : gset string) x :
  x ∈ sorted_names names <-> x ∈ names.
Proof. rewrite sorted_names_Permutation. apply elem_of_elements. Qed.

Lemma names_of_sorted_names (names : gset string) :
  names_of (sorted_names names) = names.
Proof.
  apply set_eq. intros x. unfold names_of.
  rewrite elem_of_list_to_set. apply elem_of_sorted_names.
Qed.

Lemma sorted_names_of (selection : list string) :
  Sorted str_le selection -> NoDup selection ->
  sorted_names (names_of selection) = selection.
Proof.
  intros Hs Hn. apply (Sorted_unique str_le).
  - apply sorted_names_Sorted.
  - exact Hs.
  - rewrite sorted_names_Permutation. unfold names_of.
    now apply elements_list_to_set.
Qed.

(** X13: a double click on a match leaves the selection list in
    increasing order and without duplicates, holding the names it held
    before and the match; a second double click on the same match changes
    nothing. A double click on an entry of the selection list removes that
    name and keeps the others, again in order; for a name that is not in
    the list the removal raises [KeyError]. Adding a name that was not in
    an ordered list without duplicates and removing it again gives the
    list back. *)
Theorem selection_stays_sorted_and_unique :
  forall (selection : list string) (name : string),
    let added := _match_double_clicked selection name in
    Sorted str_le added
    /\ NoDup added
    /\ (forall x, x ∈ added <-> x ∈ selection \/ x = name)
    /\ _match_double_clicked added name = added
    /\ (name ∉ selection ->
        _selection_double_clicked selection name = inl KeyError)
    /\ (name ∈ selection ->
        exists removed,
          _selection_double_clicked selection name = inr removed
          /\ Sorted str_le removed
          /\ NoDup removed
          /\ forall x, x ∈ removed <-> x ∈ selection /\ x <> name)
    /\ (name ∉ selection -> Sorted str_le selection -> NoDup selection ->
        _selection_double_clicked added name = inr selection).
Proof.
  intros selection name added.
  assert (Hadded : added = sorted_names (names_of selection ∪ {[name]})).
  { unfold added, _match_double_clicked.
    destruct (bool_decide (name ∈ names_of selection)) eqn:E; [|reflexivity].
    apply bool_decide_eq_true in E. f_equal.
    apply set_eq. intros x. rewrite elem_of_union, elem_of_singleton.
    split; [now left|]. intros [H| ->]; [exact H|exact E]. }
  assert (Hin : forall x, x ∈ added <-> x ∈ selection \/ x = name).
  { intros x. rewrite Hadded, elem_of_sorted_names, elem_of_union,
      elem_of_singleton. unfold names_of. now rewrite elem_of_list_to_set. }
  split; [rewrite Hadded; apply sorted_names_Sorted|].
  split; [rewrite Hadded; apply sorted_names_NoDup|].
  split; [exact Hin|].
  split; [|split; [|split]].
  - unfold _match_double_clicked at 1.
    rewrite bool_decide_eq_true_2.
    + rewrite Hadded at 1. rewrite names_of_sorted_names. now rewrite Hadded.
    + unfold names_of. rewrite elem_of_list_to_set. apply Hin. now right.
  - intros Hnot. unfold _selection_double_clicked.
    rewrite bool_decide_eq_false_2; [reflexivity|].
    unfold names_of. now rewrite elem_of_list_to_set.
  - intros Hyes. unfold _selection_double_clicked.
    rewrite bool_decide_eq_true_2
      by (unfold names_of; now rewrite elem_of_list_to_set).
    eexists. split; [reflexivity|].
    split; [apply sorted_names_Sorted|]. split; [apply sorted_names_NoDup|].
    intros x. rewrite elem_of_sorted_names, elem_of_difference,
      elem_of_singleton. unfold names_of. now rewrite elem_of_list_to_set.
  - intros Hnot Hs Hn. unfold _selection_double_clicked.
    rewrite bool_decide_eq_true_2
      by (unfold names_of; rewrite elem_of_list_to_set; apply Hin; now right).
    f_equal. rewrite Hadded, names_of_sorted_names.
    rewrite <- (sorted_names_of selection Hs Hn) at 2. f_equal.
    apply set_eq. intros x.
    rewrite elem_of_difference, elem_of_union, elem_of_singleton.
    unfold names_of. rewrite elem_of_list_to_set.
    split; [intros [[H|H] H']; [exact H|contradiction]|].
    intros H. split; [now left|]. intros ->. contradiction.
Qed.

Lemma selection_witness :
  _selection_double_clicked ["a"; "b"] "c" = inl KeyError
  /\ _selection_double_clicked (_match_double_clicked ["a"; "b"] "c") "c"
     = inr ["a"; "b"]
  /\ exists removed,
       _selection_double_clicked ["b"; "a"; "b"] "b" = inr removed
       /\ forall x, x ∈ removed <-> x ∈ ["b"; "a"; "b"] /\ x <> "b".
Proof.
  pose proof (selection_stays_sorted_and_unique ["a"; "b"] "c")
    as (_ & _ & _ & _ & H1 & _ & H2).
  pose proof (selection_stays_sorted_and_unique ["b"; "a"; "b"] "b")
    as (_ & _ & _ & _ & _ & H3 & _).
  assert (Hnot : "c" ∉ ["a"; "b"]).
  { intros H. apply list_elem_of_In in H. simpl in H.
    destruct H as [H|[H|[]]]; discriminate. }
  split; [exact (H1 Hnot)|]. split.
  - apply H2; [exact Hnot| |].
    + repeat constructor.
    + repeat constructor; intros H; apply list_elem_of_In in H; simpl in H;
        repeat destruct H as [H|H]; try discriminate; exact H.
  - destruct H3 as (removed & E & _ & _ & H); [repeat constructor|].
    exists removed. split; [exact E|exact H].
Defined.

End SelectionFacts.

(** ** The terminate flag in [resample] and [cleanup_timestamps] *)

Module CancellationMore.
Import Engine Samples Cancellation ResampleEdges.





End CancellationMore.
